(** * btcchain: the chain-relative transaction view resolver (txlookup.go)

    A shallow embedding of [connectTransactions], [disconnectTransactions],
    [fetchTxList] and [fetchInputTransactions], the properties of the
    specification that concern them (C1 to C10), and further properties read
    off the code (X1 to X17): what the mutators allocate and write, how they
    repeat and reverse, the keys, the calls and the errors of the resolver,
    and how the input resolver puts its view together.

    Modelling decisions, all taken from the Go source:

    - A [btcwire.ShaHash] is a 32-byte array; only equality and use as a map
      key are needed, so it is read as the 256-bit number it spells ([N]).
    - [map[btcwire.ShaHash]*txData] is a [gmap ShaHash txData].  Every
      [*txData] stored in a map of this file is allocated by the loop
      iteration that stores it ([&txData{...}]) under one key, so the struct
      behind the pointer is kept by value and an assignment through the
      pointer ([txD.tx = tx]) rewrites the entry of that key.
    - [[]bool] is NOT kept by value: a slice is [nil] or a reference to a
      backing array in the memory [mem], because the replies of the database
      carry slices that the database may keep ([TxSpent]) and the view
      mutators write through slices.  [make] allocates, [copy] copies
      contents, an indexed store writes in place or panics.
    - A Go panic (index out of range, slice bounds out of range) is the
      outcome [Panicked]; a returned [error] is a value.
    - The methods of [BlockChain] and of the database that are not part of
      txlookup.go ([getPrevNodeFromNode], [getReorganizeNodes],
      [FetchTxByShaList], [FetchBlockBySha]) are fields of the record
      [BlockChain]; each use of a collaborator is appended to the call log
      [calls] of the memory, which plays the role of an instrumented
      collaborator counting its invocations. *)

From stdpp Require Import gmap list strings.
From Stdlib Require Import ZArith.

Local Open Scope Z_scope.
Local Open Scope nat_scope.

(** ** btcwire, btcutil, btcdb: the data the resolver reads *)

Abbreviation ShaHash := N (only parsing).

Record OutPoint := { op_Hash : ShaHash; op_Index : N }.

Record TxIn := { PreviousOutpoint : OutPoint }.

Record TxOut := { Value : Z }.

(** [tx_Sha] is the hash [btcutil.Block.TxSha] computes (and caches) for the
    transaction; it is carried with the transaction. *)
Record MsgTx := { tx_Sha : ShaHash; tx_TxIn : list TxIn; tx_TxOut : list TxOut }.

Record Block := { Transactions : list MsgTx; Height : Z }.

Inductive error :=
| TxShaMissing
| OutOfRangeError
| StorageError (code : N)
| Errorf (format : string) (arg : ShaHash).

(** [block.TxSha(i)]: the hash of the [i]-th transaction, an error out of range. *)
Definition TxSha (block : Block) (i : nat) : ShaHash + error :=
  match Transactions block !! i with
  | Some tx => inl (tx_Sha tx)
  | None => inr OutOfRangeError
  end.

(** ** Memory: backing arrays of [[]bool] slices, and the call log *)

Abbreviation loc := nat (only parsing).
Abbreviation slice := (option nat) (only parsing).

Record blockNode := { node_hash : ShaHash; node_height : Z }.

Inductive event :=
| CallGetPrevNodeFromNode (node : blockNode)
| CallFetchTxByShaList (txList : list ShaHash)
| CallGetReorganizeNodes (prevNode : option blockNode)
| CallFetchBlockBySha (sha : ShaHash)
| LookupBlockCache (sha : ShaHash).

Record mem := Mem { arrays : list (list bool); calls : list event }.

Inductive outcome (A : Type) :=
| Returned (a : A) (m : mem)
| Panicked (m : mem).
Arguments Returned {A} a m.
Arguments Panicked {A} m.

Definition M (A : Type) : Type := mem → outcome A.

Definition ret {A} (a : A) : M A := λ m, Returned a m.

Definition bind {A B} (c : M A) (f : A → M B) : M B :=
  λ m, match c m with
       | Returned a m' => f a m'
       | Panicked m' => Panicked m'
       end.

Notation "'let*' x ':=' c 'in' k" := (bind c (λ x, k))
  (at level 10, x name, c at level 100, k at level 200, only parsing).
Notation "'run' c 'then' k" := (bind c (λ _, k))
  (at level 10, c at level 100, k at level 200, only parsing).

Definition panic {A} : M A := λ m, Panicked m.

Definition log (e : event) : M unit :=
  λ m, Returned () {| arrays := arrays m; calls := calls m ++ [e] |}.

(** The contents a slice denotes; [nil] (and a dangling reference) has none. *)
Definition contents (m : mem) (s : slice) : list bool :=
  match s with
  | Some l => default [] (arrays m !! l)
  | None => []
  end.

(** [len(s)] *)
Definition len (s : slice) : M nat := λ m, Returned (length (contents m s)) m.

(** [make([]bool, n)]: a new backing array of [n] [false]. *)
Definition make (n : nat) : M slice :=
  λ m, Returned (Some (length (arrays m)))
                {| arrays := arrays m ++ [replicate n false]; calls := calls m |}.

(** [copy(dst, src)]: the first [min(len(dst), len(src))] elements. *)
Definition copy (dst src : slice) : M unit :=
  λ m, match dst with
       | Some d =>
         let old := contents m dst in
         let new := contents m src in
         Returned () {| arrays := <[d := take (length old) new ++ drop (length new) old]> (arrays m);
                        calls := calls m |}
       | None => Returned () m
       end.

(** [s[i] = b]: in place, a panic when [i] is not below [len(s)]. *)
Definition store (s : slice) (i : N) (b : bool) : M unit :=
  λ m, match s with
       | Some l =>
         match arrays m !! l with
         | Some a =>
           if decide (N.to_nat i < length a)
           then Returned () {| arrays := <[l := <[N.to_nat i := b]> a]> (arrays m); calls := calls m |}
           else Panicked m
         | None => Panicked m
         end
       | None => Panicked m
       end.

(** [for _, x := range xs { body(x) }] *)
Fixpoint forM_ {A} (xs : list A) (body : A → M unit) : M unit :=
  match xs with
  | [] => ret ()
  | x :: rest => run body x then forM_ rest body
  end.

(** ** txlookup.go *)

Record txData := {
  tx : option MsgTx;
  hash : ShaHash;
  blockHeight : Z;
  spent : slice;
  err : option error
}.

(** [originTx.spent[originIndex] = b] for the origin of one input, when the
    origin is in the map (the inner loop body of both mutators). *)
Definition setOriginSpent (b : bool) (txStore : gmap ShaHash txData) (txIn : TxIn) : M unit :=
  let originHash := op_Hash (PreviousOutpoint txIn) in
  let originIndex := op_Index (PreviousOutpoint txIn) in
  match txStore !! originHash with
  | Some originTx => store (spent originTx) originIndex b
  | None => ret ()
  end.

(** The loop of [connectTransactions] from transaction [i] on; [txs] is the
    part of [block.MsgBlock().Transactions] still to visit. *)
Fixpoint connectLoop (block : Block) (i : nat) (txs : list MsgTx)
    (txStore : gmap ShaHash txData) : M (gmap ShaHash txData * option error) :=
  match txs with
  | [] => ret (txStore, None)
  | tx_ :: rest =>
    match TxSha block i with
    | inr e => ret (txStore, Some e)
    | inl txHash =>
      let* txStore :=
        match txStore !! txHash with
        | Some txD =>
          let* s := make (length (tx_TxOut tx_)) in
          ret (<[txHash := {| tx := Some tx_; hash := hash txD;
                              blockHeight := Height block;
                              spent := s; err := None |}]> txStore)
        | None => ret txStore
        end in
      run forM_ (tx_TxIn tx_) (setOriginSpent true txStore) then
      connectLoop block (S i) rest txStore
    end
  end.

Definition connectTransactions (txStore : gmap ShaHash txData) (block : Block)
  : M (gmap ShaHash txData * option error) :=
  connectLoop block 0 (Transactions block) txStore.

Fixpoint disconnectLoop (block : Block) (i : nat) (txs : list MsgTx)
    (txStore : gmap ShaHash txData) : M (gmap ShaHash txData * option error) :=
  match txs with
  | [] => ret (txStore, None)
  | tx_ :: rest =>
    match TxSha block i with
    | inr e => ret (txStore, Some e)
    | inl txHash =>
      let txStore := delete txHash txStore in
      run forM_ (tx_TxIn tx_) (setOriginSpent false txStore) then
      disconnectLoop block (S i) rest txStore
    end
  end.

Definition disconnectTransactions (txStore : gmap ShaHash txData) (block : Block)
  : M (gmap ShaHash txData * option error) :=
  disconnectLoop block 0 (Transactions block) txStore.

(** [btcdb.TxListReply] *)
Record TxListReply := {
  reply_Sha : ShaHash;
  reply_Tx : option MsgTx;
  reply_Height : Z;
  reply_TxSpent : slice;
  reply_Err : option error
}.

(** The chain: its own fields ([bestChain], [blockCache]) and the methods
    txlookup.go calls on it and on its database. *)
Record BlockChain := {
  getPrevNodeFromNode : blockNode → option blockNode + error;
  FetchTxByShaList : list ShaHash → list TxListReply;
  FetchBlockBySha : ShaHash → Block + error;
  bestChain : option blockNode;
  getReorganizeNodes : option blockNode → list blockNode * list blockNode;
  blockCache : gmap ShaHash Block
}.

(** [&txData{hash: hash, err: btcdb.TxShaMissing}] *)
Definition missingTxData (hash_ : ShaHash) : txData :=
  {| tx := None; hash := hash_; blockHeight := 0%Z; spent := None; err := Some TxShaMissing |}.

(** [for _, hash := range txList { txStore[*hash] = &txData{...} }] on the
    empty map. *)
Definition missingStore (txList : list ShaHash) : gmap ShaHash txData :=
  foldl (λ txStore hash_, <[hash_ := missingTxData hash_]> txStore) ∅ txList.

(** The body of the loop over [txReplyList]. *)
Definition applyReply (txStore : gmap ShaHash txData) (txReply : TxListReply)
  : M (gmap ShaHash txData) :=
  match txStore !! reply_Sha txReply with
  | None => ret txStore
  | Some txD =>
    match reply_Err txReply with
    | Some e =>
      ret (<[reply_Sha txReply := {| tx := tx txD; hash := hash txD;
                                     blockHeight := blockHeight txD;
                                     spent := spent txD; err := Some e |}]> txStore)
    | None =>
      let* n := len (reply_TxSpent txReply) in
      let* s := make n in
      run copy s (reply_TxSpent txReply) then
      ret (<[reply_Sha txReply := {| tx := reply_Tx txReply; hash := hash txD;
                                     blockHeight := reply_Height txReply;
                                     spent := s; err := None |}]> txStore)
    end
  end.

Fixpoint applyReplies (txReplyList : list TxListReply) (txStore : gmap ShaHash txData)
  : M (gmap ShaHash txData) :=
  match txReplyList with
  | [] => ret txStore
  | txReply :: rest =>
    let* txStore := applyReply txStore txReply in
    applyReplies rest txStore
  end.

(** [b.bestChain == nil || (prevNode != nil && prevNode.hash.IsEqual(b.bestChain.hash))] *)
Definition extendsBestChain (b : BlockChain) (prevNode : option blockNode) : bool :=
  match bestChain b with
  | None => true
  | Some best =>
    match prevNode with
    | Some prev => bool_decide (node_hash prev = node_hash best)
    | None => false
    end
  end.

(** The loop over [detachNodes]; the error a mutator returns is dropped, as
    in the source. *)
Fixpoint detachLoop (b : BlockChain) (nodes : list blockNode)
    (txStore : gmap ShaHash txData) : M (gmap ShaHash txData + error) :=
  match nodes with
  | [] => ret (inl txStore)
  | n :: rest =>
    run log (CallFetchBlockBySha (node_hash n)) then
    match FetchBlockBySha b (node_hash n) with
    | inr e => ret (inr e)
    | inl block =>
      let* r := disconnectTransactions txStore block in
      detachLoop b rest (fst r)
    end
  end.

Definition sideChainCacheMiss (sha : ShaHash) : error :=
  Errorf "unable to find block %v in side chain cache for transaction search" sha.

(** The loop over [attachNodes]. *)
Fixpoint attachLoop (b : BlockChain) (nodes : list blockNode)
    (txStore : gmap ShaHash txData) : M (gmap ShaHash txData + error) :=
  match nodes with
  | [] => ret (inl txStore)
  | n :: rest =>
    run log (LookupBlockCache (node_hash n)) then
    match blockCache b !! node_hash n with
    | None => ret (inr (sideChainCacheMiss (node_hash n)))
    | Some block =>
      let* r := connectTransactions txStore block in
      attachLoop b rest (fst r)
    end
  end.

Definition fetchTxList (b : BlockChain) (node : blockNode) (txList : list ShaHash)
  : M (option (gmap ShaHash txData) * option error) :=
  run log (CallGetPrevNodeFromNode node) then
  match getPrevNodeFromNode b node with
  | inr e => ret (None, Some e)
  | inl prevNode =>
    let txStore := missingStore txList in
    run log (CallFetchTxByShaList txList) then
    let* txStore := applyReplies (FetchTxByShaList b txList) txStore in
    if extendsBestChain b prevNode then ret (Some txStore, None) else
    run log (CallGetReorganizeNodes prevNode) then
    let '(detachNodes, attachNodes) := getReorganizeNodes b prevNode in
    let* r := detachLoop b detachNodes txStore in
    match r with
    | inr e => ret (None, Some e)
    | inl txStore =>
      if decide (length attachNodes = 0) then ret (Some txStore, None) else
      let* r := attachLoop b attachNodes txStore in
      match r with
      | inr e => ret (None, Some e)
      | inl txStore => ret (Some txStore, None)
      end
    end
  end.

(** The first loop of [fetchInputTransactions]: [txInFlight[*txHash] = tx].
    The error of [TxSha] is dropped by the source; a nil hash would then be
    dereferenced. *)
Fixpoint inFlightLoop (block : Block) (i : nat) (txs : list MsgTx)
    (txInFlight : gmap ShaHash MsgTx) : M (gmap ShaHash MsgTx) :=
  match txs with
  | [] => ret txInFlight
  | tx_ :: rest =>
    match TxSha block i with
    | inr _ => panic
    | inl txHash => inFlightLoop block (S i) rest (<[txHash := tx_]> txInFlight)
    end
  end.

(** The body of the loop over the inputs of one transaction: the state is the
    needed list and the store. *)
Definition collectInput (node : blockNode) (txInFlight : gmap ShaHash MsgTx)
    (st : list ShaHash * gmap ShaHash txData) (txIn : TxIn)
  : M (list ShaHash * gmap ShaHash txData) :=
  let '(txNeededList, txStore) := st in
  let originHash := op_Hash (PreviousOutpoint txIn) in
  match txInFlight !! originHash with
  | Some tx_ =>
    let* s := make (length (tx_TxOut tx_)) in
    ret (txNeededList,
         <[originHash := {| tx := Some tx_; hash := originHash;
                            blockHeight := node_height node;
                            spent := s; err := None |}]> txStore)
  | None =>
    ret (txNeededList ++ [originHash], <[originHash := missingTxData originHash]> txStore)
  end.

Fixpoint foldM {A S} (body : S → A → M S) (xs : list A) (st : S) : M S :=
  match xs with
  | [] => ret st
  | x :: rest => let* st := body st x in foldM body rest st
  end.

Definition collectInputs (node : blockNode) (txInFlight : gmap ShaHash MsgTx)
    (txs : list MsgTx) (st : list ShaHash * gmap ShaHash txData)
  : M (list ShaHash * gmap ShaHash txData) :=
  foldM (λ st tx_, foldM (collectInput node txInFlight) (tx_TxIn tx_) st) txs st.

(** [for _, txD := range txNeededStore { txStore[*txD.hash] = txD }]; Go
    visits the entries in no fixed order, and a nil map has none. *)
Definition mergeStores (txNeededStore txStore : gmap ShaHash txData) : gmap ShaHash txData :=
  map_fold (λ _ txD acc, <[hash txD := txD]> acc) txStore txNeededStore.

Definition fetchInputTransactions (b : BlockChain) (node : blockNode) (block : Block)
  : M (option (gmap ShaHash txData) * option error) :=
  let* txInFlight := inFlightLoop block 0 (Transactions block) ∅ in
  match Transactions block with
  | [] => panic
  | _ :: nonCoinbase =>
    let* st := collectInputs node txInFlight nonCoinbase ([], ∅) in
    let* r := fetchTxList b node (fst st) in
    match r with
    | (_, Some e) => ret (None, Some e)
    | (txNeededStore, None) =>
      ret (Some (mergeStores (default ∅ txNeededStore) (snd st)), None)
    end
  end.

(** ** Observed views

    What a caller reads in a view: the entry of a hash with the contents its
    [spent] slice denotes in the memory.  The mutators are followed on
    observed views by pure functions ([connectView], [disconnectView]); the
    simulation lemmas below prove that the loops of the source compute them. *)

Record txState := {
  s_tx : option MsgTx;
  s_hash : ShaHash;
  s_blockHeight : Z;
  s_spent : list bool;
  s_err : option error
}.

Definition observe (m : mem) (txD : txData) : txState :=
  {| s_tx := tx txD; s_hash := hash txD; s_blockHeight := blockHeight txD;
     s_spent := contents m (spent txD); s_err := err txD |}.

Definition view (m : mem) (txStore : gmap ShaHash txData) : gmap ShaHash txState :=
  observe m <$> txStore.

(** A store owns its bitmaps: every non-nil [spent] of an entry is an
    allocated array, and no two entries share one. *)
Definition wf (m : mem) (txStore : gmap ShaHash txData) : Prop :=
  ∀ h txD l, txStore !! h = Some txD → spent txD = Some l →
    l < length (arrays m) ∧
    ∀ h' txD', txStore !! h' = Some txD' → spent txD' = Some l → h' = h.

Definition owns (txStore : gmap ShaHash txData) (l : loc) : Prop :=
  ∃ h txD, txStore !! h = Some txD ∧ spent txD = Some l.

(** From [(m, txStore)] to [(m', txStore')]: arrays are only added, an array
    the store did not own is not written, the new store owns no old array it
    did not own before, and no collaborator is called. *)
Record evolves (m : mem) (txStore : gmap ShaHash txData)
    (m' : mem) (txStore' : gmap ShaHash txData) : Prop := {
  ev_length : length (arrays m) ≤ length (arrays m');
  ev_frame : ∀ l, l < length (arrays m) → ¬ owns txStore l → arrays m' !! l = arrays m !! l;
  ev_owned : ∀ l, l < length (arrays m) → owns txStore' l → owns txStore l;
  ev_calls : calls m' = calls m
}.

Definition withSpent (bits : list bool) (d : txState) : txState :=
  {| s_tx := s_tx d; s_hash := s_hash d; s_blockHeight := s_blockHeight d;
     s_spent := bits; s_err := s_err d |}.

(** One input: the flag of its origin is set to [b]; [None] is the panic. *)
Definition setSpentView (b : bool) (w : gmap ShaHash txState) (txIn : TxIn)
  : option (gmap ShaHash txState) :=
  let originHash := op_Hash (PreviousOutpoint txIn) in
  let originIndex := N.to_nat (op_Index (PreviousOutpoint txIn)) in
  match w !! originHash with
  | Some d =>
    if decide (originIndex < length (s_spent d))
    then Some (<[originHash := withSpent (<[originIndex := b]> (s_spent d)) d]> w)
    else None
  | None => Some w
  end.

Fixpoint setSpentsView (b : bool) (txIns : list TxIn) (w : gmap ShaHash txState)
  : option (gmap ShaHash txState) :=
  match txIns with
  | [] => Some w
  | txIn :: rest => setSpentView b w txIn ≫= setSpentsView b rest
  end.

(** [txD.tx = tx; txD.blockHeight = ...; txD.spent = make(...); txD.err = nil] *)
Definition recordTxView (height_ : Z) (tx_ : MsgTx) (w : gmap ShaHash txState)
  : gmap ShaHash txState :=
  match w !! tx_Sha tx_ with
  | Some d => <[tx_Sha tx_ := {| s_tx := Some tx_; s_hash := s_hash d;
                                 s_blockHeight := height_;
                                 s_spent := replicate (length (tx_TxOut tx_)) false;
                                 s_err := None |}]> w
  | None => w
  end.

Fixpoint connectView (height_ : Z) (txs : list MsgTx) (w : gmap ShaHash txState)
  : option (gmap ShaHash txState) :=
  match txs with
  | [] => Some w
  | tx_ :: rest =>
    setSpentsView true (tx_TxIn tx_) (recordTxView height_ tx_ w) ≫= connectView height_ rest
  end.

Fixpoint disconnectView (txs : list MsgTx) (w : gmap ShaHash txState)
  : option (gmap ShaHash txState) :=
  match txs with
  | [] => Some w
  | tx_ :: rest =>
    setSpentsView false (tx_TxIn tx_) (delete (tx_Sha tx_) w) ≫= disconnectView rest
  end.

(** ** What a block creates and spends *)

(** The output indices of [h] that the inputs of [txs] reference, in the
    order the loops visit them. *)
Definition spendsOfInputs (h : ShaHash) (txIns : list TxIn) : list nat :=
  omap (λ txIn, if decide (op_Hash (PreviousOutpoint txIn) = h)
                then Some (N.to_nat (op_Index (PreviousOutpoint txIn)))
                else None) txIns.

Definition spendsOf (h : ShaHash) (txs : list MsgTx) : list nat :=
  txs ≫= (λ tx_, spendsOfInputs h (tx_TxIn tx_)).

(** [bits] with the flag [b] written at every index of [ks]. *)
Definition setAll (b : bool) (ks : list nat) (bits : list bool) : list bool :=
  foldl (λ bs k, <[k := b]> bs) bits ks.

(** The last transaction of [txs] whose hash is [h]. *)
Fixpoint lastCreated (h : ShaHash) (txs : list MsgTx) : option MsgTx :=
  match txs with
  | [] => None
  | tx_ :: rest =>
    match lastCreated h rest with
    | Some t => Some t
    | None => if decide (tx_Sha tx_ = h) then Some tx_ else None
    end
  end.

(** The transactions of [txs] from the last one whose hash is [h] on, itself
    included; all of [txs] when there is none. *)
Fixpoint sinceLastCreated (h : ShaHash) (txs : list MsgTx) : list MsgTx :=
  match txs with
  | [] => []
  | tx_ :: rest =>
    match lastCreated h rest with
    | Some _ => sinceLastCreated h rest
    | None => tx_ :: rest
    end
  end.

(** The entry the loop of [connectTransactions] leaves for a key [h] whose
    entry was [d]. *)
Definition connectedEntry (height_ : Z) (txs : list MsgTx) (h : ShaHash) (d : txState)
  : txState :=
  match lastCreated h txs with
  | Some t =>
    {| s_tx := Some t; s_hash := s_hash d; s_blockHeight := height_;
       s_spent := setAll true (spendsOf h (sinceLastCreated h txs))
                         (replicate (length (tx_TxOut t)) false);
       s_err := None |}
  | None => withSpent (setAll true (spendsOf h txs) (s_spent d)) d
  end.

(** The entry the loop of [disconnectTransactions] leaves for a key that is
    not deleted. *)
Definition disconnectedEntry (txs : list MsgTx) (h : ShaHash) (d : txState) : txState :=
  withSpent (setAll false (spendsOf h txs) (s_spent d)) d.

(** ** When the indexed stores of the mutators are in range *)

(** Every input whose origin has a bitmap of length [n] (by [lenOf]; [None]:
    the origin is not a key) references an index below [n]. *)
Definition inputsInRange (lenOf : ShaHash → option nat) (txIns : list TxIn) : Prop :=
  ∀ txIn n, txIn ∈ txIns → lenOf (op_Hash (PreviousOutpoint txIn)) = Some n →
    N.to_nat (op_Index (PreviousOutpoint txIn)) < n.

(** The length of the bitmap of the entry of [h]; a nil bitmap has length 0. *)
Definition bitmapLength (w : gmap ShaHash txState) (h : ShaHash) : option nat :=
  length ∘ s_spent <$> w !! h.

(** The precondition as the specification words it: on the view before the
    call, every input of the block whose origin is a key references an index
    below the length of the origin's bitmap. *)
Definition originsInRange (w : gmap ShaHash txState) (txs : list MsgTx) : Prop :=
  ∀ tx_, tx_ ∈ txs → inputsInRange (bitmapLength w) (tx_TxIn tx_).

(** The length the bitmap of [h] has in [connectTransactions] once the
    transactions [visited] (the one being processed included) have been
    recorded: the output count of the last of them with hash [h], the length
    in the view before the call when there is none. *)
Definition lengthAtConnect (w : gmap ShaHash txState) (visited : list MsgTx)
    (h : ShaHash) : option nat :=
  (λ n, match lastCreated h visited with
        | Some t => length (tx_TxOut t)
        | None => n
        end) <$> bitmapLength w h.

(** The same for [disconnectTransactions]: the entries of the transactions
    visited are deleted, the bitmaps of the others keep their length. *)
Definition lengthAtDisconnect (w : gmap ShaHash txState) (visited : list MsgTx)
    (h : ShaHash) : option nat :=
  if decide (h ∈ tx_Sha <$> visited) then None else bitmapLength w h.

Definition connectInRange (w : gmap ShaHash txState) (txs : list MsgTx) : Prop :=
  ∀ i tx_, txs !! i = Some tx_ →
    inputsInRange (lengthAtConnect w (take (S i) txs)) (tx_TxIn tx_).

Definition disconnectInRange (w : gmap ShaHash txState) (txs : list MsgTx) : Prop :=
  ∀ i tx_, txs !! i = Some tx_ →
    inputsInRange (lengthAtDisconnect w (take (S i) txs)) (tx_TxIn tx_).

(** ** The postconditions of the mutators as the specification words them *)

(** The hashes the inputs of [txs] name as origins. *)
Definition originsOf (txs : list MsgTx) : list ShaHash :=
  txs ≫= (λ tx_, (λ txIn, op_Hash (PreviousOutpoint txIn)) <$> tx_TxIn tx_).

(** [connectTransactions]: every transaction of the block that is a key has
    its body, the height of the block and an all-false bitmap of the length
    of its outputs; every input whose origin is a key has its index marked. *)
Definition claimedConnectPost (height_ : Z) (txs : list MsgTx)
    (w w' : gmap ShaHash txState) : Prop :=
  (∀ tx_, tx_ ∈ txs → tx_Sha tx_ ∈ dom w →
     ∃ d, w' !! tx_Sha tx_ = Some d ∧ s_tx d = Some tx_ ∧ s_blockHeight d = height_ ∧
          s_spent d = replicate (length (tx_TxOut tx_)) false) ∧
  (∀ tx_ txIn, tx_ ∈ txs → txIn ∈ tx_TxIn tx_ →
     op_Hash (PreviousOutpoint txIn) ∈ dom w →
     ∃ d, w' !! op_Hash (PreviousOutpoint txIn) = Some d ∧
          s_spent d !! N.to_nat (op_Index (PreviousOutpoint txIn)) = Some true).

(** The two kinds of update as two passes, following the specification's
    words (4.5, "two-pass-independent"): all entry updates, and all spends. *)
Definition recordAllView (height_ : Z) (txs : list MsgTx) (w : gmap ShaHash txState)
  : gmap ShaHash txState :=
  foldl (λ w tx_, recordTxView height_ tx_ w) w txs.

Definition spendAllView (txs : list MsgTx) (w : gmap ShaHash txState)
  : option (gmap ShaHash txState) :=
  setSpentsView true (txs ≫= tx_TxIn) w.

Definition connectRecordFirst (height_ : Z) (txs : list MsgTx) (w : gmap ShaHash txState)
  : option (gmap ShaHash txState) :=
  spendAllView txs (recordAllView height_ txs w).

Definition connectSpendFirst (height_ : Z) (txs : list MsgTx) (w : gmap ShaHash txState)
  : option (gmap ShaHash txState) :=
  recordAllView height_ txs <$> spendAllView txs w.

(** No input of the block references a transaction of the block that is a
    key of the view. *)
Definition spendsNoOwn (w : gmap ShaHash txState) (txs : list MsgTx) : Prop :=
  ∀ tx_, tx_ ∈ txs → tx_Sha tx_ ∈ dom w → tx_Sha tx_ ∉ originsOf txs.

(** The hash determines the transaction within the block. *)
Definition hashesDetermine (txs : list MsgTx) : Prop :=
  ∀ t1 t2, t1 ∈ txs → t2 ∈ txs → tx_Sha t1 = tx_Sha t2 → t1 = t2.

(** The view before the connect, the entries of the block's own transactions
    absent. *)
Definition withoutBlock (txs : list MsgTx) (w : gmap ShaHash txState)
  : gmap ShaHash txState :=
  filter (λ kv, kv.1 ∉ tx_Sha <$> txs) w.

(** Every output the block spends was unspent in the view. *)
Definition spendsUnspent (w : gmap ShaHash txState) (txs : list MsgTx) : Prop :=
  ∀ h d k, w !! h = Some d → k ∈ spendsOf h txs → s_spent d !! k ≠ Some true.

(** ** Concrete blocks and stores *)

Definition outpoint (h : ShaHash) (i : N) : TxIn :=
  {| PreviousOutpoint := {| op_Hash := h; op_Index := i |} |}.

(** [exT1] has two outputs; [exT2], later in the same block, spends the
    first of them. *)
Definition exT1 : MsgTx :=
  {| tx_Sha := 11%N; tx_TxIn := []; tx_TxOut := [ {| Value := 50%Z |}; {| Value := 7%Z |} ] |}.

Definition exT2 : MsgTx :=
  {| tx_Sha := 12%N; tx_TxIn := [outpoint 11%N 0%N]; tx_TxOut := [ {| Value := 50%Z |} ] |}.

Definition exBlock : Block := {| Transactions := [exT1; exT2]; Height := 5%Z |}.

Definition exMem : mem := {| arrays := []; calls := [] |}.

(** The store of a request for [exT1] that the main chain does not know. *)
Definition exStore : gmap ShaHash txData := {[ 11%N := missingTxData 11%N ]}.

(** [exT1] known with both outputs unspent, as observed. *)
Definition exViewKnown : gmap ShaHash txState :=
  {[ 11%N := {| s_tx := Some exT1; s_hash := 11%N; s_blockHeight := 2%Z;
                s_spent := [false; false]; s_err := None |} ]}.

(** A transaction with two outputs, known at height 3, whose first output is
    spent already; [exT4] spends that output again. *)
Definition exT3 : MsgTx :=
  {| tx_Sha := 20%N; tx_TxIn := []; tx_TxOut := [ {| Value := 1%Z |}; {| Value := 2%Z |} ] |}.

Definition exT4 : MsgTx :=
  {| tx_Sha := 21%N; tx_TxIn := [outpoint 20%N 0%N]; tx_TxOut := [ {| Value := 1%Z |} ] |}.

Definition exBlockSpend : Block := {| Transactions := [exT4]; Height := 6%Z |}.

Definition exMemSpent : mem := {| arrays := [[true; false]]; calls := [] |}.

Definition exMemUnspent : mem := {| arrays := [[false; false]]; calls := [] |}.

Definition exStoreKnown : gmap ShaHash txData :=
  {[ 20%N := {| tx := Some exT3; hash := 20%N; blockHeight := 3%Z;
                spent := Some 0; err := None |} ]}.

(** ** Outcomes *)

(** The call returns (it does not panic). *)
Definition returns {A} (o : outcome A) : Prop := ∃ a m', o = Returned a m'.

(** [P] holds of the result and the memory of a call that returns. *)
Definition whenReturned {A} (o : outcome A) (P : A → mem → Prop) : Prop :=
  match o with
  | Returned a m' => P a m'
  | Panicked _ => True
  end.

(** ** The resolver on observed views

    Following the specification's words (4.3, steps 1 to 8): what
    [fetchTxList] is to compute, stated on observed views.  [None] stands for
    a panic of a mutator, [Failed] for a returned error (no view),
    [Resolved] for a returned view. *)

Definition missingState (h : ShaHash) : txState :=
  {| s_tx := None; s_hash := h; s_blockHeight := 0%Z; s_spent := [];
     s_err := Some TxShaMissing |}.

(** Step 1: every requested hash is "not found". *)
Definition missingView (txList : list ShaHash) : gmap ShaHash txState :=
  foldl (λ w h, <[h := missingState h]> w) ∅ txList.

(** Step 2, one reply: a hit copies the body, the height and the contents of
    the reply's bitmap (read in the memory [m] of the call); an error reply
    records the error. *)
Definition applyReplyView (m : mem) (w : gmap ShaHash txState) (txReply : TxListReply)
  : gmap ShaHash txState :=
  match w !! reply_Sha txReply with
  | None => w
  | Some d =>
    match reply_Err txReply with
    | Some e =>
      <[reply_Sha txReply := {| s_tx := s_tx d; s_hash := s_hash d;
                                s_blockHeight := s_blockHeight d;
                                s_spent := s_spent d; s_err := Some e |}]> w
    | None =>
      <[reply_Sha txReply := {| s_tx := reply_Tx txReply; s_hash := s_hash d;
                                s_blockHeight := reply_Height txReply;
                                s_spent := contents m (reply_TxSpent txReply);
                                s_err := None |}]> w
    end
  end.

Definition baselineView (m : mem) (txReplyList : list TxListReply) (txList : list ShaHash)
  : gmap ShaHash txState :=
  foldl (applyReplyView m) (missingView txList) txReplyList.

Inductive resolution :=
| Resolved (w : gmap ShaHash txState)
| Failed (e : error).

(** Step 5: undo the blocks of the detach list, fetched from storage. *)
Fixpoint undoBlocks (b : BlockChain) (nodes : list blockNode) (w : gmap ShaHash txState)
  : option resolution :=
  match nodes with
  | [] => Some (Resolved w)
  | n :: rest =>
    match FetchBlockBySha b (node_hash n) with
    | inr e => Some (Failed e)
    | inl block => disconnectView (Transactions block) w ≫= undoBlocks b rest
    end
  end.

(** Step 7: redo the blocks of the attach list, found in the side-block cache. *)
Fixpoint redoBlocks (b : BlockChain) (nodes : list blockNode) (w : gmap ShaHash txState)
  : option resolution :=
  match nodes with
  | [] => Some (Resolved w)
  | n :: rest =>
    match blockCache b !! node_hash n with
    | None => Some (Failed (sideChainCacheMiss (node_hash n)))
    | Some block =>
      connectView (Height block) (Transactions block) w ≫= redoBlocks b rest
    end
  end.

Definition resolveView (b : BlockChain) (m : mem) (node : blockNode)
    (txList : list ShaHash) : option resolution :=
  match getPrevNodeFromNode b node with
  | inr e => Some (Failed e)
  | inl prevNode =>
    let w := baselineView m (FetchTxByShaList b txList) txList in
    if extendsBestChain b prevNode then Some (Resolved w) else
    let '(detachNodes, attachNodes) := getReorganizeNodes b prevNode in
    match undoBlocks b detachNodes w with
    | Some (Resolved w) =>
      match attachNodes with
      | [] => Some (Resolved w)
      | _ :: _ => redoBlocks b attachNodes w
      end
    | r => r
    end
  end.

(** The slices of the database's replies are allocated: the memory holds
    their backing arrays. *)
Definition repliesAllocated (m : mem) (txReplyList : list TxListReply) : Prop :=
  ∀ txReply l, txReply ∈ txReplyList → reply_TxSpent txReply = Some l →
    l < length (arrays m).

(** From [(m, txStore)] to [(m', txStore')], calls of collaborators allowed. *)
Record grows (m : mem) (txStore : gmap ShaHash txData)
    (m' : mem) (txStore' : gmap ShaHash txData) : Prop := {
  gr_length : length (arrays m) ≤ length (arrays m');
  gr_frame : ∀ l, l < length (arrays m) → ¬ owns txStore l → arrays m' !! l = arrays m !! l;
  gr_owned : ∀ l, l < length (arrays m) → owns txStore' l → owns txStore l
}.

(** The memory [m] extends [m0], with the arrays of [m0] as they were, and
    the store owns no array of [m0]. *)
Definition extends (m0 m : mem) (txStore : gmap ShaHash txData) : Prop :=
  length (arrays m0) ≤ length (arrays m) ∧
  (∀ l, l < length (arrays m0) → arrays m !! l = arrays m0 !! l) ∧
  (∀ l, owns txStore l → length (arrays m0) ≤ l).

(** The lists of hashes the database was asked for, and the number of calls
    of the fork resolver, in a call log. *)
Definition storageLookups (es : list event) : list (list ShaHash) :=
  omap (λ e, match e with CallFetchTxByShaList l => Some l | _ => None end) es.

Definition forkResolverCalls (es : list event) : nat :=
  length (omap (λ e, match e with CallGetReorganizeNodes n => Some n | _ => None end) es).

(** ** A concrete chain

    Main chain: 101, then the tip 102, whose block holds [exT1].  Side chain:
    201 on top of 101, then the node 202.  The node 103 extends the tip. *)

Definition exOld : blockNode := {| node_hash := 101%N; node_height := 1%Z |}.
Definition exTip : blockNode := {| node_hash := 102%N; node_height := 2%Z |}.
Definition exSide : blockNode := {| node_hash := 201%N; node_height := 2%Z |}.
Definition exSideNext : blockNode := {| node_hash := 202%N; node_height := 3%Z |}.
Definition exNext : blockNode := {| node_hash := 103%N; node_height := 3%Z |}.

Definition exTipBlock : Block := {| Transactions := [exT1]; Height := 2%Z |}.

(** The database knows [exT1] (both outputs unspent, the bitmap in array 0 of
    [exMemUnspent]) and nothing else. *)
Definition exReply (h : ShaHash) : TxListReply :=
  if decide (h = 11%N)
  then {| reply_Sha := h; reply_Tx := Some exT1; reply_Height := 2%Z;
          reply_TxSpent := Some 0; reply_Err := None |}
  else {| reply_Sha := h; reply_Tx := None; reply_Height := 0%Z;
          reply_TxSpent := None; reply_Err := Some TxShaMissing |}.

Definition exChain (best : option blockNode) (cache : gmap ShaHash Block) : BlockChain :=
  {| getPrevNodeFromNode := λ node,
       if decide (node_hash node = 201%N) then inl (Some exOld)
       else if decide (node_hash node = 202%N) then inl (Some exSide)
       else if decide (node_hash node = 103%N) then inl (Some exTip)
       else inr (StorageError 1%N);
     FetchTxByShaList := λ txList, exReply <$> txList;
     FetchBlockBySha := λ sha,
       if decide (sha = 102%N) then inl exTipBlock else inr (StorageError 2%N);
     bestChain := best;
     getReorganizeNodes := λ prevNode,
       match prevNode with
       | Some prev =>
         if decide (node_hash prev = 201%N) then ([exTip], [exSide]) else ([exTip], [])
       | None => ([], [])
       end;
     blockCache := cache |}.

(** A computation that calls no collaborator, and one that does not ask the
    database for transactions. *)
Definition quiet {A} (c : M A) : Prop :=
  ∀ m a m', c m = Returned a m' → calls m' = calls m.

Definition keepsLookups {A} (c : M A) : Prop :=
  ∀ m a m', c m = Returned a m' → storageLookups (calls m') = storageLookups (calls m).

(** ** The input resolver *)

(** The entry of an in-flight transaction [t] with hash [h], as observed. *)
Definition inFlightState (node : blockNode) (h : ShaHash) (t : MsgTx) : txState :=
  {| s_tx := Some t; s_hash := h; s_blockHeight := node_height node;
     s_spent := replicate (length (tx_TxOut t)) false; s_err := None |}.

(** The state of the loop over the inputs: the needed hashes are not in
    flight; the entry of a hash in flight is filled from the transaction in
    flight; the entry of any other hash is the missing placeholder, and the
    hash is needed. *)
Definition collected (node : blockNode) (txInFlight : gmap ShaHash MsgTx)
    (st : list ShaHash * gmap ShaHash txData) (m : mem) : Prop :=
  wf m st.2 ∧
  (∀ h, h ∈ st.1 → txInFlight !! h = None) ∧
  (∀ h d, st.2 !! h = Some d →
     match txInFlight !! h with
     | Some t => observe m d = inFlightState node h t
     | None => d = missingTxData h ∧ h ∈ st.1
     end).

(** Every entry carries the hash it is filed under, and every key was
    requested. *)
Definition keyedView (txList : list ShaHash) (w : gmap ShaHash txState) : Prop :=
  ∀ h d, w !! h = Some d → s_hash d = h ∧ h ∈ txList.

(** The error result of a loop that returned is [nil]. *)
Definition noError {S} (o : outcome (S * option error)) : Prop :=
  match o with
  | Returned (_, e) _ => e = None
  | Panicked _ => True
  end.

(** A loop of the source follows a pure function on observed views: it
    returns where the function has a value, with that value observed, the
    store still owning its bitmaps; it panics where the function has none. *)
Definition follows {A} (m : mem) (txStore : gmap ShaHash txData)
    (o : outcome A) (store_of : A → gmap ShaHash txData)
    (r : option (gmap ShaHash txState)) : Prop :=
  match o with
  | Returned a m' =>
    r = Some (view m' (store_of a)) ∧ wf m' (store_of a) ∧ evolves m txStore m' (store_of a)
  | Panicked m' => r = None
  end.
Arguments follows : simpl never.

(** ** Further notions: detached hashes, the order of the calls, the needed list *)

(** The hashes of the transactions of the blocks the database holds for the
    nodes of a detach list. *)
Definition detachedHashes (b : BlockChain) (nodes : list blockNode) : list ShaHash :=
  nodes ≫= (λ n, match FetchBlockBySha b (node_hash n) with
                 | inl block => tx_Sha <$> Transactions block
                 | inr _ => []
                 end).

(** The calls [fetchTxList] makes when it fetches the blocks of the first [k]
    nodes of the detach list and looks up the first [j] nodes of the attach
    list in the cache. *)
Definition resolverLog (b : BlockChain) (node : blockNode) (txList : list ShaHash)
    (k j : nat) : list event :=
  CallGetPrevNodeFromNode node ::
  match getPrevNodeFromNode b node with
  | inr _ => []
  | inl prevNode =>
    CallFetchTxByShaList txList ::
    if extendsBestChain b prevNode then [] else
    CallGetReorganizeNodes prevNode ::
    ((λ n, CallFetchBlockBySha (node_hash n)) <$> take k (getReorganizeNodes b prevNode).1) ++
    ((λ n, LookupBlockCache (node_hash n)) <$> take j (getReorganizeNodes b prevNode).2)
  end.

(** The origins of the inputs of [txs] that are not hashes of transactions of
    [block], in the order of the inputs, repetitions kept. *)
Definition neededOf (block : Block) (txs : list MsgTx) : list ShaHash :=
  filter (λ h, h ∉ tx_Sha <$> Transactions block) (originsOf txs).

(** A chain like [exChain] whose database fails to fetch any block. *)
Definition exChainNoBlocks : BlockChain :=
  {| getPrevNodeFromNode := getPrevNodeFromNode (exChain (Some exTip) ∅);
     FetchTxByShaList := FetchTxByShaList (exChain (Some exTip) ∅);
     FetchBlockBySha := λ _, inr (StorageError 3%N);
     bestChain := Some exTip;
     getReorganizeNodes := getReorganizeNodes (exChain (Some exTip) ∅);
     blockCache := ∅ |}.

(** A block whose second transaction needs transaction 20 from the chain and
    spends an output of the first. *)
Definition exT5 : MsgTx :=
  {| tx_Sha := 13%N; tx_TxIn := [outpoint 20%N 1%N; outpoint 11%N 1%N];
     tx_TxOut := [ {| Value := 3%Z |} ] |}.

Definition exBlockNeeds : Block := {| Transactions := [exT1; exT5]; Height := 3%Z |}.

(** * Lemmas *)

(** ** The memory *)

Lemma evolves_refl m v : evolves m v m v.
Proof. split; auto. Qed.

Lemma evolves_trans m1 v1 m2 v2 m3 v3 :
  evolves m1 v1 m2 v2 → evolves m2 v2 m3 v3 → evolves m1 v1 m3 v3.
Proof.
  intros [L1 F1 O1 C1] [L2 F2 O2 C2]. split.
  - lia.
  - intros l Hl Hn. rewrite F2; [by apply F1 | lia |].
    intros Ho. apply Hn. by apply O1.
  - intros l Hl Ho. apply O1; [done |]. apply O2; [lia | done].
  - congruence.
Qed.

Lemma contents_frame m m' (s : slice) :
  (∀ l, s = Some l → arrays m' !! l = arrays m !! l) → contents m' s = contents m s.
Proof. destruct s as [l|]; simpl; [|done]. intros H. by rewrite H. Qed.

Lemma wf_lookup_lt m v h d l :
  wf m v → v !! h = Some d → spent d = Some l → l < length (arrays m).
Proof. intros W Hh Hs. by destruct (W h d l Hh Hs). Qed.

Lemma wf_inj m v h h' d d' l :
  wf m v → v !! h = Some d → spent d = Some l →
  v !! h' = Some d' → spent d' = Some l → h' = h.
Proof. intros W Hh Hs Hh' Hs'. destruct (W h d l Hh Hs) as [_ I]. eauto. Qed.

Lemma wf_empty m : wf m ∅.
Proof. intros h d l Hh. by rewrite lookup_empty in Hh. Qed.

Lemma wf_delete m v h : wf m v → wf m (delete h v).
Proof.
  intros W h1 d l Hh Hs. apply lookup_delete_Some in Hh as [Hne Hh].
  split; [by eapply wf_lookup_lt |].
  intros h2 d2 Hh2 Hs2. apply lookup_delete_Some in Hh2 as [_ Hh2].
  by eapply wf_inj.
Qed.

Lemma view_lookup m v h : view m v !! h = observe m <$> v !! h.
Proof. unfold view. by rewrite lookup_fmap. Qed.

Lemma view_delete m v h : view m (delete h v) = delete h (view m v).
Proof. unfold view. by rewrite fmap_delete. Qed.

Lemma view_dom m v : dom (view m v) = dom v.
Proof. unfold view. by rewrite dom_fmap_L. Qed.

Lemma follows_bind {A B} m v (c : M A) (f : A → M B) sa sb r1 r2 :
  follows m v (c m) sa r1 →
  (∀ a m1, c m = Returned a m1 → wf m1 (sa a) →
     follows m1 (sa a) (f a m1) sb (r2 (view m1 (sa a)))) →
  follows m v (bind c f m) sb (r1 ≫= r2).
Proof.
  unfold follows, bind. intros Hc Hf. destruct (c m) as [a m1|m1]; simpl in *.
  - destruct Hc as (-> & W & E). simpl.
    specialize (Hf a m1 eq_refl W).
    destruct (f a m1) as [b m2|m2]; simpl in *; [|done].
    destruct Hf as (-> & W2 & E2). split_and!; [done..|].
    by eapply evolves_trans.
  - by subst.
Qed.

Lemma follows_ret {A} m v (a : A) sa :
  wf m v → sa a = v → follows m v (ret a m) sa (Some (view m v)).
Proof. intros W <-. unfold follows. simpl. split_and!; [done..|]. apply evolves_refl. Qed.

(** ** The inner loop of the mutators *)

Lemma setOriginSpent_follows b m v txIn :
  wf m v →
  follows m v (setOriginSpent b v txIn m) (λ _, v) (setSpentView b (view m v) txIn).
Proof.
  intros W. unfold setOriginSpent, setSpentView.
  set (h := op_Hash (PreviousOutpoint txIn)).
  set (i := N.to_nat (op_Index (PreviousOutpoint txIn))).
  rewrite view_lookup.
  destruct (v !! h) as [d|] eqn:Hh; simpl; [|by apply follows_ret].
  unfold follows, store. destruct (spent d) as [l|] eqn:Hs; simpl.
  2: done.
  pose proof (wf_lookup_lt _ _ _ _ _ W Hh Hs) as Hl.
  destruct (lookup_lt_is_Some_2 _ _ Hl) as [a Ha]. rewrite Ha. simpl.
  fold i. destruct (decide (i < length a)) as [Hi|Hi]; simpl; [|done].
  split_and!.
  - f_equal. apply map_eq. intros h'. rewrite view_lookup.
    destruct (decide (h' = h)) as [->|Hne].
    + rewrite lookup_insert_eq, Hh. simpl. f_equal.
      unfold observe, withSpent. simpl. rewrite Hs. simpl.
      by rewrite list_lookup_insert_eq by done.
    + rewrite lookup_insert_ne by done. rewrite view_lookup.
      destruct (v !! h') as [d'|] eqn:Hh'; simpl; [|done]. f_equal.
      unfold observe. f_equal. symmetry. apply contents_frame. intros l' Hs'. simpl.
      apply list_lookup_insert_ne. intros <-.
      apply Hne. by eapply wf_inj.
  - intros h1 d1 l1 Hh1 Hs1. simpl. rewrite length_insert.
    split; [by eapply wf_lookup_lt |]. intros h2 d2 Hh2 Hs2. by eapply wf_inj.
  - split; simpl.
    + by rewrite length_insert.
    + intros l' Hl' Hn. apply list_lookup_insert_ne. intros <-. apply Hn.
      by exists h, d.
    + done.
    + done.
Qed.

Lemma forM_setOriginSpent_follows b txIns : ∀ m v,
  wf m v →
  follows m v (forM_ txIns (setOriginSpent b v) m) (λ _, v)
          (setSpentsView b txIns (view m v)).
Proof.
  induction txIns as [|txIn rest IH]; intros m v W; simpl.
  - by apply follows_ret.
  - apply (follows_bind m v (setOriginSpent b v txIn) _ (λ _, v) (λ _, v)).
    + by apply setOriginSpent_follows.
    + intros [] m1 _ W1. by apply IH.
Qed.

(** ** [connectTransactions] and [disconnectTransactions] follow their views *)

Section Mutators.
Context (block : Block).

Lemma recordTx_follows tx_ m v :
  wf m v →
  follows m v
    (match v !! tx_Sha tx_ with
     | Some txD =>
       (let* s := make (length (tx_TxOut tx_)) in
        ret (<[tx_Sha tx_ := {| tx := Some tx_; hash := hash txD;
                                blockHeight := Height block;
                                spent := s; err := None |}]> v)) m
     | None => ret v m
     end) id (Some (recordTxView (Height block) tx_ (view m v))).
Proof.
  intros W. unfold recordTxView. rewrite view_lookup.
  destruct (v !! tx_Sha tx_) as [d|] eqn:Hh; simpl; [|by apply follows_ret].
  unfold follows. simpl.
  set (h := tx_Sha tx_). set (n := length (tx_TxOut tx_)).
  assert (Hold : ∀ h' d' l', v !! h' = Some d' → spent d' = Some l' →
            (arrays m ++ [replicate n false]) !! l' = arrays m !! l').
  { intros h' d' l' Hh' Hs'. apply lookup_app_l. by eapply wf_lookup_lt. }
  split_and!.
  - f_equal. apply map_eq. intros h'. rewrite view_lookup.
    destruct (decide (h' = h)) as [->|Hne].
    + rewrite !lookup_insert_eq. simpl. f_equal. unfold observe. simpl. f_equal.
      rewrite lookup_app_r by done. by rewrite Nat.sub_diag.
    + rewrite !lookup_insert_ne by done. rewrite view_lookup.
      destruct (v !! h') as [d'|] eqn:Hh'; simpl; [|done]. f_equal.
      unfold observe. f_equal. symmetry. apply contents_frame. intros l' Hs'. simpl. eauto.
  - intros h1 d1 l1 Hh1 Hs1. simpl. rewrite length_app. simpl.
    destruct (decide (h1 = h)) as [->|Hne].
    + rewrite lookup_insert_eq in Hh1. injection Hh1 as <-. simpl in Hs1.
      injection Hs1 as <-. split; [lia |].
      intros h2 d2 Hh2 Hs2. destruct (decide (h2 = h)) as [|Hne2]; [done |].
      rewrite lookup_insert_ne in Hh2 by done.
      pose proof (wf_lookup_lt _ _ _ _ _ W Hh2 Hs2). lia.
    + rewrite lookup_insert_ne in Hh1 by done.
      pose proof (wf_lookup_lt _ _ _ _ _ W Hh1 Hs1). split; [lia |].
      intros h2 d2 Hh2 Hs2. destruct (decide (h2 = h)) as [->|Hne2].
      * rewrite lookup_insert_eq in Hh2. injection Hh2 as <-. simpl in Hs2.
        injection Hs2 as <-. lia.
      * rewrite lookup_insert_ne in Hh2 by done. by eapply wf_inj.
  - split; simpl.
    + rewrite length_app. lia.
    + intros l Hl _. by apply lookup_app_l.
    + intros l Hl (h1 & d1 & Hh1 & Hs1).
      destruct (decide (h1 = h)) as [->|Hne].
      * rewrite lookup_insert_eq in Hh1. injection Hh1 as <-. simpl in Hs1.
        injection Hs1 as <-. lia.
      * rewrite lookup_insert_ne in Hh1 by done. by exists h1, d1.
    + done.
Qed.

Lemma TxSha_drop i tx_ rest :
  drop i (Transactions block) = tx_ :: rest →
  TxSha block i = inl (tx_Sha tx_) ∧ drop (S i) (Transactions block) = rest.
Proof.
  intros Hd. assert (Transactions block !! i = Some tx_) as Hi.
  { rewrite <- (Nat.add_0_r i), <- lookup_drop, Hd. done. }
  unfold TxSha. rewrite Hi. split; [done |].
  rewrite (drop_S _ _ _ Hi) in Hd. by injection Hd.
Qed.

Lemma connectLoop_follows : ∀ txs i m v,
  drop i (Transactions block) = txs → wf m v →
  follows m v (connectLoop block i txs v m) fst
          (connectView (Height block) txs (view m v)) ∧
  noError (connectLoop block i txs v m).
Proof.
  induction txs as [|tx_ rest IH]; intros i m v Hd W.
  - simpl. split; [by apply follows_ret | done].
  - destruct (TxSha_drop _ _ _ Hd) as [Hsha Hd']. simpl. rewrite Hsha.
    pose proof (recordTx_follows tx_ m v W) as Hrec.
    match goal with |- follows _ _ (bind ?c ?f m) _ _ ∧ _ =>
      set (c0 := c) in *; set (f0 := f) end.
    assert (c0 m = match v !! tx_Sha tx_ with
                   | Some txD =>
                     (let* s := make (length (tx_TxOut tx_)) in
                      ret (<[tx_Sha tx_ := {| tx := Some tx_; hash := hash txD;
                                blockHeight := Height block;
                                spent := s; err := None |}]> v)) m
                   | None => ret v m end) as Hc0.
    { unfold c0. by destruct (v !! tx_Sha tx_). }
    rewrite <- Hc0 in Hrec. split.
    + pose proof (follows_bind m v c0 f0 id fst
               (Some (recordTxView (Height block) tx_ (view m v)))
               (λ w, setSpentsView true (tx_TxIn tx_) w ≫= connectView (Height block) rest)
               Hrec) as HB.
      apply HB. clear HB.
      intros v1 m1 _ W1. unfold f0, id.
      apply (follows_bind m1 v1 _ _ (λ _, v1) fst).
      * by apply forM_setOriginSpent_follows.
      * intros [] m2 _ W2. by apply IH.
    + unfold bind. destruct (c0 m) as [v1 m1|]; [|done]. simpl in Hrec.
      destruct Hrec as (_ & W1 & _). unfold f0, id in *. unfold bind.
      pose proof (forM_setOriginSpent_follows true (tx_TxIn tx_) m1 v1 W1) as Hin.
      destruct (forM_ (tx_TxIn tx_) (setOriginSpent true v1) m1) as [[] m2|]; [|done].
      destruct Hin as (_ & W2 & _). by apply IH.
Qed.

Lemma evolves_delete m v h : evolves m v m (delete h v).
Proof.
  split; auto. intros l _ (h1 & d1 & Hh1 & Hs1).
  apply lookup_delete_Some in Hh1 as [_ Hh1]. by exists h1, d1.
Qed.

Lemma disconnectLoop_follows : ∀ txs i m v,
  drop i (Transactions block) = txs → wf m v →
  follows m v (disconnectLoop block i txs v m) fst
          (disconnectView txs (view m v)) ∧
  noError (disconnectLoop block i txs v m).
Proof.
  induction txs as [|tx_ rest IH]; intros i m v Hd W.
  - simpl. split; [by apply follows_ret | done].
  - destruct (TxSha_drop _ _ _ Hd) as [Hsha Hd']. simpl. rewrite Hsha.
    pose proof (wf_delete m v (tx_Sha tx_) W) as W0.
    pose proof (forM_setOriginSpent_follows false (tx_TxIn tx_) m _ W0) as Hin.
    rewrite view_delete in Hin. split.
    + unfold bind.
      destruct (forM_ (tx_TxIn tx_) (setOriginSpent false (delete (tx_Sha tx_) v)) m)
        as [[] m1|m1] eqn:Hf; unfold follows in Hin.
      * destruct Hin as (-> & W1 & E1). simpl.
        destruct (IH (S i) m1 _ Hd' W1) as [IH1 _].
        unfold follows in *.
        destruct (disconnectLoop block (S i) rest (delete (tx_Sha tx_) v) m1)
          as [[v2 e2] m2|m2]; [|done].
        destruct IH1 as (-> & W2 & E2). split_and!; [done..|].
        eapply evolves_trans; [apply evolves_delete |].
        eapply evolves_trans; [apply E1 | apply E2].
      * unfold follows. by rewrite Hin.
    + unfold bind.
      destruct (forM_ (tx_TxIn tx_) (setOriginSpent false (delete (tx_Sha tx_) v)) m)
        as [[] m1|m1]; [|done].
      destruct Hin as (_ & W1 & _). by apply IH.
Qed.

End Mutators.

Lemma connectTransactions_follows m v block :
  wf m v →
  follows m v (connectTransactions v block m) fst
          (connectView (Height block) (Transactions block) (view m v)) ∧
  noError (connectTransactions v block m).
Proof. intros W. by apply connectLoop_follows. Qed.

Lemma disconnectTransactions_follows m v block :
  wf m v →
  follows m v (disconnectTransactions v block m) fst
          (disconnectView (Transactions block) (view m v)) ∧
  noError (disconnectTransactions v block m).
Proof. intros W. by apply disconnectLoop_follows. Qed.

(** ** The pure functions on observed views, in closed form *)

Lemma withSpent_id d : withSpent (s_spent d) d = d.
Proof. by destruct d. Qed.

Lemma setAll_app b ks1 ks2 bits :
  setAll b (ks1 ++ ks2) bits = setAll b ks2 (setAll b ks1 bits).
Proof. unfold setAll. by rewrite foldl_app. Qed.

Lemma setAll_length b ks : ∀ bits, length (setAll b ks bits) = length bits.
Proof.
  induction ks as [|k ks IH]; intros bits; simpl; [done |].
  unfold setAll in *. simpl. by rewrite IH, length_insert.
Qed.

Lemma spendsOf_cons h tx_ rest :
  spendsOf h (tx_ :: rest) = spendsOfInputs h (tx_TxIn tx_) ++ spendsOf h rest.
Proof. done. Qed.

Lemma spendsOfInputs_cons h txIn rest :
  spendsOfInputs h (txIn :: rest) =
  (if decide (op_Hash (PreviousOutpoint txIn) = h)
   then [N.to_nat (op_Index (PreviousOutpoint txIn))] else []) ++ spendsOfInputs h rest.
Proof. unfold spendsOfInputs. simpl. by destruct (decide _). Qed.

Lemma setSpentView_Some b w txIn w1 :
  setSpentView b w txIn = Some w1 →
  ∀ h, w1 !! h =
       (λ d, withSpent (setAll b (spendsOfInputs h [txIn]) (s_spent d)) d) <$> w !! h.
Proof.
  unfold setSpentView. intros Hs h. rewrite spendsOfInputs_cons. simpl.
  destruct (w !! op_Hash (PreviousOutpoint txIn)) as [d|] eqn:Hd.
  - destruct (decide _) as [Hi|]; [|done]. injection Hs as <-.
    destruct (decide (op_Hash (PreviousOutpoint txIn) = h)) as [<-|Hne].
    + rewrite lookup_insert_eq, Hd. done.
    + rewrite lookup_insert_ne by done. simpl.
      destruct (w !! h) as [d'|]; simpl; [|done]. by rewrite withSpent_id.
  - injection Hs as <-.
    destruct (decide (op_Hash (PreviousOutpoint txIn) = h)) as [<-|Hne].
    + by rewrite Hd.
    + destruct (w !! h) as [d'|]; simpl; [|done]. by rewrite withSpent_id.
Qed.

Lemma spendsOfInputs_app h l1 l2 :
  spendsOfInputs h (l1 ++ l2) = spendsOfInputs h l1 ++ spendsOfInputs h l2.
Proof. unfold spendsOfInputs. by rewrite omap_app. Qed.

Lemma withSpent_setAll_app b ks1 ks2 d :
  withSpent (setAll b ks2 (s_spent (withSpent (setAll b ks1 (s_spent d)) d)))
            (withSpent (setAll b ks1 (s_spent d)) d) =
  withSpent (setAll b (ks1 ++ ks2) (s_spent d)) d.
Proof. unfold withSpent. simpl. by rewrite setAll_app. Qed.

Lemma setSpentsView_Some b txIns : ∀ w w1,
  setSpentsView b txIns w = Some w1 →
  ∀ h, w1 !! h =
       (λ d, withSpent (setAll b (spendsOfInputs h txIns) (s_spent d)) d) <$> w !! h.
Proof.
  induction txIns as [|txIn rest IH]; intros w w1 Hs h; simpl in Hs.
  - injection Hs as <-. destruct (w !! h) as [d|]; simpl; [|done].
    by rewrite withSpent_id.
  - destruct (setSpentView b w txIn) as [w0|] eqn:H0; [|done]. simpl in Hs.
    rewrite (IH _ _ Hs h), (setSpentView_Some _ _ _ _ H0 h).
    destruct (w !! h) as [d|]; [|done].
    change (txIn :: rest) with ([txIn] ++ rest). rewrite spendsOfInputs_app.
    cbv [fmap option_fmap option_map]. f_equal. apply withSpent_setAll_app.
Qed.

Lemma bitmapLength_setSpentsView b txIns w w1 h :
  setSpentsView b txIns w = Some w1 → bitmapLength w1 h = bitmapLength w h.
Proof.
  intros Hs. unfold bitmapLength. rewrite (setSpentsView_Some _ _ _ _ Hs h).
  destruct (w !! h) as [d|]; simpl; [|done]. by rewrite setAll_length.
Qed.

Lemma setSpentsView_is_Some b txIns : ∀ w,
  is_Some (setSpentsView b txIns w) ↔ inputsInRange (bitmapLength w) txIns.
Proof.
  induction txIns as [|txIn rest IH]; intros w; simpl.
  - split; [|by eauto]. intros _ txIn n Hin. by apply elem_of_nil in Hin.
  - split.
    + intros [w1 Hs]. destruct (setSpentView b w txIn) as [w0|] eqn:H0; [|done].
      simpl in Hs. intros txIn' n Hin Hn. apply elem_of_cons in Hin as [->|Hin].
      * unfold setSpentView in H0. unfold bitmapLength in Hn.
        destruct (w !! op_Hash (PreviousOutpoint txIn)) as [d|]; [|done].
        simpl in Hn. injection Hn as <-. by destruct (decide _).
      * assert (is_Some (setSpentsView b rest w0)) as Hr by eauto.
        apply IH in Hr. apply (Hr txIn' n Hin).
        rewrite <- Hn. apply (bitmapLength_setSpentsView b [txIn] w).
        simpl. by rewrite H0.
    + intros Hr. assert (is_Some (setSpentView b w txIn)) as [w0 H0].
      { unfold setSpentView.
        destruct (w !! op_Hash (PreviousOutpoint txIn)) as [d|] eqn:Hd; [|by eauto].
        rewrite decide_True; [by eauto |].
        apply (Hr txIn); [by left |]. unfold bitmapLength. by rewrite Hd. }
      rewrite H0. simpl. apply IH. intros txIn' n Hin Hn.
      apply (Hr txIn' n); [by right |]. rewrite <- Hn. symmetry.
      apply (bitmapLength_setSpentsView b [txIn] w). simpl. by rewrite H0.
Qed.

Lemma inputsInRange_ext f g txIns :
  (∀ h, f h = g h) → inputsInRange f txIns ↔ inputsInRange g txIns.
Proof.
  intros E. unfold inputsInRange.
  split; intros H txIn n Hin Hn; apply (H txIn n Hin).
  - by rewrite E.
  - by rewrite <- E.
Qed.

Lemma bind_is_Some {A B} (o : option A) (f : A → option B) :
  is_Some (o ≫= f) ↔ ∃ a, o = Some a ∧ is_Some (f a).
Proof.
  destruct o as [a|]; simpl.
  - split; [by eauto | by intros (? & [= <-] & ?)].
  - split; [by intros [? ?] | by intros (? & ? & ?)].
Qed.

(** *** [disconnectTransactions] *)

Lemma disconnectView_Some txs : ∀ w w',
  disconnectView txs w = Some w' →
  ∀ h, w' !! h = if decide (h ∈ tx_Sha <$> txs) then None
                 else disconnectedEntry txs h <$> w !! h.
Proof.
  induction txs as [|tx_ rest IH]; intros w w' Hd h; simpl in Hd.
  - injection Hd as <-. case_decide as Hin; [by apply elem_of_nil in Hin |].
    destruct (w !! h) as [d|]; [|done]. unfold disconnectedEntry. simpl.
    by rewrite withSpent_id.
  - destruct (setSpentsView false (tx_TxIn tx_) (delete (tx_Sha tx_) w)) as [w1|] eqn:H1;
      [|done].
    simpl in Hd. rewrite (IH _ _ Hd h), (setSpentsView_Some _ _ _ _ H1 h).
    rewrite fmap_cons.
    destruct (decide (h = tx_Sha tx_)) as [->|Hne].
    + rewrite lookup_delete_eq. repeat case_decide; try done; exfalso; set_solver.
    + rewrite lookup_delete_ne by done.
      repeat case_decide; try done; try (exfalso; set_solver).
      destruct (w !! h) as [d|]; [|done].
      cbv [fmap option_fmap option_map]. f_equal. unfold disconnectedEntry.
      rewrite spendsOf_cons. apply withSpent_setAll_app.
Qed.

Lemma disconnectView_is_Some txs : ∀ w,
  is_Some (disconnectView txs w) ↔ disconnectInRange w txs.
Proof.
  induction txs as [|tx_ rest IH]; intros w; simpl.
  - split; [|by eauto]. by intros _ i t Hi.
  - rewrite bind_is_Some.
    assert (∀ w1, setSpentsView false (tx_TxIn tx_) (delete (tx_Sha tx_) w) = Some w1 →
              ∀ visited h, lengthAtDisconnect w1 visited h =
                           lengthAtDisconnect w (tx_ :: visited) h) as Hlen.
    { intros w1 H1 visited h. unfold lengthAtDisconnect.
      rewrite (bitmapLength_setSpentsView _ _ _ _ h H1).
      rewrite fmap_cons. unfold bitmapLength.
      destruct (decide (h = tx_Sha tx_)) as [->|Hne].
      - rewrite lookup_delete_eq. repeat case_decide; try done; exfalso; set_solver.
      - rewrite lookup_delete_ne by done.
        repeat case_decide; try done; exfalso; set_solver. }
    assert (∀ h, bitmapLength (delete (tx_Sha tx_) w) h = lengthAtDisconnect w [tx_] h)
      as Hlen0.
    { intros h. unfold lengthAtDisconnect, bitmapLength. simpl.
      destruct (decide (h = tx_Sha tx_)) as [->|Hne].
      - rewrite lookup_delete_eq. case_decide; [done | exfalso; set_solver].
      - rewrite lookup_delete_ne by done. case_decide; [exfalso; set_solver | done]. }
    split.
    + intros (w1 & H1 & Hr). apply IH in Hr. intros [|j] t Hi; simpl in Hi.
      * injection Hi as <-. simpl. rewrite take_0.
        apply (inputsInRange_ext _ _ _ Hlen0).
        apply (setSpentsView_is_Some false). by eauto.
      * simpl. apply (inputsInRange_ext _ _ _ (λ h, eq_sym (Hlen w1 H1 _ h))).
        by apply Hr.
    + intros Hr.
      assert (is_Some (setSpentsView false (tx_TxIn tx_) (delete (tx_Sha tx_) w)))
        as [w1 H1].
      { apply setSpentsView_is_Some. apply (inputsInRange_ext _ _ _ Hlen0).
        pose proof (Hr 0 tx_ eq_refl) as H0. simpl in H0. by rewrite take_0 in H0. }
      exists w1. split; [done |]. apply IH. intros j t Hj.
      apply (inputsInRange_ext _ _ _ (Hlen w1 H1 _)). by apply (Hr (S j)).
Qed.

(** *** [connectTransactions] *)

Lemma recordTxView_lookup height_ tx_ w h :
  recordTxView height_ tx_ w !! h =
  (λ d, if decide (tx_Sha tx_ = h)
        then {| s_tx := Some tx_; s_hash := s_hash d; s_blockHeight := height_;
                s_spent := replicate (length (tx_TxOut tx_)) false; s_err := None |}
        else d) <$> w !! h.
Proof.
  unfold recordTxView. destruct (w !! tx_Sha tx_) as [d|] eqn:Hd.
  - destruct (decide (tx_Sha tx_ = h)) as [<-|Hne].
    + by rewrite lookup_insert_eq, Hd.
    + rewrite lookup_insert_ne by done. by destruct (w !! h).
  - destruct (w !! h) as [d|] eqn:Hh; [|done].
    cbv [fmap option_fmap option_map]. case_decide; [|done]. congruence.
Qed.

Lemma connectView_Some height_ txs : ∀ w w',
  connectView height_ txs w = Some w' →
  ∀ h, w' !! h = connectedEntry height_ txs h <$> w !! h.
Proof.
  induction txs as [|tx_ rest IH]; intros w w' Hc h; simpl in Hc.
  - injection Hc as <-. destruct (w !! h) as [d|]; [|done].
    unfold connectedEntry. simpl. by rewrite withSpent_id.
  - destruct (setSpentsView true (tx_TxIn tx_) (recordTxView height_ tx_ w))
      as [w1|] eqn:H1; [|done].
    simpl in Hc. rewrite (IH _ _ Hc h), (setSpentsView_Some _ _ _ _ H1 h).
    rewrite recordTxView_lookup.
    destruct (w !! h) as [d|]; [|done].
    cbv [fmap option_fmap option_map]. f_equal.
    unfold connectedEntry. simpl.
    destruct (lastCreated h rest) as [t|] eqn:Hl.
    + by destruct (decide (tx_Sha tx_ = h)).
    + destruct (decide (tx_Sha tx_ = h)) as [Heq|Hne].
      * unfold withSpent. simpl. by rewrite setAll_app.
      * unfold withSpent. simpl. by rewrite setAll_app.
Qed.

Lemma connectView_is_Some height_ txs : ∀ w,
  is_Some (connectView height_ txs w) ↔ connectInRange w txs.
Proof.
  induction txs as [|tx_ rest IH]; intros w; simpl.
  - split; [|by eauto]. by intros _ i t Hi.
  - rewrite bind_is_Some.
    assert (∀ h, bitmapLength (recordTxView height_ tx_ w) h = lengthAtConnect w [tx_] h)
      as Hlen0.
    { intros h. unfold lengthAtConnect, bitmapLength. rewrite recordTxView_lookup.
      destruct (w !! h) as [d|]; [|done]. simpl.
      destruct (decide _); simpl; [|done]. by rewrite length_replicate. }
    assert (∀ w1, setSpentsView true (tx_TxIn tx_) (recordTxView height_ tx_ w) = Some w1 →
              ∀ visited h, lengthAtConnect w1 visited h =
                           lengthAtConnect w (tx_ :: visited) h) as Hlen.
    { intros w1 H1 visited h. unfold lengthAtConnect.
      rewrite (bitmapLength_setSpentsView _ _ _ _ h H1), Hlen0.
      unfold lengthAtConnect, bitmapLength.
      destruct (w !! h) as [d|]; [|done]. simpl.
      destruct (lastCreated h visited); [done |]. by destruct (decide _). }
    split.
    + intros (w1 & H1 & Hr). apply IH in Hr. intros [|j] t Hi; simpl in Hi.
      * injection Hi as <-. simpl. rewrite take_0.
        apply (inputsInRange_ext _ _ _ Hlen0).
        apply (setSpentsView_is_Some true). by eauto.
      * simpl. apply (inputsInRange_ext _ _ _ (λ h, eq_sym (Hlen w1 H1 _ h))).
        by apply Hr.
    + intros Hr.
      assert (is_Some (setSpentsView true (tx_TxIn tx_) (recordTxView height_ tx_ w)))
        as [w1 H1].
      { apply setSpentsView_is_Some. apply (inputsInRange_ext _ _ _ Hlen0).
        pose proof (Hr 0 tx_ eq_refl) as H0. simpl in H0. by rewrite take_0 in H0. }
      exists w1. split; [done |]. apply IH. intros j t Hj.
      apply (inputsInRange_ext _ _ _ (Hlen w1 H1 _)). by apply (Hr (S j)).
Qed.

(** ** Bitmaps *)

Lemma setAll_cons b k ks bits : setAll b (k :: ks) bits = setAll b ks (<[k := b]> bits).
Proof. done. Qed.

Lemma setAll_lookup b ks : ∀ bits k,
  setAll b ks bits !! k =
  if decide (k ∈ ks ∧ k < length bits) then Some b else bits !! k.
Proof.
  induction ks as [|k0 ks IH]; intros bits k.
  - change (setAll b [] bits) with bits.
    case_decide as H; [|done]. destruct H as [H _]. by apply elem_of_nil in H.
  - rewrite setAll_cons, IH, length_insert, list_lookup_insert.
    repeat case_decide; try done; exfalso; set_solver.
Qed.

Lemma setAll_setAll b b' ks bits : setAll b ks (setAll b' ks bits) = setAll b ks bits.
Proof.
  apply list_eq. intros k. rewrite !setAll_lookup, setAll_length.
  by repeat case_decide.
Qed.

Lemma setAll_unchanged b ks bits :
  (∀ k, k ∈ ks → bits !! k ≠ Some (negb b)) → setAll b ks bits = bits.
Proof.
  intros H. apply list_eq. intros k. rewrite setAll_lookup.
  case_decide as Hk; [|done]. destruct Hk as [Hin Hlt].
  destruct (lookup_lt_is_Some_2 _ _ Hlt) as [x Hx]. rewrite Hx. f_equal.
  specialize (H k Hin). rewrite Hx in H. destruct b, x; simpl in *; congruence.
Qed.

(** ** What a block creates and spends *)

Lemma lastCreated_None h txs : lastCreated h txs = None ↔ h ∉ tx_Sha <$> txs.
Proof.
  induction txs as [|t rest IH]; simpl.
  - split; [intros _; apply not_elem_of_nil | done].
  - rewrite not_elem_of_cons, <- IH.
    destruct (lastCreated h rest); [naive_solver |].
    case_decide; naive_solver.
Qed.

Lemma lastCreated_Some h txs t :
  lastCreated h txs = Some t → t ∈ txs ∧ tx_Sha t = h.
Proof.
  induction txs as [|t0 rest IH]; simpl; [done |].
  destruct (lastCreated h rest) as [t1|].
  - intros [= <-]. destruct (IH eq_refl). split; [by right | done].
  - case_decide; [|done]. intros [= <-]. split; [by left | done].
Qed.

Lemma spendsOfInputs_elem h txIns k :
  k ∈ spendsOfInputs h txIns ↔
  ∃ txIn, txIn ∈ txIns ∧ op_Hash (PreviousOutpoint txIn) = h ∧
          N.to_nat (op_Index (PreviousOutpoint txIn)) = k.
Proof.
  unfold spendsOfInputs. rewrite list_elem_of_omap. split.
  - intros (txIn & Hin & Hk). case_decide; [|done]. injection Hk as <-. eauto.
  - intros (txIn & Hin & Hh & Hk). exists txIn. split; [done |].
    rewrite decide_True by done. by rewrite Hk.
Qed.

Lemma spendsOf_elem h txs k :
  k ∈ spendsOf h txs ↔
  ∃ tx_ txIn, tx_ ∈ txs ∧ txIn ∈ tx_TxIn tx_ ∧ op_Hash (PreviousOutpoint txIn) = h ∧
              N.to_nat (op_Index (PreviousOutpoint txIn)) = k.
Proof.
  unfold spendsOf. rewrite list_elem_of_bind. split.
  - intros (t & Hk & Ht). apply spendsOfInputs_elem in Hk. naive_solver.
  - intros (t & txIn & Ht & Hrest). exists t. split; [|done].
    apply spendsOfInputs_elem. eauto.
Qed.

Lemma originsOf_elem h txs :
  h ∈ originsOf txs ↔
  ∃ tx_ txIn, tx_ ∈ txs ∧ txIn ∈ tx_TxIn tx_ ∧ op_Hash (PreviousOutpoint txIn) = h.
Proof.
  unfold originsOf. rewrite list_elem_of_bind. split.
  - intros (t & Hh & Ht). apply list_elem_of_fmap in Hh as (txIn & -> & Hin). eauto.
  - intros (t & txIn & Ht & Hin & <-). exists t. split; [|done].
    apply list_elem_of_fmap. eauto.
Qed.

Lemma spendsOf_not_origin h txs : h ∉ originsOf txs → spendsOf h txs = [].
Proof.
  intros Hn. destruct (spendsOf h txs) as [|k ks] eqn:E; [done |]. exfalso.
  assert (k ∈ spendsOf h txs) as Hk by (rewrite E; left).
  apply spendsOf_elem in Hk as (t & txIn & ? & ? & ? & ?).
  apply Hn, originsOf_elem. eauto.
Qed.

Lemma sinceLastCreated_suffix h txs : sinceLastCreated h txs `suffix_of` txs.
Proof.
  induction txs as [|t rest IH]; simpl; [done |].
  destruct (lastCreated h rest); [|done]. by apply suffix_cons_r.
Qed.

Lemma spendsOf_since_not_origin h txs :
  h ∉ originsOf txs → spendsOf h (sinceLastCreated h txs) = [].
Proof.
  intros Hn. apply spendsOf_not_origin. intros Hin. apply Hn.
  apply originsOf_elem in Hin as (t & txIn & Ht & Hrest).
  apply originsOf_elem. exists t, txIn. split; [|done].
  destruct (sinceLastCreated_suffix h txs) as [pre ->].
  apply elem_of_app. by right.
Qed.

(** ** The mutators and the store *)

Lemma bind_Returned {A B} (c : M A) (f : A → M B) m b m' :
  bind c f m = Returned b m' → ∃ a m1, c m = Returned a m1 ∧ f a m1 = Returned b m'.
Proof. unfold bind. destruct (c m) as [a m1|]; [by eauto | done]. Qed.

(** Splits a returning sequence of binds in [H] into its steps. *)
Ltac unbind H :=
  repeat (let a := fresh "a" in
          let m := fresh "m" in
          let Hstep := fresh "Hstep" in
          apply bind_Returned in H as (a & m & Hstep & H)).

Lemma follows_returns {A} m v (o : outcome A) sa r :
  follows m v o sa r → returns o ↔ is_Some r.
Proof.
  unfold follows, returns. destruct o as [a m'|m'].
  - intros (-> & _). split; by eauto.
  - intros ->. split; [by intros (? & ? & ?) | by intros [? ?]].
Qed.

Lemma connectLoop_keeps block : ∀ txs i v m v' e m',
  drop i (Transactions block) = txs →
  connectLoop block i txs v m = Returned (v', e) m' →
  ∀ h, h ∉ tx_Sha <$> txs → v' !! h = v !! h.
Proof.
  induction txs as [|tx_ rest IH]; intros i v m v' e m' Hd Hc h Hh.
  - by injection Hc as <- <- <-.
  - destruct (TxSha_drop _ _ _ _ Hd) as [Hsha Hd']. simpl in Hc. rewrite Hsha in Hc.
    rewrite fmap_cons, not_elem_of_cons in Hh. destruct Hh as [Hne Hh].
    apply bind_Returned in Hc as (v1 & m1 & H1 & Hc).
    apply bind_Returned in Hc as ([] & m2 & _ & Hc).
    rewrite (IH _ _ _ _ _ _ Hd' Hc h Hh).
    destruct (v !! tx_Sha tx_) as [d|].
    + apply bind_Returned in H1 as (s & m0 & _ & H1). injection H1 as <- <-.
      by rewrite lookup_insert_ne.
    + by injection H1 as <- <-.
Qed.

Lemma disconnectLoop_keeps block : ∀ txs i v m v' e m',
  drop i (Transactions block) = txs →
  disconnectLoop block i txs v m = Returned (v', e) m' →
  ∀ h, h ∉ tx_Sha <$> txs → v' !! h = v !! h.
Proof.
  induction txs as [|tx_ rest IH]; intros i v m v' e m' Hd Hc h Hh.
  - by injection Hc as <- <- <-.
  - destruct (TxSha_drop _ _ _ _ Hd) as [Hsha Hd']. simpl in Hc. rewrite Hsha in Hc.
    rewrite fmap_cons, not_elem_of_cons in Hh. destruct Hh as [Hne Hh].
    apply bind_Returned in Hc as ([] & m2 & _ & Hc).
    rewrite (IH _ _ _ _ _ _ Hd' Hc h Hh). by rewrite lookup_delete_ne.
Qed.

Lemma connectTransactions_Returned m v block v' e m' :
  wf m v → connectTransactions v block m = Returned (v', e) m' →
  e = None ∧
  connectView (Height block) (Transactions block) (view m v) = Some (view m' v') ∧
  wf m' v' ∧ evolves m v m' v'.
Proof.
  intros W Hc. destruct (connectTransactions_follows m v block W) as [F E].
  rewrite Hc in F, E. by destruct F as (? & ? & ?).
Qed.

Lemma disconnectTransactions_Returned m v block v' e m' :
  wf m v → disconnectTransactions v block m = Returned (v', e) m' →
  e = None ∧
  disconnectView (Transactions block) (view m v) = Some (view m' v') ∧
  wf m' v' ∧ evolves m v m' v'.
Proof.
  intros W Hc. destruct (disconnectTransactions_follows m v block W) as [F E].
  rewrite Hc in F, E. by destruct F as (? & ? & ?).
Qed.

Lemma connectedEntry_untouched height_ txs h d :
  h ∉ tx_Sha <$> txs → h ∉ originsOf txs → connectedEntry height_ txs h d = d.
Proof.
  intros Hh Ho. unfold connectedEntry.
  apply lastCreated_None in Hh. rewrite Hh, (spendsOf_not_origin _ _ Ho).
  apply withSpent_id.
Qed.

Lemma disconnectedEntry_untouched txs h d :
  h ∉ originsOf txs → disconnectedEntry txs h d = d.
Proof.
  intros Ho. unfold disconnectedEntry. rewrite (spendsOf_not_origin _ _ Ho).
  apply withSpent_id.
Qed.

Lemma wf_exStore m : wf m exStore.
Proof.
  intros h d l Hh Hs. unfold exStore in Hh.
  apply lookup_singleton_Some in Hh as [_ <-]. done.
Qed.

Lemma wf_exStoreKnown m : 0 < length (arrays m) → wf m exStoreKnown.
Proof.
  intros Hm h d l Hh Hs. unfold exStoreKnown in *.
  apply lookup_singleton_Some in Hh as [<- <-].
  injection Hs as <-. split; [done |].
  intros h' d' Hh' _. by apply lookup_singleton_Some in Hh' as [<- _].
Qed.

(** * The view mutators: the claims *)

Lemma connectLoop_dom block : ∀ txs i v m v' e m',
  drop i (Transactions block) = txs →
  connectLoop block i txs v m = Returned (v', e) m' → dom v' = dom v.
Proof.
  induction txs as [|tx_ rest IH]; intros i v m v' e m' Hd Hc.
  - by injection Hc as <- <- <-.
  - destruct (TxSha_drop _ _ _ _ Hd) as [Hsha Hd']. simpl in Hc. rewrite Hsha in Hc.
    apply bind_Returned in Hc as (v1 & m1 & H1 & Hc).
    apply bind_Returned in Hc as ([] & m2 & _ & Hc).
    rewrite (IH _ _ _ _ _ _ Hd' Hc).
    destruct (v !! tx_Sha tx_) as [d|] eqn:Hh.
    + apply bind_Returned in H1 as (s & m0 & _ & H1). injection H1 as <- <-.
      rewrite dom_insert_L. apply elem_of_dom_2 in Hh. set_solver.
    + by injection H1 as <- <-.
Qed.

Lemma disconnectLoop_dom block : ∀ txs i v m v' e m',
  drop i (Transactions block) = txs →
  disconnectLoop block i txs v m = Returned (v', e) m' →
  dom v' = dom v ∖ list_to_set (tx_Sha <$> txs).
Proof.
  induction txs as [|tx_ rest IH]; intros i v m v' e m' Hd Hc.
  - injection Hc as <- <- <-. simpl. set_solver.
  - destruct (TxSha_drop _ _ _ _ Hd) as [Hsha Hd']. simpl in Hc. rewrite Hsha in Hc.
    unbind Hc.
    rewrite (IH _ _ _ _ _ _ Hd' Hc), dom_delete_L, fmap_cons. simpl. set_solver.
Qed.

(** C10: neither mutator inserts a key.  After [connectTransactions] the key
    set is the one before the call; after [disconnectTransactions] it is the
    one before the call minus the hashes of the block's transactions; and in
    both, an entry whose hash is neither a transaction of the block nor the
    origin of one of its inputs is unchanged: the same struct and, the store
    owning its bitmaps, the same contents behind its bitmap. *)
Theorem mutators_insert_no_key m v block :
  whenReturned (connectTransactions v block m) (λ r m',
    dom r.1 = dom v ∧
    ∀ h, h ∉ tx_Sha <$> Transactions block → h ∉ originsOf (Transactions block) →
         r.1 !! h = v !! h ∧ (wf m v → view m' r.1 !! h = view m v !! h)) ∧
  whenReturned (disconnectTransactions v block m) (λ r m',
    dom r.1 = dom v ∖ list_to_set (tx_Sha <$> Transactions block) ∧
    ∀ h, h ∉ tx_Sha <$> Transactions block → h ∉ originsOf (Transactions block) →
         r.1 !! h = v !! h ∧ (wf m v → view m' r.1 !! h = view m v !! h)).
Proof.
  split.
  - destruct (connectTransactions v block m) as [[v' e] m'|] eqn:Hc; [|done]. simpl.
    split; [by apply (connectLoop_dom block (Transactions block) 0 v m v' e m') |].
    intros h Hh Ho. split.
    + by apply (connectLoop_keeps block (Transactions block) 0 v m v' e m').
    + intros W.
      destruct (connectTransactions_Returned _ _ _ _ _ _ W Hc) as (_ & Hv & _ & _).
      rewrite (connectView_Some _ _ _ _ Hv h).
      destruct (view m v !! h) as [d|]; [|done]. simpl.
      by rewrite connectedEntry_untouched.
  - destruct (disconnectTransactions v block m) as [[v' e] m'|] eqn:Hc; [|done]. simpl.
    split; [by apply (disconnectLoop_dom block (Transactions block) 0 v m v' e m') |].
    intros h Hh Ho. split.
    + by apply (disconnectLoop_keeps block (Transactions block) 0 v m v' e m').
    + intros W.
      destruct (disconnectTransactions_Returned _ _ _ _ _ _ W Hc) as (_ & Hv & _ & _).
      rewrite (disconnectView_Some _ _ _ Hv h). rewrite decide_False by done.
      destruct (view m v !! h) as [d|]; [|done]. simpl.
      by rewrite disconnectedEntry_untouched.
Qed.

Lemma not_elem_of_take_hashes h n (txs : list MsgTx) :
  h ∉ tx_Sha <$> txs → h ∉ tx_Sha <$> take n txs.
Proof.
  intros Hn Hin. apply Hn. apply list_elem_of_fmap in Hin as (t & -> & Ht).
  apply list_elem_of_fmap. exists t. split; [done |].
  rewrite <- (take_drop n txs). apply elem_of_app. by left.
Qed.

Lemma claimedConnectPost_holds height_ txs w w' :
  connectView height_ txs w = Some w' →
  spendsNoOwn w txs → hashesDetermine txs →
  claimedConnectPost height_ txs w w'.
Proof.
  intros Hc Hown Hdet. pose proof (connectView_Some _ _ _ _ Hc) as Hl.
  assert (is_Some (connectView height_ txs w)) as Hr by eauto.
  apply connectView_is_Some in Hr. split.
  - intros t Ht Hdom. apply elem_of_dom in Hdom as [d Hd].
    exists (connectedEntry height_ txs (tx_Sha t) d). rewrite Hl, Hd.
    split; [done |]. unfold connectedEntry.
    destruct (lastCreated (tx_Sha t) txs) as [t'|] eqn:Hlast.
    + apply lastCreated_Some in Hlast as [Ht' Hsha].
      assert (t' = t) as -> by by apply Hdet. simpl. split_and!; [done..|].
      rewrite spendsOf_since_not_origin; [done |].
      apply Hown; [done |]. apply elem_of_dom. eauto.
    + apply lastCreated_None in Hlast. exfalso. apply Hlast.
      by apply list_elem_of_fmap_2.
  - intros t txIn Ht Hin Hdom. apply elem_of_dom in Hdom as [d Hd].
    set (h := op_Hash (PreviousOutpoint txIn)) in *.
    set (k := N.to_nat (op_Index (PreviousOutpoint txIn))).
    assert (h ∈ originsOf txs) as Horigin by (apply originsOf_elem; eauto).
    assert (h ∉ tx_Sha <$> txs) as Hnot.
    { intros (t' & Hsha & Ht')%list_elem_of_fmap.
      apply (Hown t' Ht'); rewrite <- Hsha; [|done]. apply elem_of_dom. eauto. }
    exists (connectedEntry height_ txs h d). rewrite Hl, Hd. split; [done |].
    unfold connectedEntry. rewrite (proj2 (lastCreated_None h txs) Hnot). simpl.
    rewrite setAll_lookup. rewrite decide_True; [done |]. split.
    + apply spendsOf_elem. by exists t, txIn.
    + apply list_elem_of_lookup in Ht as [i Hi].
      apply (Hr i t Hi txIn); [done |]. fold h.
      unfold lengthAtConnect, bitmapLength. rewrite Hd. simpl.
      by rewrite (proj2 (lastCreated_None h _) (not_elem_of_take_hashes _ _ _ Hnot)).
Qed.

(** ** The two kinds of update in either order *)

Lemma recordAllView_lookup height_ txs : ∀ w h,
  recordAllView height_ txs w !! h =
  (λ d, match lastCreated h txs with
        | Some t => {| s_tx := Some t; s_hash := s_hash d; s_blockHeight := height_;
                       s_spent := replicate (length (tx_TxOut t)) false;
                       s_err := None |}
        | None => d
        end) <$> w !! h.
Proof.
  unfold recordAllView.
  induction txs as [|t rest IH]; intros w h; cbn [foldl lastCreated].
  - by destruct (w !! h).
  - rewrite IH, recordTxView_lookup. destruct (w !! h) as [d|]; [|done].
    cbv [fmap option_fmap option_map]. f_equal.
    destruct (lastCreated h rest); by case_decide.
Qed.

Lemma spendsOfInputs_bind h txs : spendsOfInputs h (txs ≫= tx_TxIn) = spendsOf h txs.
Proof.
  induction txs as [|t rest IH]; [done |].
  rewrite spendsOf_cons, <- IH. apply spendsOfInputs_app.
Qed.

Lemma inputsInRange_bind f txs :
  inputsInRange f (txs ≫= tx_TxIn) ↔ ∀ t, t ∈ txs → inputsInRange f (tx_TxIn t).
Proof.
  unfold inputsInRange. split.
  - intros H t Ht txIn n Hin. apply H. apply list_elem_of_bind. eauto.
  - intros H txIn n Hin. apply list_elem_of_bind in Hin as (t & Hin & Ht). by eapply H.
Qed.

Lemma inputsInRange_ext_on f g txIns :
  (∀ txIn, txIn ∈ txIns →
     f (op_Hash (PreviousOutpoint txIn)) = g (op_Hash (PreviousOutpoint txIn))) →
  inputsInRange f txIns ↔ inputsInRange g txIns.
Proof.
  intros E. unfold inputsInRange.
  split; intros H txIn n Hin Hn; apply (H txIn n Hin).
  - by rewrite E.
  - by rewrite <- E.
Qed.

Lemma spendsNoOwn_not_created w txs h :
  spendsNoOwn w txs → is_Some (w !! h) → h ∈ originsOf txs → h ∉ tx_Sha <$> txs.
Proof.
  intros Hown Hd Ho (t & -> & Ht)%list_elem_of_fmap.
  apply (Hown t Ht); [by apply elem_of_dom | done].
Qed.

Lemma spendsNoOwn_in_range w txs :
  spendsNoOwn w txs → connectInRange w txs ↔ originsInRange w txs.
Proof.
  intros Hown. unfold connectInRange, originsInRange. split.
  - intros H t Ht. apply list_elem_of_lookup in Ht as [i Hi].
    apply (inputsInRange_ext_on (lengthAtConnect w (take (S i) txs))); [|by apply H].
    intros txIn Hin. unfold lengthAtConnect, bitmapLength.
    destruct (w !! _) as [d|] eqn:Hd; [|done]. simpl.
    rewrite (proj2 (lastCreated_None _ _)); [done |].
    apply not_elem_of_take_hashes. apply (spendsNoOwn_not_created w); [done | by eauto |].
    apply originsOf_elem. exists t, txIn. split_and!; [|done..].
    by eapply list_elem_of_lookup_2.
  - intros H i t Hi.
    apply (inputsInRange_ext_on (bitmapLength w));
      [|by apply H, (list_elem_of_lookup_2 _ i)].
    intros txIn Hin. unfold lengthAtConnect, bitmapLength.
    destruct (w !! _) as [d|] eqn:Hd; [|done]. simpl.
    rewrite (proj2 (lastCreated_None _ _)); [done |].
    apply not_elem_of_take_hashes. apply (spendsNoOwn_not_created w); [done | by eauto |].
    apply originsOf_elem. exists t, txIn. split_and!; [|done..].
    by eapply list_elem_of_lookup_2.
Qed.

Lemma connectedEntry_no_own height_ txs w h d :
  spendsNoOwn w txs → w !! h = Some d →
  connectedEntry height_ txs h d =
  match lastCreated h txs with
  | Some t => {| s_tx := Some t; s_hash := s_hash d; s_blockHeight := height_;
                 s_spent := replicate (length (tx_TxOut t)) false; s_err := None |}
  | None => withSpent (setAll true (spendsOf h txs) (s_spent d)) d
  end.
Proof.
  intros Hown Hd. unfold connectedEntry.
  destruct (lastCreated h txs) as [t|] eqn:Hl; [|done].
  apply lastCreated_Some in Hl as [Ht <-].
  rewrite spendsOf_since_not_origin; [done |].
  apply Hown; [done |]. apply elem_of_dom. eauto.
Qed.

Lemma option_eq_by {A} (o1 o2 : option A) (P : Prop) :
  (is_Some o1 ↔ P) → (is_Some o2 ↔ P) →
  (∀ a1 a2, o1 = Some a1 → o2 = Some a2 → a1 = a2) → o1 = o2.
Proof.
  intros H1 H2 He. destruct o1 as [a1|], o2 as [a2|].
  - f_equal. by apply He.
  - assert (is_Some (@None A)) as [? ?]; [|done]. apply H2, H1. eauto.
  - assert (is_Some (@None A)) as [? ?]; [|done]. apply H1, H2. eauto.
  - done.
Qed.

(** When no input of the block references a transaction of the block that
    is a key, the loop of [connectTransactions] computes what either order
    of the two passes computes. *)
Lemma connect_order_irrelevant height_ txs w :
  spendsNoOwn w txs →
  connectView height_ txs w = connectRecordFirst height_ txs w ∧
  connectView height_ txs w = connectSpendFirst height_ txs w.
Proof.
  intros Hown.
  assert (is_Some (connectView height_ txs w) ↔ originsInRange w txs) as Hc.
  { by rewrite connectView_is_Some, spendsNoOwn_in_range. }
  assert (∀ h d, w !! h = Some d → h ∈ originsOf txs → lastCreated h txs = None) as Hnone.
  { intros h d Hd Ho. apply lastCreated_None.
    apply (spendsNoOwn_not_created w); eauto. }
  split.
  - apply (option_eq_by _ _ (originsInRange w txs)); [done | |].
    + unfold connectRecordFirst, spendAllView.
      rewrite setSpentsView_is_Some, inputsInRange_bind. unfold originsInRange.
      apply forall_proper. intros t. apply forall_proper. intros Ht.
      apply inputsInRange_ext_on. intros txIn Hin.
      unfold bitmapLength. rewrite recordAllView_lookup.
      destruct (w !! _) as [d|] eqn:Hd; [|done]. simpl.
      rewrite (Hnone _ d Hd); [done |]. apply originsOf_elem. by exists t, txIn.
    + intros w1 w2 H1 H2. apply map_eq. intros h.
      rewrite (connectView_Some _ _ _ _ H1 h).
      unfold connectRecordFirst, spendAllView in H2.
      rewrite (setSpentsView_Some _ _ _ _ H2 h), recordAllView_lookup, spendsOfInputs_bind.
      destruct (w !! h) as [d|] eqn:Hd; [|done].
      cbv [fmap option_fmap option_map]. f_equal.
      rewrite (connectedEntry_no_own _ _ w) by done.
      destruct (lastCreated h txs) as [t|] eqn:Hl; [|done].
      rewrite spendsOf_not_origin.
      * unfold withSpent. done.
      * intros Ho. by rewrite (Hnone h d Hd Ho) in Hl.
  - apply (option_eq_by _ _ (originsInRange w txs)); [done | |].
    + unfold connectSpendFirst, spendAllView. rewrite fmap_is_Some.
      by rewrite setSpentsView_is_Some, inputsInRange_bind.
    + intros w1 w2 H1 H2. apply map_eq. intros h.
      rewrite (connectView_Some _ _ _ _ H1 h).
      unfold connectSpendFirst, spendAllView in H2.
      destruct (setSpentsView true (txs ≫= tx_TxIn) w) as [w0|] eqn:H0; [|done].
      injection H2 as <-.
      rewrite recordAllView_lookup, (setSpentsView_Some _ _ _ _ H0 h), spendsOfInputs_bind.
      destruct (w !! h) as [d|] eqn:Hd; [|done].
      cbv [fmap option_fmap option_map]. f_equal.
      rewrite (connectedEntry_no_own _ _ w) by done.
      by destruct (lastCreated h txs).
Qed.

(** The order matters when the block spends an output of one of its own
    transactions: with [exT1] a key, the loop and the pass of the entry
    updates first leave output 0 of [exT1] spent, the pass of the spends
    first leaves it unspent. *)
Lemma connect_order_matters :
  connectView 5 [exT1; exT2] exViewKnown = connectRecordFirst 5 [exT1; exT2] exViewKnown ∧
  connectView 5 [exT1; exT2] exViewKnown ≠ connectSpendFirst 5 [exT1; exT2] exViewKnown.
Proof.
  split; [by vm_compute |]. intros H.
  apply (f_equal (λ o, o ≫= (λ w, s_spent <$> w !! 11%N))) in H. by vm_compute in H.
Qed.

(** C2, as amended: on a store that owns its bitmaps, a call of
    [connectTransactions] that returns returns no error and leaves, for every
    key [h] of the store, the entry [connectedEntry]: when the block has a
    transaction with hash [h], the body of the last such transaction, the
    height of the block, success, and a bitmap of the length of its outputs
    that is false except at the indices referenced by the inputs of that
    transaction and of the transactions after it; otherwise the entry as it
    was, the indices referenced by the inputs of the block marked.  Keys are
    neither added nor removed.  When no input of the block references a
    transaction of the block that is a key, the result is the one of the two
    passes (entry updates, spends) in either order, and the postcondition is
    the one the specification words. *)
Theorem connectTransactions_post m v block :
  wf m v →
  whenReturned (connectTransactions v block m) (λ r m',
    r.2 = None ∧
    (∀ h, view m' r.1 !! h =
          connectedEntry (Height block) (Transactions block) h <$> view m v !! h) ∧
    (spendsNoOwn (view m v) (Transactions block) →
     Some (view m' r.1) =
       connectRecordFirst (Height block) (Transactions block) (view m v) ∧
     Some (view m' r.1) =
       connectSpendFirst (Height block) (Transactions block) (view m v) ∧
     (hashesDetermine (Transactions block) →
      claimedConnectPost (Height block) (Transactions block) (view m v) (view m' r.1)))).
Proof.
  intros W.
  destruct (connectTransactions v block m) as [[v' e] m'|] eqn:Hc; [|done]. simpl.
  destruct (connectTransactions_Returned _ _ _ _ _ _ W Hc) as (He & Hv & _ & _).
  split_and!; [done | by apply connectView_Some |].
  intros Hown.
  destruct (connect_order_irrelevant (Height block) (Transactions block) (view m v) Hown)
    as [Hr Hs].
  rewrite <- Hr, <- Hs, Hv. split_and!; [done | done |].
  intros Hdet. by apply claimedConnectPost_holds.
Qed.

Lemma connectTransactions_post_witness :
  returns (connectTransactions exStore exBlock exMem) ∧
  whenReturned (connectTransactions exStore exBlock exMem) (λ r m',
    r.2 = None ∧
    (∀ h, view m' r.1 !! h =
          connectedEntry (Height exBlock) (Transactions exBlock) h <$>
            view exMem exStore !! h) ∧
    (spendsNoOwn (view exMem exStore) (Transactions exBlock) →
     Some (view m' r.1) =
       connectRecordFirst (Height exBlock) (Transactions exBlock) (view exMem exStore) ∧
     Some (view m' r.1) =
       connectSpendFirst (Height exBlock) (Transactions exBlock) (view exMem exStore) ∧
     (hashesDetermine (Transactions exBlock) →
      claimedConnectPost (Height exBlock) (Transactions exBlock)
                         (view exMem exStore) (view m' r.1)))).
Proof.
  split; [by eexists _, _ |].
  apply (connectTransactions_post exMem exStore exBlock). apply wf_exStore.
Defined.

(** C2 as the specification words it fails: when [exT2] spends the first
    output of [exT1] in the same block, the entry of [exT1] ends with the
    bitmap [true; false], not with an all-false one. *)
Lemma connectTransactions_post_counterexample :
  ¬ (∀ m v block, wf m v →
       whenReturned (connectTransactions v block m) (λ r m',
         claimedConnectPost (Height block) (Transactions block)
                            (view m v) (view m' r.1))).
Proof.
  intros H. specialize (H exMem exStore exBlock (wf_exStore _)).
  destruct (connectTransactions exStore exBlock exMem) as [[v' e] m'|] eqn:Hc;
    [|by vm_compute in Hc].
  vm_compute in Hc. injection Hc as <- <- <-.
  destruct H as [H _]. destruct (H exT1) as (d & Hd & _ & _ & Hs).
  - by left.
  - apply elem_of_dom. by eexists.
  - vm_compute in Hd. injection Hd as <-. by vm_compute in Hs.
Qed.

Lemma disconnect_connectedEntry height_ txs h d :
  h ∉ tx_Sha <$> txs →
  disconnectedEntry txs h (connectedEntry height_ txs h d) = disconnectedEntry txs h d.
Proof.
  intros Hh. unfold disconnectedEntry, connectedEntry.
  rewrite (proj2 (lastCreated_None h txs) Hh). unfold withSpent. simpl.
  by rewrite setAll_setAll.
Qed.

Lemma disconnectedEntry_unspent txs h d :
  (∀ k, k ∈ spendsOf h txs → s_spent d !! k ≠ Some true) →
  disconnectedEntry txs h d = d.
Proof.
  intros H. unfold disconnectedEntry. rewrite setAll_unchanged; [|done].
  apply withSpent_id.
Qed.

(** C3, as amended: on a store that owns its bitmaps, when
    [connectTransactions] and then [disconnectTransactions] of the same block
    return, the entries of the block's own transactions are absent, and every
    other entry is the one before the connect with the flags of the outputs
    the block's inputs reference cleared.  The view is the one before the
    connect (the block's own entries apart) when every output the block spends
    was unspent before the connect. *)
Theorem connect_then_disconnect m v block :
  wf m v →
  whenReturned (connectTransactions v block m) (λ r1 m1,
    whenReturned (disconnectTransactions r1.1 block m1) (λ r2 m2,
      (∀ h, view m2 r2.1 !! h =
            if decide (h ∈ tx_Sha <$> Transactions block) then None
            else disconnectedEntry (Transactions block) h <$> view m v !! h) ∧
      (spendsUnspent (view m v) (Transactions block) →
       view m2 r2.1 = withoutBlock (Transactions block) (view m v)))).
Proof.
  intros W.
  destruct (connectTransactions v block m) as [[v1 e1] m1|] eqn:Hc; [|done]. simpl.
  destruct (connectTransactions_Returned _ _ _ _ _ _ W Hc) as (_ & Hv1 & W1 & _).
  destruct (disconnectTransactions v1 block m1) as [[v2 e2] m2|] eqn:Hd; [|done]. simpl.
  destruct (disconnectTransactions_Returned _ _ _ _ _ _ W1 Hd) as (_ & Hv2 & _ & _).
  pose proof (connectView_Some _ _ _ _ Hv1) as Hl1.
  pose proof (disconnectView_Some _ _ _ Hv2) as Hl2.
  assert (∀ h, view m2 v2 !! h =
            if decide (h ∈ tx_Sha <$> Transactions block) then None
            else disconnectedEntry (Transactions block) h <$> view m v !! h) as Hl.
  { intros h. rewrite Hl2. case_decide as Hh; [done |]. rewrite Hl1.
    destruct (view m v !! h) as [d|]; [|done]. simpl.
    by rewrite disconnect_connectedEntry. }
  split; [done |]. intros Hu. apply map_eq. intros h. rewrite Hl.
  unfold withoutBlock. case_decide as Hh.
  - symmetry. apply map_lookup_filter_None. right. intros d _. simpl. tauto.
  - destruct (view m v !! h) as [d|] eqn:Hd'; simpl.
    + symmetry. apply map_lookup_filter_Some. split; [|done].
      rewrite Hd'. f_equal. symmetry. apply disconnectedEntry_unspent.
      intros k. by apply Hu.
    + symmetry. apply map_lookup_filter_None. by left.
Qed.

Lemma connect_then_disconnect_witness :
  returns (connectTransactions exStoreKnown exBlockSpend exMemUnspent) ∧
  whenReturned (connectTransactions exStoreKnown exBlockSpend exMemUnspent) (λ r1 m1,
    returns (disconnectTransactions r1.1 exBlockSpend m1)) ∧
  whenReturned (connectTransactions exStoreKnown exBlockSpend exMemUnspent) (λ r1 m1,
    whenReturned (disconnectTransactions r1.1 exBlockSpend m1) (λ r2 m2,
      (∀ h, view m2 r2.1 !! h =
            if decide (h ∈ tx_Sha <$> Transactions exBlockSpend) then None
            else disconnectedEntry (Transactions exBlockSpend) h <$>
                   view exMemUnspent exStoreKnown !! h) ∧
      (spendsUnspent (view exMemUnspent exStoreKnown) (Transactions exBlockSpend) →
       view m2 r2.1 =
       withoutBlock (Transactions exBlockSpend) (view exMemUnspent exStoreKnown)))).
Proof.
  split; [by eexists _, _ |]. split; [vm_compute; by eexists _, _ |].
  apply (connect_then_disconnect exMemUnspent exStoreKnown exBlockSpend).
  apply wf_exStoreKnown. simpl. lia.
Defined.

(** C3 as the specification words it fails: [exT3]'s first output is spent
    before the connect; [exBlockSpend] spends it again; after the connect and
    the disconnect the flag is false, not the value before the connect. *)
Lemma connect_then_disconnect_counterexample :
  ¬ (∀ m v block, wf m v →
       whenReturned (connectTransactions v block m) (λ r1 m1,
         whenReturned (disconnectTransactions r1.1 block m1) (λ r2 m2,
           view m2 r2.1 = withoutBlock (Transactions block) (view m v)))).
Proof.
  intros H.
  assert (wf exMemSpent exStoreKnown) as W by (apply wf_exStoreKnown; simpl; lia).
  specialize (H exMemSpent exStoreKnown exBlockSpend W).
  vm_compute in H. discriminate H.
Qed.

Lemma originsInRange_disconnectInRange w txs :
  originsInRange w txs → disconnectInRange w txs.
Proof.
  intros H i t Hi txIn n Hin Hn. apply (H t (list_elem_of_lookup_2 _ _ _ Hi) txIn n Hin).
  unfold lengthAtDisconnect in Hn. by case_decide.
Qed.

(** C9, as amended: on a store that owns its bitmaps, [connectTransactions]
    returns (no indexed store is out of range) exactly when every input whose
    origin is a key references an index below the length the origin's bitmap
    has when the input is processed: the output count of the last transaction
    with the origin's hash at or before the spender in the block, and the
    length in the store before the call when there is none.
    [disconnectTransactions] returns exactly when every input whose origin is
    a key, and not the hash of a transaction at or before the spender (whose
    entry is deleted by then), references an index below the length of the
    origin's bitmap.  The precondition on the store before the call, as the
    specification words it, is enough for [disconnectTransactions]; it is
    the exact condition for [connectTransactions] when no input of the block
    references a transaction of the block that is a key. *)
Theorem mutators_in_range m v block :
  wf m v →
  (returns (connectTransactions v block m) ↔
   connectInRange (view m v) (Transactions block)) ∧
  (returns (disconnectTransactions v block m) ↔
   disconnectInRange (view m v) (Transactions block)) ∧
  (originsInRange (view m v) (Transactions block) →
   returns (disconnectTransactions v block m)) ∧
  (spendsNoOwn (view m v) (Transactions block) →
   (returns (connectTransactions v block m) ↔
    originsInRange (view m v) (Transactions block))).
Proof.
  intros W.
  destruct (connectTransactions_follows m v block W) as [Fc _].
  destruct (disconnectTransactions_follows m v block W) as [Fd _].
  apply follows_returns in Fc, Fd.
  rewrite connectView_is_Some in Fc. rewrite disconnectView_is_Some in Fd.
  split_and!; [done | done | |].
  - intros H. apply Fd. by apply originsInRange_disconnectInRange.
  - intros Hown. by rewrite Fc, spendsNoOwn_in_range.
Qed.

Lemma mutators_in_range_witness :
  (returns (connectTransactions exStore exBlock exMem) ↔
   connectInRange (view exMem exStore) (Transactions exBlock)) ∧
  (returns (disconnectTransactions exStore exBlock exMem) ↔
   disconnectInRange (view exMem exStore) (Transactions exBlock)) ∧
  (originsInRange (view exMem exStore) (Transactions exBlock) →
   returns (disconnectTransactions exStore exBlock exMem)) ∧
  (spendsNoOwn (view exMem exStore) (Transactions exBlock) →
   (returns (connectTransactions exStore exBlock exMem) ↔
    originsInRange (view exMem exStore) (Transactions exBlock))).
Proof. apply (mutators_in_range exMem exStore exBlock). apply wf_exStore. Defined.

(** C9 as the specification words it fails: the entry of [exT1] holds the
    missing placeholder (a nil bitmap) and [exT2] references its output 0, yet
    [connectTransactions] returns, because [exT1] stands before [exT2] in the
    block and its entry has a fresh bitmap by then; and
    [disconnectTransactions] returns, because the entry is deleted by then. *)
Lemma mutators_in_range_counterexample :
  ¬ (∀ m v block, wf m v →
       (returns (connectTransactions v block m) →
        originsInRange (view m v) (Transactions block)) ∧
       (returns (disconnectTransactions v block m) →
        originsInRange (view m v) (Transactions block))).
Proof.
  intros H. destruct (H exMem exStore exBlock (wf_exStore _)) as [Hc _].
  assert (returns (connectTransactions exStore exBlock exMem)) as Hr
    by by eexists _, _.
  specialize (Hc Hr exT2). 
  assert (exT2 ∈ Transactions exBlock) as Hin by (right; left).
  specialize (Hc Hin (outpoint 11%N 0%N) 0).
  assert (0 < 0); [|lia]. apply Hc; [by left | done].
Qed.

(** * The resolver *)

(** ** Memories that differ in the call log only *)

Lemma contents_arrays m1 m2 (s : slice) :
  arrays m1 = arrays m2 → contents m1 s = contents m2 s.
Proof. intros E. unfold contents. by rewrite E. Qed.

Lemma view_arrays m1 m2 v : arrays m1 = arrays m2 → view m1 v = view m2 v.
Proof.
  intros E. apply map_eq. intros h. rewrite !view_lookup.
  destruct (v !! h) as [d|]; [|done]. simpl. unfold observe.
  by rewrite (contents_arrays m1 m2).
Qed.

Lemma wf_arrays m1 m2 v : arrays m1 = arrays m2 → wf m1 v → wf m2 v.
Proof. intros E W h d l Hh Hs. rewrite <- E. by apply (W h d l). Qed.

Lemma grows_refl m v : grows m v m v.
Proof. split; auto. Qed.

Lemma grows_trans m1 v1 m2 v2 m3 v3 :
  grows m1 v1 m2 v2 → grows m2 v2 m3 v3 → grows m1 v1 m3 v3.
Proof.
  intros [L1 F1 O1] [L2 F2 O2]. split.
  - lia.
  - intros l Hl Hn. rewrite F2; [by apply F1 | lia |].
    intros Ho. apply Hn. by apply O1.
  - intros l Hl Ho. apply O1; [done |]. apply O2; [lia | done].
Qed.

Lemma evolves_grows m v m' v' : evolves m v m' v' → grows m v m' v'.
Proof. intros [L F O _]. by split. Qed.

Lemma grows_arrays m0 m v m' v' :
  arrays m0 = arrays m → grows m v m' v' → grows m0 v m' v'.
Proof. intros E [L F O]. rewrite <- E in L, F, O. by split. Qed.

(** ** Steps 1 and 2: the baseline *)

Lemma foldl_insert_lookup {A} (f : N → A) (l : list N) : ∀ (acc : gmap N A) h,
  foldl (λ s k, <[k := f k]> s) acc l !! h =
  if decide (h ∈ l) then Some (f h) else acc !! h.
Proof.
  induction l as [|k l IH]; intros acc h; cbn [foldl].
  - case_decide as H; [by apply elem_of_nil in H | done].
  - rewrite IH. destruct (decide (h = k)) as [->|Hne].
    + rewrite lookup_insert_eq. repeat case_decide; try done; exfalso; set_solver.
    + rewrite lookup_insert_ne by done.
      repeat case_decide; try done; exfalso; set_solver.
Qed.

Lemma missingStore_lookup txList h :
  missingStore txList !! h = if decide (h ∈ txList) then Some (missingTxData h) else None.
Proof. unfold missingStore. by rewrite foldl_insert_lookup, lookup_empty. Qed.

Lemma missingView_lookup txList h :
  missingView txList !! h = if decide (h ∈ txList) then Some (missingState h) else None.
Proof. unfold missingView. by rewrite foldl_insert_lookup, lookup_empty. Qed.

Lemma missingStore_dom txList : dom (missingStore txList) = list_to_set txList.
Proof.
  apply set_eq. intros h. rewrite elem_of_dom, elem_of_list_to_set, missingStore_lookup.
  case_decide; [by split; eauto | split; [by intros [? ?] | done]].
Qed.

Lemma view_missingStore m txList : view m (missingStore txList) = missingView txList.
Proof.
  apply map_eq. intros h. rewrite view_lookup, missingStore_lookup, missingView_lookup.
  by case_decide.
Qed.

Lemma missingStore_owns txList l : ¬ owns (missingStore txList) l.
Proof.
  intros (h & d & Hh & Hs). rewrite missingStore_lookup in Hh.
  case_decide; [|done]. by injection Hh as <-.
Qed.

Lemma wf_missingStore m txList : wf m (missingStore txList).
Proof.
  intros h d l Hh Hs. exfalso. apply (missingStore_owns txList l). by exists h, d.
Qed.

(** The three cases of the loop body over the replies, computed. *)
Lemma applyReply_absent v txReply m :
  v !! reply_Sha txReply = None → applyReply v txReply m = Returned v m.
Proof. intros H. unfold applyReply. by rewrite H. Qed.

Lemma applyReply_error v txReply m txD e :
  v !! reply_Sha txReply = Some txD → reply_Err txReply = Some e →
  applyReply v txReply m =
  Returned (<[reply_Sha txReply := {| tx := tx txD; hash := hash txD;
                                      blockHeight := blockHeight txD;
                                      spent := spent txD; err := Some e |}]> v) m.
Proof. intros H He. unfold applyReply. by rewrite H, He. Qed.

Lemma applyReply_hit v txReply m txD :
  v !! reply_Sha txReply = Some txD → reply_Err txReply = None →
  (∀ l, reply_TxSpent txReply = Some l → l < length (arrays m)) →
  applyReply v txReply m =
  Returned (<[reply_Sha txReply := {| tx := reply_Tx txReply; hash := hash txD;
                                      blockHeight := reply_Height txReply;
                                      spent := Some (length (arrays m));
                                      err := None |}]> v)
           {| arrays := arrays m ++ [contents m (reply_TxSpent txReply)];
              calls := calls m |}.
Proof.
  intros H He Ha. unfold applyReply. rewrite H, He.
  unfold bind, len, make, copy, ret. simpl.
  set (src := contents m (reply_TxSpent txReply)).
  assert (contents {| arrays := arrays m ++ [replicate (length src) false];
                      calls := calls m |} (reply_TxSpent txReply) = src) as ->.
  { unfold src, contents. destruct (reply_TxSpent txReply) as [l|]; [|done]. simpl.
    by rewrite lookup_app_l by auto. }
  rewrite lookup_app_r by done. rewrite Nat.sub_diag. simpl.
  rewrite length_replicate, firstn_all, drop_replicate, Nat.sub_diag. simpl.
  rewrite app_nil_r. f_equal. f_equal.
  rewrite insert_app_r_alt by done. by rewrite Nat.sub_diag.
Qed.

Lemma alloc_insert m v h d' a :
  wf m v → spent d' = Some (length (arrays m)) →
  let m' := {| arrays := arrays m ++ [a]; calls := calls m |} in
  view m' (<[h := d']> v) = <[h := observe m' d']> (view m v) ∧
  wf m' (<[h := d']> v) ∧
  evolves m v m' (<[h := d']> v).
Proof.
  intros W Hs m'.
  assert (Hold : ∀ h1 d1 l1, v !! h1 = Some d1 → spent d1 = Some l1 →
            arrays m' !! l1 = arrays m !! l1).
  { intros h1 d1 l1 Hh1 Hs1. apply lookup_app_l. by eapply wf_lookup_lt. }
  split_and!.
  - apply map_eq. intros h1. rewrite view_lookup.
    destruct (decide (h1 = h)) as [->|Hne].
    + by rewrite !lookup_insert_eq.
    + rewrite !lookup_insert_ne by done. rewrite view_lookup.
      destruct (v !! h1) as [d1|] eqn:Hh1; simpl; [|done]. f_equal.
      unfold observe. f_equal. apply contents_frame. intros l1 Hs1. eauto.
  - intros h1 d1 l1 Hh1 Hs1. simpl. rewrite length_app. simpl.
    destruct (decide (h1 = h)) as [->|Hne].
    + rewrite lookup_insert_eq in Hh1. injection Hh1 as <-.
      rewrite Hs in Hs1. injection Hs1 as <-. split; [lia |].
      intros h2 d2 Hh2 Hs2. destruct (decide (h2 = h)) as [|Hne2]; [done |].
      rewrite lookup_insert_ne in Hh2 by done.
      pose proof (wf_lookup_lt _ _ _ _ _ W Hh2 Hs2). lia.
    + rewrite lookup_insert_ne in Hh1 by done.
      pose proof (wf_lookup_lt _ _ _ _ _ W Hh1 Hs1). split; [lia |].
      intros h2 d2 Hh2 Hs2. destruct (decide (h2 = h)) as [->|Hne2].
      * rewrite lookup_insert_eq in Hh2. injection Hh2 as <-.
        rewrite Hs in Hs2. injection Hs2 as <-. lia.
      * rewrite lookup_insert_ne in Hh2 by done. by eapply wf_inj.
  - split; simpl.
    + rewrite length_app. lia.
    + intros l Hl _. by apply lookup_app_l.
    + intros l Hl (h1 & d1 & Hh1 & Hs1).
      destruct (decide (h1 = h)) as [->|Hne].
      * rewrite lookup_insert_eq in Hh1. injection Hh1 as <-.
        rewrite Hs in Hs1. injection Hs1 as <-. lia.
      * rewrite lookup_insert_ne in Hh1 by done. by exists h1, d1.
    + done.
Qed.

Lemma same_spent_insert m v h d d' :
  wf m v → v !! h = Some d → spent d' = spent d →
  view m (<[h := d']> v) = <[h := observe m d']> (view m v) ∧
  wf m (<[h := d']> v) ∧
  (∀ l, owns (<[h := d']> v) l → owns v l).
Proof.
  intros W Hh Hs. split_and!.
  - unfold view. by rewrite fmap_insert.
  - intros h1 d1 l1 Hh1 Hs1.
    assert (∃ d0, v !! h1 = Some d0 ∧ spent d0 = Some l1) as (d0 & Hd0 & Hs0).
    { destruct (decide (h1 = h)) as [->|Hne].
      - rewrite lookup_insert_eq in Hh1. injection Hh1 as <-. exists d.
        split; [done | congruence].
      - rewrite lookup_insert_ne in Hh1 by done. eauto. }
    split; [by eapply wf_lookup_lt |].
    intros h2 d2 Hh2 Hs2.
    assert (∃ d3, v !! h2 = Some d3 ∧ spent d3 = Some l1) as (d3 & Hd3 & Hs3).
    { destruct (decide (h2 = h)) as [->|Hne].
      - rewrite lookup_insert_eq in Hh2. injection Hh2 as <-. exists d.
        split; [done | congruence].
      - rewrite lookup_insert_ne in Hh2 by done. eauto. }
    by eapply wf_inj.
  - intros l (h1 & d1 & Hh1 & Hs1). destruct (decide (h1 = h)) as [->|Hne].
    + rewrite lookup_insert_eq in Hh1. injection Hh1 as <-. exists h, d.
      split; [done | congruence].
    + rewrite lookup_insert_ne in Hh1 by done. by exists h1, d1.
Qed.

Lemma contents_extends m0 m v (s : slice) :
  extends m0 m v → (∀ l, s = Some l → l < length (arrays m0)) →
  contents m s = contents m0 s.
Proof.
  intros (_ & F & _) Ha. apply contents_frame. intros l Hl. apply F. by apply Ha.
Qed.

Lemma applyReply_sim m0 m v txReply :
  wf m v → extends m0 m v →
  (∀ l, reply_TxSpent txReply = Some l → l < length (arrays m0)) →
  ∃ v' m', applyReply v txReply m = Returned v' m' ∧
    view m' v' = applyReplyView m0 (view m v) txReply ∧
    wf m' v' ∧ extends m0 m' v' ∧ calls m' = calls m.
Proof.
  intros W E Ha. unfold applyReplyView. rewrite view_lookup.
  destruct (v !! reply_Sha txReply) as [txD|] eqn:Hh; simpl.
  2:{ exists v, m. by rewrite applyReply_absent. }
  destruct (reply_Err txReply) as [e|] eqn:He.
  - eexists _, m. rewrite (applyReply_error _ _ _ _ _ Hh He). split; [done |].
    edestruct (same_spent_insert m v (reply_Sha txReply) txD) as (Hv & W' & Ho);
      [done.. | |].
    2:{ rewrite Hv. split_and!; [done | done | | done].
        destruct E as (L & F & O). split_and!; [done..|]. intros l Hl. apply O. eauto. }
    done.
  - destruct E as (L & F & O).
    assert (∀ l, reply_TxSpent txReply = Some l → l < length (arrays m)) as Ha'.
    { intros l Hl. specialize (Ha l Hl). lia. }
    eexists _, _. rewrite (applyReply_hit _ _ _ _ Hh He Ha'). split; [done |].
    edestruct (alloc_insert m v (reply_Sha txReply)) as (Hv & W' & [EL EF EO _]);
      [done | | ].
    2:{ rewrite Hv. split_and!; [| exact W' | | done].
        - f_equal. unfold observe. simpl. f_equal.
          rewrite lookup_app_r by done. rewrite Nat.sub_diag. simpl.
          by apply (contents_extends m0 m v).
        - split_and!; cbn [arrays].
          + rewrite length_app. lia.
          + intros l Hl. rewrite <- F by done. apply lookup_app_l. lia.
          + intros l Hl. destruct (decide (l < length (arrays m))) as [Hlt|]; [|lia].
            apply O. by apply EO. }
    done.
Qed.

Lemma applyReplies_sim m0 txReplyList : ∀ m v,
  wf m v → extends m0 m v → repliesAllocated m0 txReplyList →
  ∃ v' m', applyReplies txReplyList v m = Returned v' m' ∧
    view m' v' = foldl (applyReplyView m0) (view m v) txReplyList ∧
    wf m' v' ∧ extends m0 m' v' ∧ calls m' = calls m.
Proof.
  induction txReplyList as [|r rest IH]; intros m v W E Ha; simpl.
  - by exists v, m.
  - destruct (applyReply_sim m0 m v r W E) as (v1 & m1 & H1 & Hv1 & W1 & E1 & C1).
    { intros l Hl. apply (Ha r l); [by left | done]. }
    destruct (IH m1 v1 W1 E1) as (v2 & m2 & H2 & Hv2 & W2 & E2 & C2).
    { intros r' l Hr'. apply Ha. by right. }
    exists v2, m2. unfold bind. rewrite H1, H2, Hv2, Hv1. split_and!; try done.
    congruence.
Qed.

(** ** Steps 5 and 7: the loops over the detach and attach lists *)

Lemma grows_log m v e :
  grows m v {| arrays := arrays m; calls := calls m ++ [e] |} v.
Proof. by split. Qed.

Section Loops.
Context (b : BlockChain).

Lemma detachLoop_sim nodes : ∀ v m,
  wf m v →
  match detachLoop b nodes v m with
  | Returned (inl v') m' =>
    undoBlocks b nodes (view m v) = Some (Resolved (view m' v')) ∧
    wf m' v' ∧ grows m v m' v'
  | Returned (inr e) m' =>
    undoBlocks b nodes (view m v) = Some (Failed e) ∧ ∃ v', grows m v m' v'
  | Panicked m' => undoBlocks b nodes (view m v) = None
  end.
Proof.
  induction nodes as [|n rest IH]; intros v m W.
  - simpl. split_and!; auto using grows_refl.
  - cbn [detachLoop undoBlocks]. unfold bind at 1. unfold log.
    set (ml := {| arrays := arrays m; calls := calls m ++ [CallFetchBlockBySha (node_hash n)] |}).
    destruct (FetchBlockBySha b (node_hash n)) as [block|e].
    2:{ simpl. split; [done |]. exists v. apply grows_log. }
    assert (wf ml v) as Wl by by apply (wf_arrays m).
    destruct (disconnectTransactions_follows ml v block Wl) as [F _].
    rewrite (view_arrays ml m) in F by done.
    unfold bind. unfold follows in F.
    destruct (disconnectTransactions v block ml) as [[v1 e1] m1|m1].
    + destruct F as (-> & W1 & E1). cbn [fst mbind option_bind].
      specialize (IH v1 m1 W1).
      assert (grows m v m1 v1) as G1.
      { apply (grows_arrays m ml); [done |]. by apply evolves_grows. }
      destruct (detachLoop b rest v1 m1) as [[v2|e2] m2|m2]; [| |done].
      * destruct IH as (-> & W2 & G2). split_and!; [done..|].
        by eapply grows_trans.
      * destruct IH as (-> & v' & G2). split; [done |]. exists v'.
        by eapply grows_trans.
    + by rewrite F.
Qed.

Lemma attachLoop_sim nodes : ∀ v m,
  wf m v →
  match attachLoop b nodes v m with
  | Returned (inl v') m' =>
    redoBlocks b nodes (view m v) = Some (Resolved (view m' v')) ∧
    wf m' v' ∧ grows m v m' v'
  | Returned (inr e) m' =>
    redoBlocks b nodes (view m v) = Some (Failed e) ∧ ∃ v', grows m v m' v'
  | Panicked m' => redoBlocks b nodes (view m v) = None
  end.
Proof.
  induction nodes as [|n rest IH]; intros v m W.
  - simpl. split_and!; auto using grows_refl.
  - cbn [attachLoop redoBlocks]. unfold bind at 1. unfold log.
    set (ml := {| arrays := arrays m; calls := calls m ++ [LookupBlockCache (node_hash n)] |}).
    destruct (blockCache b !! node_hash n) as [block|].
    2:{ simpl. split; [done |]. exists v. apply grows_log. }
    assert (wf ml v) as Wl by by apply (wf_arrays m).
    destruct (connectTransactions_follows ml v block Wl) as [F _].
    rewrite (view_arrays ml m) in F by done.
    unfold bind. unfold follows in F.
    destruct (connectTransactions v block ml) as [[v1 e1] m1|m1].
    + destruct F as (-> & W1 & E1). cbn [fst mbind option_bind].
      specialize (IH v1 m1 W1).
      assert (grows m v m1 v1) as G1.
      { apply (grows_arrays m ml); [done |]. by apply evolves_grows. }
      destruct (attachLoop b rest v1 m1) as [[v2|e2] m2|m2]; [| |done].
      * destruct IH as (-> & W2 & G2). split_and!; [done..|].
        by eapply grows_trans.
      * destruct IH as (-> & v' & G2). split; [done |]. exists v'.
        by eapply grows_trans.
    + by rewrite F.
Qed.

End Loops.

(** ** [fetchTxList] computes the resolution *)

Lemma extends_grows m0 m1 v1 m2 v2 :
  extends m0 m1 v1 → grows m1 v1 m2 v2 → extends m0 m2 v2.
Proof.
  intros (L & F & O) [GL GF GO]. split_and!.
  - lia.
  - intros l Hl. rewrite GF; [by apply F | lia |].
    intros Ho. apply O in Ho. lia.
  - intros l Ho. destruct (decide (l < length (arrays m1))) as [Hlt|]; [|lia].
    apply O. by apply GO.
Qed.

Lemma fetchTxList_sim b node txList m :
  repliesAllocated m (FetchTxByShaList b txList) →
  match fetchTxList b node txList m with
  | Returned (Some v, None) m' =>
    resolveView b m node txList = Some (Resolved (view m' v)) ∧
    wf m' v ∧ extends m m' v
  | Returned (None, Some e) m' =>
    resolveView b m node txList = Some (Failed e) ∧ ∃ v', extends m m' v'
  | Returned _ _ => False
  | Panicked _ => resolveView b m node txList = None
  end.
Proof.
  intros Ha. unfold fetchTxList, resolveView. unfold bind at 1. unfold log.
  destruct (getPrevNodeFromNode b node) as [prevNode|e].
  2:{ simpl. split; [done |]. exists ∅. split_and!; [done | done |].
      intros l (h & d & Hh & _). by rewrite lookup_empty in Hh. }
  unfold bind at 1.
  set (m1 := {| arrays := arrays m;
                calls := (calls m ++ [CallGetPrevNodeFromNode node]) ++
                         [CallFetchTxByShaList txList] |}).
  destruct (applyReplies_sim m (FetchTxByShaList b txList) m1 (missingStore txList))
    as (v2 & m2 & H2 & Hv2 & W2 & E2 & C2).
  { apply wf_missingStore. }
  { split_and!; [done | done |]. intros l Ho. by apply missingStore_owns in Ho. }
  { done. }
  rewrite view_missingStore in Hv2. fold (baselineView m (FetchTxByShaList b txList) txList) in Hv2.
  unfold bind at 1. simpl. fold m1. rewrite H2.
  destruct (extendsBestChain b prevNode).
  { simpl. by rewrite Hv2. }
  unfold bind at 1. simpl.
  set (m3 := {| arrays := arrays m2; calls := calls m2 ++ [CallGetReorganizeNodes prevNode] |}).
  destruct (getReorganizeNodes b prevNode) as [detachNodes attachNodes].
  assert (wf m3 v2) as W3 by by apply (wf_arrays m2).
  assert (extends m m3 v2) as E3.
  { destruct E2 as (? & ? & ?). by split_and!. }
  pose proof (detachLoop_sim b detachNodes v2 m3 W3) as Hd.
  rewrite (view_arrays m3 m2), Hv2 in Hd by done.
  unfold bind at 1.
  destruct (detachLoop b detachNodes v2 m3) as [[v4|e4] m4|m4]; [| | by rewrite Hd].
  2:{ destruct Hd as (-> & v' & G). simpl. split; [done |]. exists v'.
      by apply (extends_grows m m3 v2). }
  destruct Hd as (-> & W4 & G4).
  assert (extends m m4 v4) as E4 by by apply (extends_grows m m3 v2).
  destruct attachNodes as [|n attachNodes].
  { simpl. done. }
  rewrite decide_False by done.
  pose proof (attachLoop_sim b (n :: attachNodes) v4 m4 W4) as Hat.
  unfold bind.
  destruct (attachLoop b (n :: attachNodes) v4 m4) as [[v5|e5] m5|m5];
    [| | by rewrite Hat].
  - destruct Hat as (-> & W5 & G5). simpl. split_and!; [done..|].
    by apply (extends_grows m m4 v4).
  - destruct Hat as (-> & v' & G5). simpl. split; [done |]. exists v'.
    by apply (extends_grows m m4 v4).
Qed.

Lemma exReplies_allocated best cache txList :
  repliesAllocated exMemUnspent (FetchTxByShaList (exChain best cache) txList).
Proof.
  intros r l Hr Hl. simpl in Hr. apply list_elem_of_fmap in Hr as (h & -> & _).
  unfold exReply in Hl. case_decide; [|done]. injection Hl as <-. simpl. lia.
Qed.

(** * The resolver: the claims *)

(** C1, on the code: the requested hash 11 has no entry in the view
    [fetchTxList] returns without error.  The node 201 forks off below the
    tip; the tip's block, which holds transaction 11, is in the detach list,
    and [disconnectTransactions] deletes the entry instead of marking it
    missing. *)
Lemma fetchTxList_drops_requested_key :
  ∃ v m', fetchTxList (exChain (Some exTip) ∅) exSide [11%N] exMemUnspent =
            Returned (Some v, None) m' ∧
          11%N ∈ [11%N] ∧ 11%N ∉ dom v.
Proof. eexists _, _. split; [vm_compute; reflexivity |]. split; [by left | done]. Qed.

(** C4, as amended: a call of [fetchTxList] that returns (no mutator panics)
    returns either a view and no error, and the view is the resolution of the
    specification's steps, every effect applied, or an error and no view. *)
Theorem fetchTxList_no_partial_view b node txList m :
  repliesAllocated m (FetchTxByShaList b txList) →
  match fetchTxList b node txList m with
  | Returned (Some v, None) m' =>
    resolveView b m node txList = Some (Resolved (view m' v))
  | Returned (None, Some e) m' => resolveView b m node txList = Some (Failed e)
  | Returned _ _ => False
  | Panicked _ => resolveView b m node txList = None
  end.
Proof.
  intros Ha. pose proof (fetchTxList_sim b node txList m Ha) as H.
  destruct (fetchTxList b node txList m) as [[[v|] [e|]] m'|]; try done;
    by destruct H.
Qed.

Lemma fetchTxList_no_partial_view_witness :
  match fetchTxList (exChain (Some exTip) ∅) exSide [11%N] exMemUnspent with
  | Returned (Some v, None) m' =>
    resolveView (exChain (Some exTip) ∅) exMemUnspent exSide [11%N] =
    Some (Resolved (view m' v))
  | Returned (None, Some e) m' =>
    resolveView (exChain (Some exTip) ∅) exMemUnspent exSide [11%N] = Some (Failed e)
  | Returned _ _ => False
  | Panicked _ =>
    resolveView (exChain (Some exTip) ∅) exMemUnspent exSide [11%N] = None
  end.
Proof.
  apply (fetchTxList_no_partial_view (exChain (Some exTip) ∅) exSide [11%N] exMemUnspent).
  apply exReplies_allocated.
Defined.

(** C4 as the specification words it fails: a call can end in neither way.
    The side-chain block 201 (in the cache) spends output 0 of transaction
    20, which the database does not know; resolving 20 from the node 202
    indexes the nil bitmap of the missing entry and panics. *)
Lemma fetchTxList_no_partial_view_counterexample :
  ¬ (∀ b node txList m,
       repliesAllocated m (FetchTxByShaList b txList) →
       ∃ r m', fetchTxList b node txList m = Returned r m' ∧
               ((∃ v, r = (Some v, None)) ∨ (∃ e, r = (None, Some e)))).
Proof.
  intros H.
  destruct (H (exChain (Some exTip) {[ 201%N := exBlockSpend ]}) exSideNext [20%N]
              exMemUnspent (exReplies_allocated _ _ _)) as (r & m' & Hr & _).
  vm_compute in Hr. discriminate Hr.
Qed.

(** ** The call log *)

Lemma quiet_ret {A} (a : A) : quiet (ret a).
Proof. intros m a' m' H. by injection H as <- <-. Qed.

Lemma quiet_bind {A B} (c : M A) (f : A → M B) :
  quiet c → (∀ a, quiet (f a)) → quiet (bind c f).
Proof.
  intros Hc Hf m b m' H. apply bind_Returned in H as (a & m1 & H1 & H2).
  rewrite (Hf a m1 b m' H2). by apply (Hc m a).
Qed.

Lemma quiet_make n : quiet (make n).
Proof. intros m a m' H. by injection H as <- <-. Qed.

Lemma quiet_len s : quiet (len s).
Proof. intros m a m' H. by injection H as <- <-. Qed.

Lemma quiet_copy dst src : quiet (copy dst src).
Proof. intros m a m' H. unfold copy in H. destruct dst; by injection H as _ <-. Qed.

Lemma quiet_store s i bit : quiet (store s i bit).
Proof.
  intros m a m' H. unfold store in H. destruct s as [l|]; [|done].
  destruct (arrays m !! l); [|done]. case_decide; [|done]. by injection H as _ <-.
Qed.

Lemma quiet_forM_ {A} (xs : list A) body : (∀ x, quiet (body x)) → quiet (forM_ xs body).
Proof.
  intros Hb. induction xs as [|x rest IH]; simpl; [apply quiet_ret |].
  apply quiet_bind; [apply Hb | done].
Qed.

Create HintDb quiet discriminated.
#[local] Hint Resolve quiet_ret quiet_bind quiet_make quiet_len quiet_copy quiet_store
  quiet_forM_ : quiet.

Lemma quiet_setOriginSpent bit v txIn : quiet (setOriginSpent bit v txIn).
Proof. unfold setOriginSpent. destruct (v !! _); auto with quiet. Qed.

#[local] Hint Resolve quiet_setOriginSpent : quiet.

Lemma quiet_connectLoop block : ∀ txs i v, quiet (connectLoop block i txs v).
Proof.
  induction txs as [|t rest IH]; intros i v; simpl; [auto with quiet |].
  destruct (TxSha block i); [|auto with quiet].
  apply quiet_bind; [destruct (v !! _); auto with quiet |].
  intros v1. apply quiet_bind; auto with quiet.
Qed.

Lemma quiet_disconnectLoop block : ∀ txs i v, quiet (disconnectLoop block i txs v).
Proof.
  induction txs as [|t rest IH]; intros i v; simpl; [auto with quiet |].
  destruct (TxSha block i); [|auto with quiet].
  apply quiet_bind; auto with quiet.
Qed.

Lemma quiet_applyReply v txReply : quiet (applyReply v txReply).
Proof.
  unfold applyReply. destruct (v !! _); [|auto with quiet].
  destruct (reply_Err txReply); auto 6 with quiet.
Qed.

#[local] Hint Resolve quiet_applyReply : quiet.

Lemma quiet_applyReplies txReplyList : ∀ v, quiet (applyReplies txReplyList v).
Proof.
  induction txReplyList as [|r rest IH]; intros v; simpl; auto with quiet.
Qed.

Lemma applyReplies_returns txReplyList : ∀ v m, returns (applyReplies txReplyList v m).
Proof.
  induction txReplyList as [|r rest IH]; intros v m; simpl; [by eexists _, _ |].
  unfold bind. assert (returns (applyReply v r m)) as (v1 & m1 & ->); [|apply IH].
  unfold applyReply. destruct (v !! _); [|by eexists _, _].
  destruct (reply_Err r); [by eexists _, _ |].
  unfold bind, len, make, copy, ret. by eexists _, _.
Qed.

Lemma extendsBestChain_true b prevNode :
  extendsBestChain b prevNode = true ↔
  bestChain b = None ∨
  ∃ prev best, prevNode = Some prev ∧ bestChain b = Some best ∧
               node_hash prev = node_hash best.
Proof.
  unfold extendsBestChain. destruct (bestChain b) as [best|]; [|by split; auto].
  destruct prevNode as [prev|].
  - rewrite bool_decide_eq_true. split.
    + intros H. right. by exists prev, best.
    + intros [?|(p & q & [= <-] & [= <-] & H)]; done.
  - split; [done |]. by intros [?|(p & q & ? & _)].
Qed.

Lemma fetchTxList_shortcut b node txList m prevNode v m' :
  getPrevNodeFromNode b node = inl prevNode →
  extendsBestChain b prevNode = true →
  applyReplies (FetchTxByShaList b txList) (missingStore txList)
    {| arrays := arrays m;
       calls := calls m ++ [CallGetPrevNodeFromNode node; CallFetchTxByShaList txList] |}
    = Returned v m' →
  fetchTxList b node txList m = Returned (Some v, None) m'.
Proof.
  intros Hprev Hext Hv. unfold fetchTxList. rewrite Hprev. unfold bind, log. simpl.
  rewrite <- (assoc_L (++)). simpl. by rewrite Hv, Hext.
Qed.

(** C5, as amended: when the lookup of the previous node succeeds, and no
    best chain is selected or the previous node is the tip of the best chain,
    [fetchTxList] returns, without error, the store the loop over the
    database's replies leaves (the main-chain baseline); the call log grows
    by the lookup of the previous node and the database query only: the fork
    resolver is not called, no block is fetched, no mutator runs. *)
Theorem fetchTxList_main_chain_shortcut b node txList m prevNode :
  getPrevNodeFromNode b node = inl prevNode →
  (bestChain b = None ∨
   ∃ prev best, prevNode = Some prev ∧ bestChain b = Some best ∧
                node_hash prev = node_hash best) →
  ∃ v m',
    fetchTxList b node txList m = Returned (Some v, None) m' ∧
    applyReplies (FetchTxByShaList b txList) (missingStore txList)
      {| arrays := arrays m;
         calls := calls m ++ [CallGetPrevNodeFromNode node; CallFetchTxByShaList txList] |}
      = Returned v m' ∧
    calls m' = calls m ++ [CallGetPrevNodeFromNode node; CallFetchTxByShaList txList] ∧
    forkResolverCalls (calls m') = forkResolverCalls (calls m) ∧
    (repliesAllocated m (FetchTxByShaList b txList) →
     view m' v = baselineView m (FetchTxByShaList b txList) txList).
Proof.
  intros Hprev Hext. apply extendsBestChain_true in Hext.
  set (m1 := {| arrays := arrays m;
                calls := calls m ++ [CallGetPrevNodeFromNode node;
                                     CallFetchTxByShaList txList] |}).
  destruct (applyReplies_returns (FetchTxByShaList b txList) (missingStore txList) m1)
    as (v & m' & Hv).
  exists v, m'.
  assert (calls m' = calls m1) as Hc by by apply (quiet_applyReplies _ _ _ _ _ Hv).
  split_and!.
  - by apply (fetchTxList_shortcut b node txList m prevNode).
  - done.
  - done.
  - rewrite Hc. unfold forkResolverCalls. simpl. rewrite omap_app. simpl.
    by rewrite app_nil_r.
  - intros Ha.
    destruct (applyReplies_sim m (FetchTxByShaList b txList) m1 (missingStore txList))
      as (v2 & m2 & H2 & Hv2 & _).
    + apply wf_missingStore.
    + split_and!; [done | done |]. intros l Ho. by apply missingStore_owns in Ho.
    + done.
    + rewrite Hv in H2. injection H2 as <- <-. by rewrite Hv2, view_missingStore.
Qed.

Lemma fetchTxList_main_chain_shortcut_witness :
  ∃ v m',
    fetchTxList (exChain (Some exTip) ∅) exNext [11%N] exMemUnspent
      = Returned (Some v, None) m' ∧
    applyReplies (FetchTxByShaList (exChain (Some exTip) ∅) [11%N]) (missingStore [11%N])
      {| arrays := arrays exMemUnspent;
         calls := calls exMemUnspent ++
                  [CallGetPrevNodeFromNode exNext; CallFetchTxByShaList [11%N]] |}
      = Returned v m' ∧
    calls m' = calls exMemUnspent ++
               [CallGetPrevNodeFromNode exNext; CallFetchTxByShaList [11%N]] ∧
    forkResolverCalls (calls m') = forkResolverCalls (calls exMemUnspent) ∧
    (repliesAllocated exMemUnspent (FetchTxByShaList (exChain (Some exTip) ∅) [11%N]) →
     view m' v =
     baselineView exMemUnspent (FetchTxByShaList (exChain (Some exTip) ∅) [11%N]) [11%N]).
Proof.
  apply (fetchTxList_main_chain_shortcut (exChain (Some exTip) ∅) exNext [11%N]
           exMemUnspent (Some exTip)).
  - reflexivity.
  - right. exists exTip, exTip. by split_and!.
Defined.

(** C5 as the specification words it fails: with no best chain selected, a
    node whose previous node cannot be loaded gets the error of the lookup
    and no view. *)
Lemma fetchTxList_main_chain_shortcut_counterexample :
  ¬ (∀ b node txList m,
       (bestChain b = None ∨
        ∃ prev best, getPrevNodeFromNode b node = inl (Some prev) ∧
                     bestChain b = Some best ∧ node_hash prev = node_hash best) →
       ∃ v m', fetchTxList b node txList m = Returned (Some v, None) m').
Proof.
  intros H.
  destruct (H (exChain None ∅) exOld [11%N] exMemUnspent) as (v & m' & Hr).
  - by left.
  - vm_compute in Hr. discriminate Hr.
Qed.

Lemma attachLoop_miss b n post : ∀ pre v m v1 m1,
  attachLoop b pre v m = Returned (inl v1) m1 →
  blockCache b !! node_hash n = None →
  attachLoop b (pre ++ n :: post) v m =
  Returned (inr (sideChainCacheMiss (node_hash n)))
           {| arrays := arrays m1; calls := calls m1 ++ [LookupBlockCache (node_hash n)] |}.
Proof.
  induction pre as [|p pre IH]; intros v m v1 m1 Hpre Hmiss.
  - injection Hpre as <- <-. simpl. unfold bind, log. by rewrite Hmiss.
  - simpl in *. apply bind_Returned in Hpre as ([] & ml & Hl & Hpre).
    unfold bind at 1. rewrite Hl.
    destruct (blockCache b !! node_hash p) as [block|]; [|done].
    apply bind_Returned in Hpre as (r & m2 & Hc & Hpre).
    unfold bind at 1. rewrite Hc. by apply (IH _ _ v1 m1).
Qed.

Lemma redoBlocks_miss b n post : ∀ pre w w1,
  redoBlocks b pre w = Some (Resolved w1) →
  blockCache b !! node_hash n = None →
  redoBlocks b (pre ++ n :: post) w = Some (Failed (sideChainCacheMiss (node_hash n))).
Proof.
  induction pre as [|p pre IH]; intros w w1 Hpre Hmiss; simpl in *.
  - by rewrite Hmiss.
  - destruct (blockCache b !! node_hash p) as [block|]; [|done].
    destruct (connectView _ _ w) as [w0|]; [|done]. simpl in *. by eapply IH.
Qed.

(** C7: when the resolution reaches the attach list (the previous node is
    found, the node does not extend the best chain, every block of the detach
    list is fetched and undone) and the nodes of the attach list before [n]
    are in the side-block cache and connect, a node [n] of the attach list
    that is not in the cache ends the call there: [fetchTxList] returns no
    view and the formatted error naming [n]; it does not panic, the last
    thing it did is the lookup of [n] in the cache, and the nodes after [n]
    are not looked at. *)
Theorem fetchTxList_side_chain_cache_miss b node txList m prevNode
    detachNodes pre n post w1 w2 :
  repliesAllocated m (FetchTxByShaList b txList) →
  getPrevNodeFromNode b node = inl prevNode →
  extendsBestChain b prevNode = false →
  getReorganizeNodes b prevNode = (detachNodes, pre ++ n :: post) →
  undoBlocks b detachNodes (baselineView m (FetchTxByShaList b txList) txList)
    = Some (Resolved w1) →
  redoBlocks b pre w1 = Some (Resolved w2) →
  blockCache b !! node_hash n = None →
  ∃ m', fetchTxList b node txList m =
          Returned (None, Some (sideChainCacheMiss (node_hash n))) m' ∧
        last (calls m') = Some (LookupBlockCache (node_hash n)).
Proof.
  intros Ha Hprev Hext Hre Hundo Hredo Hmiss.
  unfold fetchTxList. rewrite Hprev. unfold bind at 1. unfold log.
  unfold bind at 1. cbn [calls arrays].
  set (m1 := {| arrays := arrays m;
                calls := (calls m ++ [CallGetPrevNodeFromNode node]) ++
                         [CallFetchTxByShaList txList] |}).
  destruct (applyReplies_sim m (FetchTxByShaList b txList) m1 (missingStore txList))
    as (v2 & m2 & H2 & Hv2 & W2 & E2 & C2).
  { apply wf_missingStore. }
  { split_and!; [done | done |]. intros l Ho. by apply missingStore_owns in Ho. }
  { done. }
  rewrite view_missingStore in Hv2.
  fold (baselineView m (FetchTxByShaList b txList) txList) in Hv2.
  unfold bind at 1. rewrite H2, Hext. unfold bind at 1. cbn [calls arrays].
  set (m3 := {| arrays := arrays m2; calls := calls m2 ++ [CallGetReorganizeNodes prevNode] |}).
  rewrite Hre.
  assert (wf m3 v2) as W3 by by apply (wf_arrays m2).
  pose proof (detachLoop_sim b detachNodes v2 m3 W3) as Hd.
  rewrite (view_arrays m3 m2), Hv2, Hundo in Hd by done.
  unfold bind at 1.
  destruct (detachLoop b detachNodes v2 m3) as [[v4|e4] m4|m4];
    [| by destruct Hd | done].
  destruct Hd as ([= ->] & W4 & _).
  rewrite decide_False by (rewrite length_app; simpl; lia).
  pose proof (attachLoop_sim b pre v4 m4 W4) as Hat. rewrite Hredo in Hat.
  destruct (attachLoop b pre v4 m4) as [[v5|e5] m5|m5] eqn:Hpre;
    [| by destruct Hat | done].
  unfold bind. rewrite (attachLoop_miss b n post pre v4 m4 v5 m5 Hpre Hmiss).
  eexists. split; [done |]. simpl. apply last_snoc.
Qed.

Lemma fetchTxList_side_chain_cache_miss_witness :
  ∃ m', fetchTxList (exChain (Some exTip) ∅) exSideNext [11%N] exMemUnspent =
          Returned (None, Some (sideChainCacheMiss (node_hash exSide))) m' ∧
        last (calls m') = Some (LookupBlockCache (node_hash exSide)).
Proof.
  apply (fetchTxList_side_chain_cache_miss (exChain (Some exTip) ∅) exSideNext [11%N]
           exMemUnspent (Some exSide) [exTip] [] exSide [] ∅ ∅).
  - apply exReplies_allocated.
  - reflexivity.
  - reflexivity.
  - reflexivity.
  - vm_compute. reflexivity.
  - reflexivity.
  - reflexivity.
Defined.

(** * The input resolver *)

(** ** Every view [fetchTxList] resolves is keyed by the requested hashes *)

Lemma keyedView_missing txList : keyedView txList (missingView txList).
Proof.
  intros h d Hd. rewrite missingView_lookup in Hd. case_decide; [|done].
  by injection Hd as <-.
Qed.

Lemma keyedView_fmap txList (w w' : gmap N txState) (g : N → txState → txState) :
  (∀ h d, s_hash (g h d) = s_hash d) →
  (∀ h, w' !! h = None ∨ w' !! h = g h <$> w !! h) →
  keyedView txList w → keyedView txList w'.
Proof.
  intros Hg Hl K h d' Hd'. destruct (Hl h) as [Hn|He]; [congruence |].
  rewrite Hd' in He. destruct (w !! h) as [d|] eqn:Hd; [|done].
  injection He as ->. rewrite Hg. by apply K.
Qed.

Lemma keyedView_applyReply m txList w txReply :
  keyedView txList w → keyedView txList (applyReplyView m w txReply).
Proof.
  intros K. unfold applyReplyView.
  destruct (w !! reply_Sha txReply) as [d0|] eqn:Hd0; [|done].
  destruct (K _ _ Hd0) as [Hh Hin].
  destruct (reply_Err txReply); intros h d Hd;
    (destruct (decide (h = reply_Sha txReply)) as [->|Hne];
     [rewrite lookup_insert_eq in Hd; by injection Hd as <-
     |rewrite lookup_insert_ne in Hd by done; by apply K]).
Qed.

Lemma keyedView_baseline m txReplyList txList :
  keyedView txList (baselineView m txReplyList txList).
Proof.
  unfold baselineView. generalize (keyedView_missing txList).
  generalize (missingView txList).
  induction txReplyList as [|r rest IH]; intros w K; simpl; [done |].
  apply IH. by apply keyedView_applyReply.
Qed.

Lemma keyedView_disconnect txList txs w w' :
  disconnectView txs w = Some w' → keyedView txList w → keyedView txList w'.
Proof.
  intros H. apply (keyedView_fmap txList w w' (disconnectedEntry txs)); [done |].
  intros h. rewrite (disconnectView_Some _ _ _ H h). case_decide; auto.
Qed.

Lemma keyedView_connect txList height_ txs w w' :
  connectView height_ txs w = Some w' → keyedView txList w → keyedView txList w'.
Proof.
  intros H. apply (keyedView_fmap txList w w' (connectedEntry height_ txs)).
  - intros h d. unfold connectedEntry. by destruct (lastCreated h txs).
  - intros h. right. apply (connectView_Some _ _ _ _ H h).
Qed.

Lemma keyedView_undoBlocks txList b nodes : ∀ w w',
  undoBlocks b nodes w = Some (Resolved w') → keyedView txList w → keyedView txList w'.
Proof.
  induction nodes as [|n rest IH]; intros w w' H K; simpl in H.
  - by injection H as <-.
  - destruct (FetchBlockBySha b (node_hash n)) as [block|]; [|done].
    destruct (disconnectView (Transactions block) w) as [w1|] eqn:H1; [|done].
    simpl in H. eapply IH; [done |]. by eapply keyedView_disconnect.
Qed.

Lemma keyedView_redoBlocks txList b nodes : ∀ w w',
  redoBlocks b nodes w = Some (Resolved w') → keyedView txList w → keyedView txList w'.
Proof.
  induction nodes as [|n rest IH]; intros w w' H K; simpl in H.
  - by injection H as <-.
  - destruct (blockCache b !! node_hash n) as [block|]; [|done].
    destruct (connectView (Height block) (Transactions block) w) as [w1|] eqn:H1; [|done].
    simpl in H. eapply IH; [done |]. by eapply keyedView_connect.
Qed.

Lemma keyedView_resolveView b m node txList w :
  resolveView b m node txList = Some (Resolved w) → keyedView txList w.
Proof.
  unfold resolveView. destruct (getPrevNodeFromNode b node) as [prevNode|]; [|done].
  pose proof (keyedView_baseline m (FetchTxByShaList b txList) txList) as K.
  destruct (extendsBestChain b prevNode); [by intros [= <-] |].
  destruct (getReorganizeNodes b prevNode) as [detachNodes attachNodes].
  destruct (undoBlocks b detachNodes _) as [[w1|e]|] eqn:Hu; [|done..].
  pose proof (keyedView_undoBlocks _ _ _ _ _ Hu K) as K1.
  destruct attachNodes as [|n rest]; [by intros [= <-] |].
  intros Hr. by eapply keyedView_redoBlocks.
Qed.

(** ** The database lookups of [fetchTxList] *)

Lemma keepsLookups_quiet {A} (c : M A) : quiet c → keepsLookups c.
Proof. intros Q m a m' H. by rewrite (Q m a m' H). Qed.

Lemma keepsLookups_ret {A} (a : A) : keepsLookups (ret a).
Proof. apply keepsLookups_quiet, quiet_ret. Qed.

Lemma keepsLookups_bind {A B} (c : M A) (f : A → M B) :
  keepsLookups c → (∀ a, keepsLookups (f a)) → keepsLookups (bind c f).
Proof.
  intros Hc Hf m b m' H. apply bind_Returned in H as (a & m1 & H1 & H2).
  rewrite (Hf a m1 b m' H2). by apply (Hc m a).
Qed.

Lemma storageLookups_app es1 es2 :
  storageLookups (es1 ++ es2) = storageLookups es1 ++ storageLookups es2.
Proof. unfold storageLookups. by rewrite omap_app. Qed.

Lemma keepsLookups_log e :
  (∀ l, e ≠ CallFetchTxByShaList l) → keepsLookups (log e).
Proof.
  intros He m a m' H. injection H as _ <-. simpl.
  rewrite storageLookups_app. destruct e; simpl; try by rewrite app_nil_r.
  by destruct (He txList).
Qed.

Lemma keepsLookups_detachLoop b nodes : ∀ v, keepsLookups (detachLoop b nodes v).
Proof.
  induction nodes as [|n rest IH]; intros v; simpl; [apply keepsLookups_ret |].
  apply keepsLookups_bind; [by apply keepsLookups_log |]. intros _.
  destruct (FetchBlockBySha b (node_hash n)); [|apply keepsLookups_ret].
  apply keepsLookups_bind; [|done].
  apply keepsLookups_quiet, quiet_disconnectLoop.
Qed.

Lemma keepsLookups_attachLoop b nodes : ∀ v, keepsLookups (attachLoop b nodes v).
Proof.
  induction nodes as [|n rest IH]; intros v; simpl; [apply keepsLookups_ret |].
  apply keepsLookups_bind; [by apply keepsLookups_log |]. intros _.
  destruct (blockCache b !! node_hash n); [|apply keepsLookups_ret].
  apply keepsLookups_bind; [|done].
  apply keepsLookups_quiet, quiet_connectLoop.
Qed.

Lemma fetchTxList_lookups b node txList m r m' :
  fetchTxList b node txList m = Returned r m' →
  ∀ l, l ∈ storageLookups (calls m') → l ∈ storageLookups (calls m) ∨ l = txList.
Proof.
  unfold fetchTxList. intros H.
  apply bind_Returned in H as ([] & m1 & H1 & H).
  assert (storageLookups (calls m1) = storageLookups (calls m)) as E1.
  { by apply (keepsLookups_log (CallGetPrevNodeFromNode node)) in H1. }
  destruct (getPrevNodeFromNode b node) as [prevNode|e].
  2:{ injection H as _ <-. rewrite E1. auto. }
  apply bind_Returned in H as ([] & m2 & H2 & H).
  assert (storageLookups (calls m2) = storageLookups (calls m) ++ [txList]) as E2.
  { injection H2 as <-. simpl. by rewrite storageLookups_app, E1. }
  assert (keepsLookups (λ m2,
    (let* txStore := applyReplies (FetchTxByShaList b txList) (missingStore txList) in
     if extendsBestChain b prevNode then ret (Some txStore, None) else
     run log (CallGetReorganizeNodes prevNode) then
     let '(detachNodes, attachNodes) := getReorganizeNodes b prevNode in
     let* r := detachLoop b detachNodes txStore in
     match r with
     | inr e => ret (None, Some e)
     | inl txStore =>
       if decide (length attachNodes = 0) then ret (Some txStore, None) else
       let* r := attachLoop b attachNodes txStore in
       match r with
       | inr e => ret (None, Some e)
       | inl txStore => ret (Some txStore, None)
       end
     end) m2)) as K.
  { apply keepsLookups_bind; [apply keepsLookups_quiet, quiet_applyReplies |].
    intros v. destruct (extendsBestChain b prevNode); [apply keepsLookups_ret |].
    apply keepsLookups_bind; [by apply keepsLookups_log |]. intros _.
    destruct (getReorganizeNodes b prevNode) as [detachNodes attachNodes].
    apply keepsLookups_bind; [apply keepsLookups_detachLoop |].
    intros [v1|e]; [|apply keepsLookups_ret].
    case_decide; [apply keepsLookups_ret |].
    apply keepsLookups_bind; [apply keepsLookups_attachLoop |].
    intros [v2|e]; apply keepsLookups_ret. }
  apply K in H. rewrite H, E2. intros l Hl.
  apply elem_of_app in Hl as [Hl|Hl]; [by left |].
  right. by apply list_elem_of_singleton in Hl.
Qed.

(** ** The in-flight map and the loop over the inputs *)

Lemma inFlightLoop_Returned block : ∀ txs i acc m,
  drop i (Transactions block) = txs →
  inFlightLoop block i txs acc m =
  Returned (foldl (λ a t, <[tx_Sha t := t]> a) acc txs) m.
Proof.
  induction txs as [|t rest IH]; intros i acc m Hd; simpl; [done |].
  destruct (TxSha_drop _ _ _ _ Hd) as [-> Hd']. by apply IH.
Qed.

Lemma inFlight_lookup h : ∀ txs (acc : gmap N MsgTx),
  foldl (λ a t, <[tx_Sha t := t]> a) acc txs !! h =
  match lastCreated h txs with
  | Some t => Some t
  | None => acc !! h
  end.
Proof.
  induction txs as [|t rest IH]; intros acc; simpl; [done |].
  rewrite IH. destruct (lastCreated h rest); [done |].
  case_decide as Hh.
  - subst h. by rewrite lookup_insert_eq.
  - by rewrite lookup_insert_ne.
Qed.

Lemma wf_insert_nil m v h d' : wf m v → spent d' = None → wf m (<[h := d']> v).
Proof.
  intros W Hs h1 d1 l1 Hh1 Hs1.
  assert (h1 ≠ h) as Hne.
  { intros ->. rewrite lookup_insert_eq in Hh1. injection Hh1 as <-. congruence. }
  rewrite lookup_insert_ne in Hh1 by done.
  split; [by eapply wf_lookup_lt |].
  intros h2 d2 Hh2 Hs2.
  assert (h2 ≠ h) as Hne2.
  { intros ->. rewrite lookup_insert_eq in Hh2. injection Hh2 as <-. congruence. }
  rewrite lookup_insert_ne in Hh2 by done. by eapply wf_inj.
Qed.

Lemma collectInput_step node txInFlight st txIn m :
  collected node txInFlight st m →
  ∃ st' m', collectInput node txInFlight st txIn m = Returned st' m' ∧
    collected node txInFlight st' m' ∧
    length (arrays m) ≤ length (arrays m') ∧ calls m' = calls m ∧
    (∀ h, is_Some (st.2 !! h) → is_Some (st'.2 !! h)) ∧
    is_Some (st'.2 !! op_Hash (PreviousOutpoint txIn)).
Proof.
  destruct st as [needed store]. intros (W & Hn & He). simpl in *.
  unfold collectInput. set (h := op_Hash (PreviousOutpoint txIn)).
  destruct (txInFlight !! h) as [t|] eqn:Ht.
  - unfold bind, make, ret.
    set (d' := {| tx := Some t; hash := h; blockHeight := node_height node;
                  spent := Some (length (arrays m)); err := None |}).
    set (a := replicate (length (tx_TxOut t)) false).
    destruct (alloc_insert m store h d' a W eq_refl) as (Hv & W' & [L _ _ C]).
    eexists (_, _), _. split; [done |]. simpl in *. split_and!; try done.
    + split_and!; simpl; [done | done |].
      intros h1 d1 Hh1. destruct (decide (h1 = h)) as [->|Hne].
      * rewrite lookup_insert_eq in Hh1. injection Hh1 as <-. rewrite Ht.
        unfold observe, inFlightState. simpl. f_equal.
        rewrite lookup_app_r by done. by rewrite Nat.sub_diag.
      * rewrite lookup_insert_ne in Hh1 by done.
        specialize (He h1 d1 Hh1).
        assert (observe {| arrays := arrays m ++ [a]; calls := calls m |} d1 = observe m d1)
          as Ho.
        { apply (f_equal (λ w, w !! h1)) in Hv.
          rewrite view_lookup, !lookup_insert_ne, view_lookup in Hv by done.
          rewrite Hh1 in Hv. cbv [fmap option_fmap option_map] in Hv.
          congruence. }
        destruct (txInFlight !! h1); [by rewrite Ho | done].
    + intros h1 Hs. destruct (decide (h1 = h)) as [->|Hne].
      * by rewrite lookup_insert_eq.
      * by rewrite lookup_insert_ne.
    + by rewrite lookup_insert_eq.
  - unfold ret. eexists (_, _), _. split; [done |]. simpl. split_and!; try done.
    + split_and!; simpl.
      * by apply wf_insert_nil.
      * intros h1 Hh1. apply elem_of_app in Hh1 as [Hh1|Hh1]; [by apply Hn |].
        apply list_elem_of_singleton in Hh1. by subst.
      * intros h1 d1 Hh1. destruct (decide (h1 = h)) as [->|Hne].
        -- rewrite lookup_insert_eq in Hh1. injection Hh1 as <-. rewrite Ht.
           split; [done |]. apply elem_of_app. right. by left.
        -- rewrite lookup_insert_ne in Hh1 by done. specialize (He h1 d1 Hh1).
           destruct (txInFlight !! h1); [done |]. destruct He as [-> Hin].
           split; [done |]. apply elem_of_app. by left.
    + intros h1 Hs. destruct (decide (h1 = h)) as [->|Hne].
      * by rewrite lookup_insert_eq.
      * by rewrite lookup_insert_ne.
    + by rewrite lookup_insert_eq.
Qed.

Lemma collectInput_loop node txInFlight txIns : ∀ st m,
  collected node txInFlight st m →
  ∃ st' m', foldM (collectInput node txInFlight) txIns st m = Returned st' m' ∧
    collected node txInFlight st' m' ∧
    length (arrays m) ≤ length (arrays m') ∧ calls m' = calls m ∧
    (∀ h, is_Some (st.2 !! h) → is_Some (st'.2 !! h)) ∧
    (∀ txIn, txIn ∈ txIns → is_Some (st'.2 !! op_Hash (PreviousOutpoint txIn))).
Proof.
  induction txIns as [|txIn rest IH]; intros st m Hc; simpl.
  - exists st, m. split_and!; try done. intros txIn Hin. by apply elem_of_nil in Hin.
  - destruct (collectInput_step node txInFlight st txIn m Hc)
      as (st1 & m1 & H1 & Hc1 & L1 & C1 & D1 & O1).
    destruct (IH st1 m1 Hc1) as (st2 & m2 & H2 & Hc2 & L2 & C2 & D2 & O2).
    exists st2, m2. unfold bind. rewrite H1, H2. split_and!; try done.
    + lia.
    + congruence.
    + auto.
    + intros txIn' Hin. apply elem_of_cons in Hin as [->|Hin]; auto.
Qed.

Lemma collectInputs_loop node txInFlight txs : ∀ st m,
  collected node txInFlight st m →
  ∃ st' m', collectInputs node txInFlight txs st m = Returned st' m' ∧
    collected node txInFlight st' m' ∧
    length (arrays m) ≤ length (arrays m') ∧ calls m' = calls m ∧
    (∀ h, is_Some (st.2 !! h) → is_Some (st'.2 !! h)) ∧
    (∀ tx_ txIn, tx_ ∈ txs → txIn ∈ tx_TxIn tx_ →
       is_Some (st'.2 !! op_Hash (PreviousOutpoint txIn))).
Proof.
  unfold collectInputs.
  induction txs as [|t rest IH]; intros st m Hc; simpl.
  - exists st, m. split_and!; try done. intros t txIn Hin. by apply elem_of_nil in Hin.
  - destruct (collectInput_loop node txInFlight (tx_TxIn t) st m Hc)
      as (st1 & m1 & H1 & Hc1 & L1 & C1 & D1 & O1).
    destruct (IH st1 m1 Hc1) as (st2 & m2 & H2 & Hc2 & L2 & C2 & D2 & O2).
    exists st2, m2. unfold bind. rewrite H1, H2. split_and!; try done.
    + lia.
    + congruence.
    + auto.
    + intros t' txIn Ht' Hin. apply elem_of_cons in Ht' as [->|Ht']; eauto.
Qed.

Lemma mergeStores_union vn s :
  (∀ h d, vn !! h = Some d → hash d = h) → mergeStores vn s = vn ∪ s.
Proof.
  unfold mergeStores.
  apply (map_fold_weak_ind
           (λ r (mm : gmap N txData), (∀ h d, mm !! h = Some d → hash d = h) → r = mm ∪ s)).
  - intros _. by rewrite (left_id_L ∅ (∪)).
  - intros i x mm r Hi IH K.
    rewrite (K i x) by apply lookup_insert_eq.
    rewrite IH; [by rewrite insert_union_l |].
    intros h d Hd. apply K. rewrite lookup_insert_ne; [done |]. congruence.
Qed.

(** * The key set of a resolved view *)

Lemma applyReply_dom v txReply m v' m' :
  applyReply v txReply m = Returned v' m' → dom v' = dom v.
Proof.
  unfold applyReply. destruct (v !! reply_Sha txReply) as [txD|] eqn:Hh.
  2:{ by intros [= <- <-]. }
  assert (∀ d, dom (<[reply_Sha txReply := d]> v) = dom v) as Hd.
  { intros d. rewrite dom_insert_L. apply elem_of_dom_2 in Hh. set_solver. }
  destruct (reply_Err txReply).
  - intros [= <- <-]. apply Hd.
  - intros H. unbind H. injection H as <- <-. apply Hd.
Qed.

Lemma applyReplies_dom txReplyList : ∀ v m v' m',
  applyReplies txReplyList v m = Returned v' m' → dom v' = dom v.
Proof.
  induction txReplyList as [|r rest IH]; intros v m v' m' H; simpl in H.
  - by injection H as <- <-.
  - apply bind_Returned in H as (v1 & m1 & H1 & H).
    rewrite (IH _ _ _ _ H). by eapply applyReply_dom.
Qed.

(** When the node extends the best chain (or none is selected), the key set
    of the returned view is the set of requested hashes. *)
Lemma fetchTxList_shortcut_keys b node txList m prevNode :
  getPrevNodeFromNode b node = inl prevNode →
  extendsBestChain b prevNode = true →
  ∃ v m', fetchTxList b node txList m = Returned (Some v, None) m' ∧
          dom v = list_to_set txList.
Proof.
  intros Hprev Hext.
  destruct (applyReplies_returns (FetchTxByShaList b txList) (missingStore txList)
              {| arrays := arrays m;
                 calls := calls m ++ [CallGetPrevNodeFromNode node;
                                      CallFetchTxByShaList txList] |})
    as (v & m' & Hv).
  exists v, m'. split; [by apply (fetchTxList_shortcut b node txList m prevNode) |].
  by rewrite (applyReplies_dom _ _ _ _ _ Hv), missingStore_dom.
Qed.

(** A view [fetchTxList] returns owns its bitmaps, has requested hashes as
    keys only, and files every entry under the hash it carries. *)
Lemma fetchTxList_view_wf b node txList m :
  repliesAllocated m (FetchTxByShaList b txList) →
  whenReturned (fetchTxList b node txList m) (λ r m',
    ∀ v, r.1 = Some v →
      wf m' v ∧ dom v ⊆ list_to_set txList ∧ ∀ h d, v !! h = Some d → hash d = h).
Proof.
  intros Ha. pose proof (fetchTxList_sim b node txList m Ha) as H.
  destruct (fetchTxList b node txList m) as [[[v|] [e|]] m'|]; try done.
  simpl. intros v0 [= <-]. destruct H as (Hres & W & _).
  apply keyedView_resolveView in Hres.
  assert (∀ h d, v !! h = Some d → hash d = h ∧ h ∈ txList) as K.
  { intros h d Hd. apply (Hres h (observe m' d)). by rewrite view_lookup, Hd. }
  split_and!; [done | |].
  - intros h [d Hd]%elem_of_dom. apply elem_of_list_to_set. by apply (K h d).
  - intros h d Hd. by apply (K h d).
Qed.

(** * Further properties of the view mutators *)

Lemma connectLoop_noError block : ∀ txs i v m v' e m',
  drop i (Transactions block) = txs →
  connectLoop block i txs v m = Returned (v', e) m' → e = None.
Proof.
  induction txs as [|tx_ rest IH]; intros i v m v' e m' Hd Hc.
  - by injection Hc as <- <- <-.
  - destruct (TxSha_drop _ _ _ _ Hd) as [Hsha Hd']. simpl in Hc. rewrite Hsha in Hc.
    unbind Hc. by apply (IH _ _ _ _ _ _ Hd' Hc).
Qed.

Lemma disconnectLoop_noError block : ∀ txs i v m v' e m',
  drop i (Transactions block) = txs →
  disconnectLoop block i txs v m = Returned (v', e) m' → e = None.
Proof.
  induction txs as [|tx_ rest IH]; intros i v m v' e m' Hd Hc.
  - by injection Hc as <- <- <-.
  - destruct (TxSha_drop _ _ _ _ Hd) as [Hsha Hd']. simpl in Hc. rewrite Hsha in Hc.
    unbind Hc. by apply (IH _ _ _ _ _ _ Hd' Hc).
Qed.

(** X1: the error result of both mutators is always [nil], whatever the store
    and the memory: the only error they can return is the one of
    [block.TxSha(i)], and the loop index is always in range.  (This is why
    [fetchTxList] may drop their result.) *)
Theorem mutators_never_fail m v block :
  whenReturned (connectTransactions v block m) (λ r _, r.2 = None) ∧
  whenReturned (disconnectTransactions v block m) (λ r _, r.2 = None).
Proof.
  split.
  - destruct (connectTransactions v block m) as [[v' e] m'|] eqn:Hc; [|done]. simpl.
    by apply (connectLoop_noError block (Transactions block) 0 v m v' e m').
  - destruct (disconnectTransactions v block m) as [[v' e] m'|] eqn:Hc; [|done]. simpl.
    by apply (disconnectLoop_noError block (Transactions block) 0 v m v' e m').
Qed.

Lemma store_length s i bit m a m' :
  store s i bit m = Returned a m' → length (arrays m') = length (arrays m).
Proof.
  unfold store. destruct s as [l|]; [|done].
  destruct (arrays m !! l) as [arr|]; [|done]. case_decide; [|done].
  intros [= _ <-]. simpl. by rewrite length_insert.
Qed.

Lemma forM_setOriginSpent_length bit v txIns : ∀ m a m',
  forM_ txIns (setOriginSpent bit v) m = Returned a m' →
  length (arrays m') = length (arrays m).
Proof.
  induction txIns as [|txIn rest IH]; intros m a m' H; simpl in H.
  - by injection H as _ <-.
  - apply bind_Returned in H as ([] & m1 & H1 & H).
    rewrite (IH _ _ _ H). unfold setOriginSpent in H1.
    destruct (v !! op_Hash (PreviousOutpoint txIn)) as [d|].
    + by eapply store_length.
    + by injection H1 as <-.
Qed.

Lemma connectLoop_allocates block : ∀ txs i v m v' e m',
  drop i (Transactions block) = txs →
  connectLoop block i txs v m = Returned (v', e) m' →
  length (arrays m') =
  length (arrays m) + length (filter (λ tx_, tx_Sha tx_ ∈ dom v) txs).
Proof.
  induction txs as [|tx_ rest IH]; intros i v m v' e m' Hd Hc.
  - injection Hc as <- <- <-. simpl. lia.
  - destruct (TxSha_drop _ _ _ _ Hd) as [Hsha Hd']. simpl in Hc. rewrite Hsha in Hc.
    apply bind_Returned in Hc as (v1 & m1 & H1 & Hc).
    apply bind_Returned in Hc as ([] & m2 & H2 & Hc).
    rewrite (IH _ _ _ _ _ _ Hd' Hc), (forM_setOriginSpent_length _ _ _ _ _ _ H2).
    rewrite filter_cons.
    destruct (v !! tx_Sha tx_) as [d|] eqn:Hh.
    + apply bind_Returned in H1 as (s & m0 & Hm & H1). injection H1 as <- <-.
      injection Hm as <- <-. simpl.
      assert (dom (<[tx_Sha tx_ := {| tx := Some tx_; hash := hash d;
                                      blockHeight := Height block;
                                      spent := Some (length (arrays m)); err := None |}]> v)
              = dom v) as ->.
      { rewrite dom_insert_L. apply elem_of_dom_2 in Hh. set_solver. }
      rewrite decide_True by by apply elem_of_dom_2 in Hh.
      rewrite length_app. simpl. lia.
    + injection H1 as <- <-.
      rewrite decide_False; [lia |]. by apply not_elem_of_dom.
Qed.

Lemma disconnectLoop_allocates block : ∀ txs i v m v' e m',
  drop i (Transactions block) = txs →
  disconnectLoop block i txs v m = Returned (v', e) m' →
  length (arrays m') = length (arrays m).
Proof.
  induction txs as [|tx_ rest IH]; intros i v m v' e m' Hd Hc.
  - by injection Hc as <- <- <-.
  - destruct (TxSha_drop _ _ _ _ Hd) as [Hsha Hd']. simpl in Hc. rewrite Hsha in Hc.
    apply bind_Returned in Hc as ([] & m2 & H2 & Hc).
    by rewrite (IH _ _ _ _ _ _ Hd' Hc), (forM_setOriginSpent_length _ _ _ _ _ _ H2).
Qed.

(** X2: what the mutators do to the memory.  [connectTransactions] allocates
    exactly one bitmap for each transaction of the block whose hash is a key
    of the store (a hash that occurs twice in the block allocates twice);
    [disconnectTransactions] allocates nothing, it writes in place.  Neither
    calls the database, the fork resolver or the block cache. *)
Theorem mutators_allocation m v block :
  whenReturned (connectTransactions v block m) (λ _ m',
    length (arrays m') =
      length (arrays m) +
      length (filter (λ tx_, tx_Sha tx_ ∈ dom v) (Transactions block)) ∧
    calls m' = calls m) ∧
  whenReturned (disconnectTransactions v block m) (λ _ m',
    length (arrays m') = length (arrays m) ∧ calls m' = calls m).
Proof.
  split.
  - destruct (connectTransactions v block m) as [[v' e] m'|] eqn:Hc; [|done]. simpl.
    split.
    + by apply (connectLoop_allocates block (Transactions block) 0 v m v' e m').
    + by apply (quiet_connectLoop block (Transactions block) 0 v m (v', e) m').
  - destruct (disconnectTransactions v block m) as [[v' e] m'|] eqn:Hc; [|done]. simpl.
    split.
    + by apply (disconnectLoop_allocates block (Transactions block) 0 v m v' e m').
    + by apply (quiet_disconnectLoop block (Transactions block) 0 v m (v', e) m').
Qed.

(** ** Repeating and reversing a mutator *)

Lemma disconnectView_twice txs w w1 :
  disconnectView txs w = Some w1 → disconnectView txs w1 = Some w1.
Proof.
  intros H.
  assert (is_Some (disconnectView txs w1)) as [w2 H2].
  { apply disconnectView_is_Some. intros i t Hi txIn n Hin Hlen.
    assert (disconnectInRange w txs) as Hr by (apply disconnectView_is_Some; by eauto).
    apply (Hr i t Hi txIn n Hin).
    unfold lengthAtDisconnect in *. case_decide; [done |].
    unfold bitmapLength in *. rewrite (disconnectView_Some _ _ _ H) in Hlen.
    case_decide; [done |].
    destruct (w !! op_Hash (PreviousOutpoint txIn)) as [d|]; [|done].
    simpl in *. by rewrite setAll_length in Hlen. }
  rewrite H2. f_equal. apply map_eq. intros h.
  rewrite (disconnectView_Some _ _ _ H2 h), (disconnectView_Some _ _ _ H h).
  case_decide; [done |]. destruct (w !! h) as [d|]; [|done]. simpl. f_equal.
  unfold disconnectedEntry, withSpent. simpl. by rewrite setAll_setAll.
Qed.

Lemma connectedEntry_twice height_ txs h d :
  connectedEntry height_ txs h (connectedEntry height_ txs h d) =
  connectedEntry height_ txs h d.
Proof.
  unfold connectedEntry. destruct (lastCreated h txs) as [t|]; [done |].
  unfold withSpent. simpl. by rewrite setAll_setAll.
Qed.

Lemma connectView_twice height_ txs w w1 w2 :
  connectView height_ txs w = Some w1 → connectView height_ txs w1 = Some w2 → w2 = w1.
Proof.
  intros H1 H2. apply map_eq. intros h.
  rewrite (connectView_Some _ _ _ _ H2 h), (connectView_Some _ _ _ _ H1 h).
  destruct (w !! h) as [d|]; [|done]. simpl. by rewrite connectedEntry_twice.
Qed.

Lemma connectView_twice_Some height_ txs w w1 :
  spendsNoOwn w txs → connectView height_ txs w = Some w1 →
  is_Some (connectView height_ txs w1).
Proof.
  intros Hno H. apply connectView_is_Some. intros i t Hi txIn n Hin Hlen.
  assert (connectInRange w txs) as Hr by (apply (connectView_is_Some height_); by eauto).
  apply (Hr i t Hi txIn n Hin).
  unfold lengthAtConnect, bitmapLength in *. rewrite (connectView_Some _ _ _ _ H) in Hlen.
  destruct (w !! op_Hash (PreviousOutpoint txIn)) as [d|] eqn:Hd; [|done].
  simpl in *.
  destruct (lastCreated (op_Hash (PreviousOutpoint txIn)) (take (S i) txs)); [done |].
  assert (op_Hash (PreviousOutpoint txIn) ∉ tx_Sha <$> txs) as Hnc.
  { apply (spendsNoOwn_not_created w); [done | by eauto |].
    apply originsOf_elem. exists t, txIn. split_and!; [|done..].
    by eapply list_elem_of_lookup_2. }
  apply lastCreated_None in Hnc. unfold connectedEntry in Hlen. rewrite Hnc in Hlen.
  simpl in Hlen. by rewrite setAll_length in Hlen.
Qed.

Lemma disconnectView_connectView height_ txs w w1 :
  disconnectView txs w = Some w1 →
  ∃ w2, connectView height_ txs w1 = Some w2 ∧
    ∀ h, w2 !! h =
         if decide (h ∈ tx_Sha <$> txs) then None
         else (λ d, withSpent (setAll true (spendsOf h txs) (s_spent d)) d) <$> w !! h.
Proof.
  intros H.
  assert (is_Some (connectView height_ txs w1)) as [w2 H2].
  { apply connectView_is_Some. intros i t Hi txIn n Hin Hlen.
    assert (disconnectInRange w txs) as Hr by (apply disconnectView_is_Some; by eauto).
    apply (Hr i t Hi txIn n Hin).
    unfold lengthAtConnect, lengthAtDisconnect, bitmapLength in *.
    rewrite (disconnectView_Some _ _ _ H) in Hlen.
    case_decide as Hin'; [done |].
    rewrite decide_False by by apply not_elem_of_take_hashes.
    apply (not_elem_of_take_hashes _ (S i)), lastCreated_None in Hin'.
    rewrite Hin' in Hlen.
    destruct (w !! op_Hash (PreviousOutpoint txIn)) as [d|]; [|done].
    simpl in *. by rewrite setAll_length in Hlen. }
  exists w2. split; [done |]. intros h.
  rewrite (connectView_Some _ _ _ _ H2 h), (disconnectView_Some _ _ _ H h).
  case_decide as Hin; [done |]. destruct (w !! h) as [d|]; [|done]. simpl. f_equal.
  apply lastCreated_None in Hin. unfold connectedEntry. rewrite Hin.
  unfold disconnectedEntry, withSpent. simpl. by rewrite setAll_setAll.
Qed.

(** The memory after a call that allocated nothing and left the store and
    what it shows as they were is the memory before the call. *)
Lemma evolves_same_view m v m' :
  wf m v → evolves m v m' v → length (arrays m') = length (arrays m) →
  view m' v = view m v → m' = m.
Proof.
  intros W E Hlen Hv. destruct m as [a c], m' as [a' c'].
  destruct E as [_ Hf _ Hc]. simpl in *. f_equal; [|done].
  apply list_eq. intros l.
  destruct (decide (l < length a)) as [Hl|Hl].
  2:{ rewrite !lookup_ge_None_2; [done | lia | lia]. }
  destruct (decide (map_Exists (λ _ d, spent d = Some l) v))
    as [(h & d & Hh & Hs)|Hno]; [|apply Hf; [done |]].
  2:{ intros (h & d & Hh & Hs). apply Hno. by exists h, d. }
  assert (view {| arrays := a'; calls := c' |} v !! h =
          view {| arrays := a; calls := c |} v !! h) as Hvh by by rewrite Hv.
  rewrite !view_lookup, Hh in Hvh. simpl in Hvh.
  injection Hvh as Hvh. rewrite Hs in Hvh. simpl in Hvh.
  destruct (lookup_lt_is_Some_2 a l Hl) as [x Hx].
  destruct (lookup_lt_is_Some_2 a' l ltac:(lia)) as [x' Hx'].
  rewrite Hx, Hx' in *. simpl in Hvh. by subst.
Qed.

(** X3: [disconnectTransactions] is idempotent.  After a disconnect of a block
    that returned, a second disconnect of the same block returns too, with
    the same store and a [nil] error, and leaves the memory exactly as it
    was: the keys it deletes are gone already and every flag it clears is
    clear already. *)
Theorem disconnectTransactions_idempotent m v block :
  wf m v →
  whenReturned (disconnectTransactions v block m) (λ r1 m1,
    disconnectTransactions r1.1 block m1 = Returned (r1.1, None) m1).
Proof.
  intros W.
  destruct (disconnectTransactions v block m) as [[v1 e1] m1|] eqn:H1; [|done]. simpl.
  destruct (disconnectTransactions_Returned _ _ _ _ _ _ W H1) as (_ & Hv1 & W1 & _).
  pose proof (disconnectView_twice _ _ _ Hv1) as Hv2.
  pose proof (disconnectLoop_dom block (Transactions block) 0 v m v1 e1 m1 eq_refl H1) as D1.
  destruct (disconnectTransactions_follows m1 v1 block W1) as [F _].
  destruct (disconnectTransactions v1 block m1) as [[v2 e2] m2|] eqn:H2.
  2:{ unfold follows in F. by rewrite Hv2 in F. }
  unfold follows in F. destruct F as (Hr & W2 & E2). simpl in Hr, W2, E2.
  rewrite Hv2 in Hr. injection Hr as Hr.
  pose proof (disconnectLoop_noError block (Transactions block) 0 v1 m1 v2 e2 m2 eq_refl H2)
    as ->.
  pose proof (disconnectLoop_dom block (Transactions block) 0 v1 m1 v2 None m2 eq_refl H2)
    as D2.
  assert (v2 = v1) as ->.
  { apply map_eq. intros h.
    destruct (decide (h ∈ tx_Sha <$> Transactions block)) as [Hin|Hin].
    - assert (h ∉ dom v2) as N2 by (rewrite D2; set_solver).
      assert (h ∉ dom v1) as N1 by (rewrite D1; set_solver).
      apply not_elem_of_dom in N1, N2. by rewrite N1, N2.
    - by apply (disconnectLoop_keeps block (Transactions block) 0 v1 m1 v2 None m2). }
  f_equal. apply (evolves_same_view m1 v1 m2); [done | done | | done].
  by apply (disconnectLoop_allocates block (Transactions block) 0 v1 m1 v1 None m2).
Qed.

Lemma disconnectTransactions_idempotent_witness :
  returns (disconnectTransactions exStoreKnown exBlockSpend exMemSpent) ∧
  whenReturned (disconnectTransactions exStoreKnown exBlockSpend exMemSpent) (λ r1 m1,
    disconnectTransactions r1.1 exBlockSpend m1 = Returned (r1.1, None) m1).
Proof.
  split; [vm_compute; by eexists _, _ |].
  apply (disconnectTransactions_idempotent exMemSpent exStoreKnown exBlockSpend).
  apply wf_exStoreKnown. simpl. lia.
Defined.

(** X4: connecting a block twice shows the same view as connecting it once.
    The second call allocates new bitmaps, so the memory differs, but every
    entry reads the same.  When no input of the block references a
    transaction of the block that is a key, the second call returns. *)
Theorem connectTransactions_twice m v block :
  wf m v →
  whenReturned (connectTransactions v block m) (λ r1 m1,
    (spendsNoOwn (view m v) (Transactions block) →
     returns (connectTransactions r1.1 block m1)) ∧
    whenReturned (connectTransactions r1.1 block m1) (λ r2 m2,
      view m2 r2.1 = view m1 r1.1)).
Proof.
  intros W.
  destruct (connectTransactions v block m) as [[v1 e1] m1|] eqn:H1; [|done]. simpl.
  destruct (connectTransactions_Returned _ _ _ _ _ _ W H1) as (_ & Hv1 & W1 & _).
  split.
  - intros Hno.
    destruct (connectTransactions_follows m1 v1 block W1) as [F _].
    apply (follows_returns _ _ _ _ _ F). by apply (connectView_twice_Some _ _ (view m v)).
  - destruct (connectTransactions v1 block m1) as [[v2 e2] m2|] eqn:H2; [|done]. simpl.
    destruct (connectTransactions_Returned _ _ _ _ _ _ W1 H2) as (_ & Hv2 & _ & _).
    by apply (connectView_twice _ _ _ _ _ Hv1 Hv2).
Qed.

Lemma connectTransactions_twice_witness :
  returns (connectTransactions exStoreKnown exBlockSpend exMemUnspent) ∧
  whenReturned (connectTransactions exStoreKnown exBlockSpend exMemUnspent) (λ r1 m1,
    (spendsNoOwn (view exMemUnspent exStoreKnown) (Transactions exBlockSpend) →
     returns (connectTransactions r1.1 exBlockSpend m1)) ∧
    whenReturned (connectTransactions r1.1 exBlockSpend m1) (λ r2 m2,
      view m2 r2.1 = view m1 r1.1)).
Proof.
  split; [vm_compute; by eexists _, _ |].
  apply (connectTransactions_twice exMemUnspent exStoreKnown exBlockSpend).
  apply wf_exStoreKnown. simpl. lia.
Defined.

(** X5: a disconnect followed by a connect of the same block does not restore
    the view.  When the disconnect returns, the connect returns too; the
    entries of the block's own transactions, deleted by the disconnect, are
    not created again (the connect only fills keys that exist), and every
    other entry is the one before the disconnect with the outputs the block
    spends marked spent. *)
Theorem disconnect_then_connect m v block :
  wf m v →
  whenReturned (disconnectTransactions v block m) (λ r1 m1,
    ∃ r2 m2, connectTransactions r1.1 block m1 = Returned r2 m2 ∧
      ∀ h, view m2 r2.1 !! h =
           if decide (h ∈ tx_Sha <$> Transactions block) then None
           else (λ d, withSpent (setAll true (spendsOf h (Transactions block)) (s_spent d)) d)
                  <$> view m v !! h).
Proof.
  intros W.
  destruct (disconnectTransactions v block m) as [[v1 e1] m1|] eqn:H1; [|done]. simpl.
  destruct (disconnectTransactions_Returned _ _ _ _ _ _ W H1) as (_ & Hv1 & W1 & _).
  destruct (disconnectView_connectView (Height block) _ _ _ Hv1) as (w2 & Hw2 & Hl).
  destruct (connectTransactions_follows m1 v1 block W1) as [F _].
  destruct (connectTransactions v1 block m1) as [[v2 e2] m2|] eqn:H2.
  2:{ unfold follows in F. by rewrite Hw2 in F. }
  unfold follows in F. destruct F as (Hr & _ & _). simpl in Hr.
  rewrite Hw2 in Hr. injection Hr as ->.
  by exists (v2, e2), m2.
Qed.

Lemma disconnect_then_connect_witness :
  returns (disconnectTransactions exStore exBlock exMem) ∧
  whenReturned (disconnectTransactions exStore exBlock exMem) (λ r1 m1,
    ∃ r2 m2, connectTransactions r1.1 exBlock m1 = Returned r2 m2 ∧
      ∀ h, view m2 r2.1 !! h =
           if decide (h ∈ tx_Sha <$> Transactions exBlock) then None
           else (λ d, withSpent (setAll true (spendsOf h (Transactions exBlock)) (s_spent d)) d)
                  <$> view exMem exStore !! h).
Proof.
  split; [vm_compute; by eexists _, _ |].
  apply (disconnect_then_connect exMem exStore exBlock), wf_exStore.
Defined.

(** * Further properties of the resolver *)

(** ** The keys of the view *)

Lemma detachedHashes_cons b n rest :
  detachedHashes b (n :: rest) =
  match FetchBlockBySha b (node_hash n) with
  | inl block => tx_Sha <$> Transactions block
  | inr _ => []
  end ++ detachedHashes b rest.
Proof. done. Qed.

Lemma detachLoop_dom b nodes : ∀ v m v' m',
  detachLoop b nodes v m = Returned (inl v') m' →
  dom v' = dom v ∖ list_to_set (detachedHashes b nodes).
Proof.
  induction nodes as [|n rest IH]; intros v m v' m' H.
  - injection H as <- <-. unfold detachedHashes. simpl. set_solver.
  - simpl in H. apply bind_Returned in H as ([] & m1 & _ & H).
    rewrite detachedHashes_cons.
    destruct (FetchBlockBySha b (node_hash n)) as [block|e]; [|done].
    apply bind_Returned in H as ([v1 e1] & m2 & Hd & H).
    rewrite (IH _ _ _ _ H). simpl.
    rewrite (disconnectLoop_dom block (Transactions block) 0 v m1 v1 e1 m2 eq_refl Hd).
    rewrite list_to_set_app_L. set_solver.
Qed.

Lemma attachLoop_dom b nodes : ∀ v m v' m',
  attachLoop b nodes v m = Returned (inl v') m' → dom v' = dom v.
Proof.
  induction nodes as [|n rest IH]; intros v m v' m' H.
  - by injection H as <- <-.
  - simpl in H. apply bind_Returned in H as ([] & m1 & _ & H).
    destruct (blockCache b !! node_hash n) as [block|]; [|done].
    apply bind_Returned in H as ([v1 e1] & m2 & Hc & H).
    rewrite (IH _ _ _ _ H). simpl.
    by rewrite (connectLoop_dom block (Transactions block) 0 v m1 v1 e1 m2 eq_refl Hc).
Qed.

Lemma fetchTxList_dom b node txList m v e m' :
  fetchTxList b node txList m = Returned (Some v, e) m' →
  e = None ∧
  ∃ prevNode, getPrevNodeFromNode b node = inl prevNode ∧
    dom v = if extendsBestChain b prevNode then list_to_set txList
            else list_to_set txList ∖
                 list_to_set (detachedHashes b (getReorganizeNodes b prevNode).1).
Proof.
  unfold fetchTxList. intros H.
  apply bind_Returned in H as ([] & m1 & _ & H).
  destruct (getPrevNodeFromNode b node) as [prevNode|e0]; [|done].
  apply bind_Returned in H as ([] & m2 & _ & H).
  apply bind_Returned in H as (v2 & m3 & Hrep & H).
  apply applyReplies_dom in Hrep. rewrite missingStore_dom in Hrep.
  enough (e = None ∧
          dom v = if extendsBestChain b prevNode then list_to_set txList
                  else list_to_set txList ∖
                       list_to_set (detachedHashes b (getReorganizeNodes b prevNode).1))
    as [? ?] by (split; [done |]; by exists prevNode).
  destruct (extendsBestChain b prevNode).
  { by injection H as <- <- <-. }
  apply bind_Returned in H as ([] & m4 & _ & H).
  destruct (getReorganizeNodes b prevNode) as [det att]. simpl.
  apply bind_Returned in H as ([v3|e3] & m5 & Hdet & H); [|done].
  apply detachLoop_dom in Hdet. rewrite Hrep in Hdet.
  case_decide.
  { by injection H as <- <- <-. }
  apply bind_Returned in H as ([v4|e4] & m6 & Hatt & H); [|done].
  apply attachLoop_dom in Hatt. injection H as <- <- <-.
  split; [done |]. by rewrite Hatt.
Qed.

(** X6: the keys of a view [fetchTxList] returns, whatever the memory and the
    replies of the database.  When the node extends the best chain the keys
    are the requested hashes; otherwise they are the requested hashes that
    are not the hash of a transaction of a block of the detach list.  So the
    view never has a key that was not requested, a reply for a hash that was
    not requested is dropped, and an empty request gives an empty view. *)
Theorem fetchTxList_key_set b node txList m :
  whenReturned (fetchTxList b node txList m) (λ r _,
    ∀ v, r.1 = Some v →
      (∃ prevNode, getPrevNodeFromNode b node = inl prevNode ∧
         dom v = if extendsBestChain b prevNode then list_to_set txList
                 else list_to_set txList ∖
                      list_to_set (detachedHashes b (getReorganizeNodes b prevNode).1)) ∧
      dom v ⊆ list_to_set txList ∧
      (txList = [] → v = ∅)).
Proof.
  destruct (fetchTxList b node txList m) as [[r1 e] m'|] eqn:H; [|done]. simpl.
  intros v ->. apply fetchTxList_dom in H as (_ & prevNode & Hprev & Hdom).
  assert (dom v ⊆ list_to_set txList) as Hsub.
  { rewrite Hdom. destruct (extendsBestChain b prevNode); set_solver. }
  split_and!; [by exists prevNode | done |].
  intros ->. apply dom_empty_iff_L. set_solver.
Qed.

(** ** The calls of the collaborators *)

Lemma detachLoop_calls b nodes : ∀ v m r m',
  detachLoop b nodes v m = Returned r m' →
  ∃ k, k ≤ length nodes ∧
    calls m' = calls m ++ ((λ n, CallFetchBlockBySha (node_hash n)) <$> take k nodes) ∧
    (∀ v', r = inl v' → k = length nodes).
Proof.
  induction nodes as [|n rest IH]; intros v m r m' H.
  - injection H as <- <-. exists 0. simpl. by rewrite app_nil_r.
  - simpl in H. apply bind_Returned in H as ([] & m1 & Hl & H).
    injection Hl as <-.
    destruct (FetchBlockBySha b (node_hash n)) as [block|e].
    + apply bind_Returned in H as (r1 & m2 & Hd & H).
      apply (quiet_disconnectLoop block (Transactions block) 0 v) in Hd.
      destruct (IH _ _ _ _ H) as (k & Hk & Hc & Hall).
      exists (S k). split; [simpl; lia |]. split.
      * rewrite Hc, Hd. simpl. by rewrite <- app_assoc.
      * intros v' Hr. simpl. f_equal. by apply (Hall v').
    + injection H as <- <-. exists 1. split; [simpl; lia |]. split; [|done].
      simpl. by rewrite ?take_0.
Qed.

Lemma attachLoop_calls b nodes : ∀ v m r m',
  attachLoop b nodes v m = Returned r m' →
  ∃ j, j ≤ length nodes ∧
    calls m' = calls m ++ ((λ n, LookupBlockCache (node_hash n)) <$> take j nodes) ∧
    (∀ v', r = inl v' → j = length nodes).
Proof.
  induction nodes as [|n rest IH]; intros v m r m' H.
  - injection H as <- <-. exists 0. simpl. by rewrite app_nil_r.
  - simpl in H. apply bind_Returned in H as ([] & m1 & Hl & H).
    injection Hl as <-.
    destruct (blockCache b !! node_hash n) as [block|].
    + apply bind_Returned in H as (r1 & m2 & Hd & H).
      apply (quiet_connectLoop block (Transactions block) 0 v) in Hd.
      destruct (IH _ _ _ _ H) as (j & Hj & Hc & Hall).
      exists (S j). split; [simpl; lia |]. split.
      * rewrite Hc, Hd. simpl. by rewrite <- app_assoc.
      * intros v' Hr. simpl. f_equal. by apply (Hall v').
    + injection H as <- <-. exists 1. split; [simpl; lia |]. split; [|done].
      simpl. by rewrite ?take_0.
Qed.

Lemma fetchTxList_calls b node txList m r m' :
  fetchTxList b node txList m = Returned r m' →
  ∃ k j, calls m' = calls m ++ resolverLog b node txList k j ∧
    ∀ prevNode, getPrevNodeFromNode b node = inl prevNode →
      k ≤ length (getReorganizeNodes b prevNode).1 ∧
      j ≤ length (getReorganizeNodes b prevNode).2 ∧
      (0 < j → k = length (getReorganizeNodes b prevNode).1) ∧
      (extendsBestChain b prevNode = false → is_Some r.1 →
       k = length (getReorganizeNodes b prevNode).1 ∧
       j = length (getReorganizeNodes b prevNode).2).
Proof.
  unfold fetchTxList, resolverLog. intros H.
  apply bind_Returned in H as ([] & m1 & Hl1 & H). injection Hl1 as <-.
  destruct (getPrevNodeFromNode b node) as [prevNode|e0].
  2:{ injection H as <- <-. exists 0, 0. split; [done |]. by intros p. }
  apply bind_Returned in H as ([] & m2 & Hl2 & H). injection Hl2 as <-.
  apply bind_Returned in H as (v2 & m3 & Hrep & H).
  apply quiet_applyReplies in Hrep. simpl in Hrep.
  destruct (extendsBestChain b prevNode) eqn:Hext.
  { injection H as <- <-. exists 0, 0. split.
    - rewrite Hrep. by rewrite <- app_assoc.
    - intros p [= <-]. rewrite Hext. split_and!; [lia | lia | lia | done]. }
  apply bind_Returned in H as ([] & m4 & Hl4 & H). injection Hl4 as <-.
  destruct (getReorganizeNodes b prevNode) as [det att] eqn:Hre.
  apply bind_Returned in H as (r3 & m5 & Hdet & H).
  apply detachLoop_calls in Hdet as (k & Hk & Hc5 & Hall5). simpl in Hc5.
  assert (calls m5 = calls m ++
            CallGetPrevNodeFromNode node :: CallFetchTxByShaList txList ::
            CallGetReorganizeNodes prevNode ::
            ((λ n, CallFetchBlockBySha (node_hash n)) <$> take k det) ++ []) as Hc5'.
  { rewrite Hc5, Hrep, app_nil_r. by rewrite <- !app_assoc. }
  destruct r3 as [v3|e3].
  2:{ injection H as <- <-. exists k, 0. split; [by rewrite take_0 |].
      intros p [= <-]. rewrite Hre. simpl.
      split_and!; [done | lia | lia |]. by intros _ [? [=]]. }
  rewrite (Hall5 v3 eq_refl) in *.
  case_decide as Hatt.
  { injection H as <- <-. exists (length det), 0. split; [by rewrite take_0 |].
    intros p [= <-]. rewrite Hre. simpl. split_and!; [done | lia | done |].
    by split. }
  apply bind_Returned in H as (r4 & m6 & Hat & H).
  apply attachLoop_calls in Hat as (j & Hj & Hc6 & Hall6).
  assert (calls m' = calls m6) as Hm.
  { destruct r4; by injection H as _ <-. }
  exists (length det), j. split.
  { rewrite Hm, Hc6, Hc5', app_nil_r. by rewrite <- !app_assoc. }
  intros p [= <-]. rewrite Hre. simpl. split_and!; [done | done | done |].
  intros _ Hs. split; [done |]. destruct r4 as [v4|e4].
  - by apply (Hall6 v4).
  - injection H as <- _. by destruct Hs.
Qed.

(** X7: the calls [fetchTxList] makes, in order, for every call that returns
    (a view or an error).  The previous node is looked up first, once; when
    that fails nothing else is called.  Otherwise the database is asked once,
    for exactly the list requested; when the node extends the best chain that
    is all.  Otherwise the fork resolver is called once, then the blocks of
    the detach list are fetched in order, and only after all of them the
    nodes of the attach list are looked up in the cache, in order; a returned
    view means both lists were walked to the end. *)
Theorem fetchTxList_call_protocol b node txList m :
  whenReturned (fetchTxList b node txList m) (λ r m',
    ∃ k j, calls m' = calls m ++ resolverLog b node txList k j ∧
      ∀ prevNode, getPrevNodeFromNode b node = inl prevNode →
        k ≤ length (getReorganizeNodes b prevNode).1 ∧
        j ≤ length (getReorganizeNodes b prevNode).2 ∧
        (0 < j → k = length (getReorganizeNodes b prevNode).1) ∧
        (extendsBestChain b prevNode = false → is_Some r.1 →
         k = length (getReorganizeNodes b prevNode).1 ∧
         j = length (getReorganizeNodes b prevNode).2)).
Proof.
  destruct (fetchTxList b node txList m) as [r m'|] eqn:H; [|done]. simpl.
  by apply (fetchTxList_calls b node txList m r m').
Qed.

(** ** A block of the detach list that the database cannot fetch *)

Lemma detachLoop_fail b n post e : ∀ pre v m v1 m1,
  detachLoop b pre v m = Returned (inl v1) m1 →
  FetchBlockBySha b (node_hash n) = inr e →
  detachLoop b (pre ++ n :: post) v m =
  Returned (inr e)
           {| arrays := arrays m1; calls := calls m1 ++ [CallFetchBlockBySha (node_hash n)] |}.
Proof.
  induction pre as [|p pre IH]; intros v m v1 m1 Hpre Hfail.
  - injection Hpre as <- <-. simpl. unfold bind, log. by rewrite Hfail.
  - simpl in *. apply bind_Returned in Hpre as ([] & ml & Hl & Hpre).
    unfold bind at 1. rewrite Hl.
    destruct (FetchBlockBySha b (node_hash p)) as [block|]; [|done].
    apply bind_Returned in Hpre as (r & m2 & Hc & Hpre).
    unfold bind at 1. rewrite Hc. by apply (IH _ _ v1 m1).
Qed.

(** X8: an error of the database while the detach list is undone is passed
    on.  When the resolution reaches the detach list and the blocks of the
    nodes before [n] are fetched and undone, a node [n] whose block the
    database fails to fetch ends the call: [fetchTxList] returns no view and
    the database's error, it does not panic, the last thing it did is that
    fetch, and neither the rest of the detach list nor the attach list is
    looked at. *)
Theorem fetchTxList_storage_failure b node txList m prevNode pre n post attachNodes w1 e :
  repliesAllocated m (FetchTxByShaList b txList) →
  getPrevNodeFromNode b node = inl prevNode →
  extendsBestChain b prevNode = false →
  getReorganizeNodes b prevNode = (pre ++ n :: post, attachNodes) →
  undoBlocks b pre (baselineView m (FetchTxByShaList b txList) txList)
    = Some (Resolved w1) →
  FetchBlockBySha b (node_hash n) = inr e →
  ∃ m', fetchTxList b node txList m = Returned (None, Some e) m' ∧
        last (calls m') = Some (CallFetchBlockBySha (node_hash n)).
Proof.
  intros Ha Hprev Hext Hre Hundo Hfail.
  unfold fetchTxList. rewrite Hprev. unfold bind at 1. unfold log.
  unfold bind at 1. cbn [calls arrays].
  set (m1 := {| arrays := arrays m;
                calls := (calls m ++ [CallGetPrevNodeFromNode node]) ++
                         [CallFetchTxByShaList txList] |}).
  destruct (applyReplies_sim m (FetchTxByShaList b txList) m1 (missingStore txList))
    as (v2 & m2 & H2 & Hv2 & W2 & E2 & C2).
  { apply wf_missingStore. }
  { split_and!; [done | done |]. intros l Ho. by apply missingStore_owns in Ho. }
  { done. }
  rewrite view_missingStore in Hv2.
  fold (baselineView m (FetchTxByShaList b txList) txList) in Hv2.
  unfold bind at 1. rewrite H2, Hext. unfold bind at 1. cbn [calls arrays].
  set (m3 := {| arrays := arrays m2; calls := calls m2 ++ [CallGetReorganizeNodes prevNode] |}).
  rewrite Hre.
  assert (wf m3 v2) as W3 by by apply (wf_arrays m2).
  pose proof (detachLoop_sim b pre v2 m3 W3) as Hd.
  rewrite (view_arrays m3 m2), Hv2, Hundo in Hd by done.
  destruct (detachLoop b pre v2 m3) as [[v4|e4] m4|m4] eqn:Hpre;
    [| by destruct Hd | done].
  unfold bind. rewrite (detachLoop_fail b n post e pre v2 m3 v4 m4 Hpre Hfail).
  eexists. split; [done |]. simpl. apply last_snoc.
Qed.

Lemma fetchTxList_storage_failure_witness :
  ∃ m', fetchTxList exChainNoBlocks exSide [11%N] exMemUnspent =
          Returned (None, Some (StorageError 3%N)) m' ∧
        last (calls m') = Some (CallFetchBlockBySha (node_hash exTip)).
Proof.
  apply (fetchTxList_storage_failure exChainNoBlocks exSide [11%N] exMemUnspent
           (Some exOld) [] exTip [] []
           (baselineView exMemUnspent (FetchTxByShaList exChainNoBlocks [11%N]) [11%N])).
  - apply (exReplies_allocated (Some exTip) ∅).
  - reflexivity.
  - reflexivity.
  - reflexivity.
  - reflexivity.
  - reflexivity.
Defined.

(** ** A requested hash without a successful reply *)

Lemma applyReply_unanswered h v txReply m v' m' d :
  applyReply v txReply m = Returned v' m' →
  (reply_Sha txReply = h → reply_Err txReply ≠ None) →
  v !! h = Some d →
  ∃ d', v' !! h = Some d' ∧ tx d' = tx d ∧ hash d' = hash d ∧
        blockHeight d' = blockHeight d ∧ spent d' = spent d ∧
        (reply_Sha txReply ≠ h → d' = d) ∧ (err d ≠ None → err d' ≠ None).
Proof.
  intros H Hne Hd. unfold applyReply in H.
  destruct (decide (reply_Sha txReply = h)) as [Heq|Hneq].
  - specialize (Hne Heq). rewrite Heq, Hd in H.
    destruct (reply_Err txReply) as [e|]; [|done].
    injection H as <- <-. rewrite lookup_insert_eq. eexists. by split_and!.
  - assert (v' !! h = v !! h) as Hsame.
    { destruct (v !! reply_Sha txReply) as [txD|]; [|by injection H as <- <-].
      destruct (reply_Err txReply) as [e|].
      - injection H as <- <-. by rewrite lookup_insert_ne.
      - unbind H. injection H as <- <-. by rewrite lookup_insert_ne. }
    exists d. rewrite Hsame. by split_and!.
Qed.

Lemma applyReplies_unanswered h txReplyList : ∀ v m v' m' d,
  applyReplies txReplyList v m = Returned v' m' →
  (∀ r, r ∈ txReplyList → reply_Sha r = h → reply_Err r ≠ None) →
  v !! h = Some d →
  ∃ d', v' !! h = Some d' ∧ tx d' = tx d ∧ hash d' = hash d ∧
        blockHeight d' = blockHeight d ∧ spent d' = spent d ∧
        ((∀ r, r ∈ txReplyList → reply_Sha r ≠ h) → d' = d) ∧
        (err d ≠ None → err d' ≠ None).
Proof.
  induction txReplyList as [|r rest IH]; intros v m v' m' d H Hne Hd.
  - injection H as <- <-. exists d. by split_and!.
  - simpl in H. apply bind_Returned in H as (v1 & m1 & H1 & H).
    destruct (applyReply_unanswered h _ _ _ _ _ d H1) as
      (d1 & Hd1 & T1 & K1 & B1 & S1 & Same1 & E1); [|done|].
    { apply Hne. by left. }
    destruct (IH _ _ _ _ d1 H) as (d' & Hd' & T & K & B & S & Same & E); [|done|].
    { intros r' Hr'. apply Hne. by right. }
    exists d'. split_and!; [done | congruence.. | | by auto].
    intros Hall. rewrite Same, Same1; [done | |].
    + apply Hall. by left.
    + intros r' Hr'. apply Hall. by right.
Qed.

(** X9: on the shortcut path (the node extends the best chain, or no best
    chain is selected), a requested hash for which the database has no
    successful reply is still a key of the view: its entry has no
    transaction, height 0, a nil bitmap and an error that is not [nil].
    When the database has no reply at all for the hash, the entry is the
    placeholder [btcdb.TxShaMissing] the function starts from. *)
Theorem fetchTxList_unanswered b node txList m prevNode h :
  getPrevNodeFromNode b node = inl prevNode →
  extendsBestChain b prevNode = true →
  h ∈ txList →
  (∀ r, r ∈ FetchTxByShaList b txList → reply_Sha r = h → reply_Err r ≠ None) →
  ∃ v m' d, fetchTxList b node txList m = Returned (Some v, None) m' ∧
    v !! h = Some d ∧
    tx d = None ∧ hash d = h ∧ blockHeight d = 0%Z ∧ spent d = None ∧ err d ≠ None ∧
    ((∀ r, r ∈ FetchTxByShaList b txList → reply_Sha r ≠ h) → d = missingTxData h).
Proof.
  intros Hprev Hext Hin Hne.
  destruct (applyReplies_returns (FetchTxByShaList b txList) (missingStore txList)
              {| arrays := arrays m;
                 calls := calls m ++ [CallGetPrevNodeFromNode node;
                                      CallFetchTxByShaList txList] |})
    as (v & m' & Hv).
  destruct (applyReplies_unanswered h _ _ _ _ _ (missingTxData h) Hv Hne)
    as (d & Hd & T & K & B & S & Same & E).
  { rewrite missingStore_lookup. by rewrite decide_True. }
  exists v, m', d.
  split; [by apply (fetchTxList_shortcut b node txList m prevNode) |].
  split_and!; [done..| by apply E | done].
Qed.

Lemma fetchTxList_unanswered_witness :
  ∃ v m' d, fetchTxList (exChain (Some exTip) ∅) exNext [11%N; 20%N] exMemUnspent
              = Returned (Some v, None) m' ∧
    v !! 20%N = Some d ∧
    tx d = None ∧ hash d = 20%N ∧ blockHeight d = 0%Z ∧ spent d = None ∧ err d ≠ None ∧
    ((∀ r, r ∈ FetchTxByShaList (exChain (Some exTip) ∅) [11%N; 20%N] →
           reply_Sha r ≠ 20%N) → d = missingTxData 20%N).
Proof.
  apply (fetchTxList_unanswered (exChain (Some exTip) ∅) exNext [11%N; 20%N] exMemUnspent
           (Some exTip) 20%N).
  - reflexivity.
  - reflexivity.
  - right. by left.
  - intros r Hr Hsha. change (r ∈ exReply <$> [11%N; 20%N]) in Hr.
    apply list_elem_of_fmap in Hr as (h & -> & Hh).
    unfold exReply in *. case_decide as Heq; [|done].
    simpl in Hsha. by rewrite Hsha in Heq.
Defined.

(** ** Resolving again *)

Lemma baselineView_frame m m1 txReplyList txList :
  (∀ r, r ∈ txReplyList →
     contents m1 (reply_TxSpent r) = contents m (reply_TxSpent r)) →
  baselineView m1 txReplyList txList = baselineView m txReplyList txList.
Proof.
  unfold baselineView. generalize (missingView txList).
  induction txReplyList as [|r rest IH]; intros w H; [done |]. simpl.
  assert (applyReplyView m1 w r = applyReplyView m w r) as ->.
  { unfold applyReplyView. rewrite H; [done | by left]. }
  apply IH. intros r' Hr'. apply H. by right.
Qed.

Lemma resolveView_frame b m m1 node txList :
  (∀ r, r ∈ FetchTxByShaList b txList →
     contents m1 (reply_TxSpent r) = contents m (reply_TxSpent r)) →
  resolveView b m1 node txList = resolveView b m node txList.
Proof. intros H. unfold resolveView. by rewrite (baselineView_frame m m1). Qed.

Lemma extends_replies m m1 v txReplyList :
  repliesAllocated m txReplyList → extends m m1 v →
  repliesAllocated m1 txReplyList ∧
  ∀ r, r ∈ txReplyList → contents m1 (reply_TxSpent r) = contents m (reply_TxSpent r).
Proof.
  intros Ha E. split.
  - intros r l Hr Hl. destruct E as (Hlen & _ & _). specialize (Ha r l Hr Hl). lia.
  - intros r Hr. apply (contents_extends m m1 v); [done |]. intros l Hl. by apply (Ha r).
Qed.

(** X10: resolving again gives the same answer.  When a call of [fetchTxList]
    returns, a second call for the same node and hashes, made in the memory
    the first one left, returns as well, with the same error and a view that
    reads the same entry for entry: the first call wrote to none of the
    bitmaps of the database's replies. *)
Theorem fetchTxList_repeatable b node txList m :
  repliesAllocated m (FetchTxByShaList b txList) →
  whenReturned (fetchTxList b node txList m) (λ r1 m1,
    ∃ r2 m2, fetchTxList b node txList m1 = Returned r2 m2 ∧
      r2.2 = r1.2 ∧ view m2 <$> r2.1 = view m1 <$> r1.1).
Proof.
  intros Ha. pose proof (fetchTxList_sim b node txList m Ha) as H1.
  destruct (fetchTxList b node txList m) as [[[v1|] [e1|]] m1|]; try done; simpl.
  - destruct H1 as (Hres & _ & E).
    destruct (extends_replies _ _ _ _ Ha E) as [Ha1 Hc].
    pose proof (fetchTxList_sim b node txList m1 Ha1) as H2.
    rewrite (resolveView_frame b m m1 node txList Hc), Hres in H2.
    destruct (fetchTxList b node txList m1) as [[[v2|] [e2|]] m2|]; try done.
    + destruct H2 as ([= Hv] & _). exists (Some v2, None), m2. simpl.
      split_and!; [done | done |]. by rewrite Hv.
    + by destruct H2.
  - destruct H1 as (Hres & v' & E).
    destruct (extends_replies _ _ _ _ Ha E) as [Ha1 Hc].
    pose proof (fetchTxList_sim b node txList m1 Ha1) as H2.
    rewrite (resolveView_frame b m m1 node txList Hc), Hres in H2.
    destruct (fetchTxList b node txList m1) as [[[v2|] [e2|]] m2|]; try done.
    + by destruct H2.
    + destruct H2 as ([= <-] & _). by exists (None, Some e1), m2.
Qed.

Lemma fetchTxList_repeatable_witness :
  returns (fetchTxList (exChain (Some exTip) ∅) exSide [11%N; 20%N] exMemUnspent) ∧
  whenReturned (fetchTxList (exChain (Some exTip) ∅) exSide [11%N; 20%N] exMemUnspent)
    (λ r1 m1,
      ∃ r2 m2, fetchTxList (exChain (Some exTip) ∅) exSide [11%N; 20%N] m1
                 = Returned r2 m2 ∧
        r2.2 = r1.2 ∧ view m2 <$> r2.1 = view m1 <$> r1.1).
Proof.
  split; [vm_compute; by eexists _, _ |].
  apply (fetchTxList_repeatable (exChain (Some exTip) ∅) exSide [11%N; 20%N] exMemUnspent).
  apply exReplies_allocated.
Defined.

(** ** The view owns what it shows *)

(** X11: a view [fetchTxList] returns is well formed.  Every non-nil bitmap
    of an entry is an allocated array that no other entry of the view
    refers to, so a flag set through one entry never shows in another; every
    entry carries the hash it is filed under. *)
Theorem fetchTxList_view_owned b node txList m :
  repliesAllocated m (FetchTxByShaList b txList) →
  whenReturned (fetchTxList b node txList m) (λ r m',
    ∀ v, r.1 = Some v →
      wf m' v ∧
      (∀ h d, v !! h = Some d → hash d = h) ∧
      (∀ h d i bit, v !! h = Some d →
         whenReturned (store (spent d) i bit m') (λ _ m'',
           ∀ h' d', h' ≠ h → v !! h' = Some d' →
                    contents m'' (spent d') = contents m' (spent d')))).
Proof.
  intros Ha. pose proof (fetchTxList_sim b node txList m Ha) as H.
  destruct (fetchTxList b node txList m) as [[[v|] [e|]] m'|]; try done.
  simpl. intros v0 [= <-]. destruct H as (Hres & W & _).
  apply keyedView_resolveView in Hres.
  split_and!; [done | |].
  - intros h d Hd. apply (Hres h (observe m' d)). by rewrite view_lookup, Hd.
  - intros h d i bit Hd.
    destruct (store (spent d) i bit m') as [[] m''|] eqn:Hs; [|done]. simpl.
    intros h' d' Hne Hd'. unfold store in Hs.
    destruct (spent d) as [l|] eqn:Hl; [|done].
    destruct (arrays m' !! l) as [arr|]; [|done]. case_decide; [|done].
    injection Hs as <-. unfold contents. simpl.
    destruct (spent d') as [l'|] eqn:Hl'; [|done].
    rewrite list_lookup_insert_ne; [done |]. intros <-.
    by destruct (wf_inj m' v h h' d d' l W Hd Hl Hd' Hl').
Qed.

Lemma fetchTxList_view_owned_witness :
  returns (fetchTxList (exChain (Some exTip) ∅) exNext [11%N; 20%N] exMemUnspent) ∧
  whenReturned (fetchTxList (exChain (Some exTip) ∅) exNext [11%N; 20%N] exMemUnspent)
    (λ r m',
      ∀ v, r.1 = Some v →
        wf m' v ∧
        (∀ h d, v !! h = Some d → hash d = h) ∧
        (∀ h d i bit, v !! h = Some d →
           whenReturned (store (spent d) i bit m') (λ _ m'',
             ∀ h' d', h' ≠ h → v !! h' = Some d' →
                      contents m'' (spent d') = contents m' (spent d')))).
Proof.
  split; [vm_compute; by eexists _, _ |].
  apply (fetchTxList_view_owned (exChain (Some exTip) ∅) exNext [11%N; 20%N] exMemUnspent).
  apply exReplies_allocated.
Defined.

(** * Further properties of the input resolver *)

Lemma collectInput_needed node txInFlight st txIn m st' m' :
  collectInput node txInFlight st txIn m = Returned st' m' →
  st'.1 = st.1 ++ filter (λ h, h ∉ dom txInFlight) [op_Hash (PreviousOutpoint txIn)] ∧
  dom st'.2 = {[op_Hash (PreviousOutpoint txIn)]} ∪ dom st.2.
Proof.
  destruct st as [needed store]. unfold collectInput.
  destruct (txInFlight !! op_Hash (PreviousOutpoint txIn)) as [t|] eqn:Ht.
  - intros H. unbind H. injection H as <- <-. simpl.
    rewrite filter_cons_False, filter_nil, app_nil_r, dom_insert_L; [done |].
    intros Hn. apply Hn. by apply elem_of_dom_2 in Ht.
  - intros [= <- <-]. simpl.
    rewrite filter_cons_True, filter_nil, dom_insert_L; [done |].
    by apply not_elem_of_dom.
Qed.

Lemma filter_head {A} (P : A → Prop) `{∀ x, Decision (P x)} (x : A) (l : list A) :
  filter P (x :: l) = filter P [x] ++ filter P l.
Proof. by rewrite <- filter_app. Qed.

Lemma collectInput_loop_needed node txInFlight txIns : ∀ st m st' m',
  foldM (collectInput node txInFlight) txIns st m = Returned st' m' →
  st'.1 = st.1 ++ filter (λ h, h ∉ dom txInFlight)
                         ((λ txIn, op_Hash (PreviousOutpoint txIn)) <$> txIns) ∧
  dom st'.2 = list_to_set ((λ txIn, op_Hash (PreviousOutpoint txIn)) <$> txIns) ∪ dom st.2.
Proof.
  induction txIns as [|txIn rest IH]; intros st m st' m' H; simpl in H.
  - injection H as <- <-. simpl. rewrite filter_nil, app_nil_r. set_solver.
  - apply bind_Returned in H as (st1 & m1 & H1 & H).
    apply collectInput_needed in H1 as [N1 D1].
    apply IH in H as [N2 D2]. rewrite N2, N1, D2, D1, fmap_cons.
    rewrite (filter_head _ _ (_ <$> rest)), app_assoc.
    split; [done |]. simpl. set_solver.
Qed.

Lemma originsOf_cons tx_ rest :
  originsOf (tx_ :: rest) =
  ((λ txIn, op_Hash (PreviousOutpoint txIn)) <$> tx_TxIn tx_) ++ originsOf rest.
Proof. done. Qed.

Lemma collectInputs_needed node txInFlight txs : ∀ st m st' m',
  collectInputs node txInFlight txs st m = Returned st' m' →
  st'.1 = st.1 ++ filter (λ h, h ∉ dom txInFlight) (originsOf txs) ∧
  dom st'.2 = list_to_set (originsOf txs) ∪ dom st.2.
Proof.
  unfold collectInputs.
  induction txs as [|t rest IH]; intros st m st' m' H; simpl in H.
  - injection H as <- <-. unfold originsOf. simpl. rewrite filter_nil, app_nil_r.
    set_solver.
  - apply bind_Returned in H as (st1 & m1 & H1 & H).
    apply collectInput_loop_needed in H1 as [N1 D1].
    apply IH in H as [N2 D2].
    rewrite N2, N1, D2, D1, originsOf_cons, filter_app, app_assoc, list_to_set_app_L.
    split; [done |]. set_solver.
Qed.

Lemma inFlight_dom txs :
  dom (foldl (λ a t, <[tx_Sha t := t]> a) (∅ : gmap N MsgTx) txs) =
  list_to_set (tx_Sha <$> txs).
Proof.
  apply set_eq. intros h. rewrite elem_of_dom, inFlight_lookup, elem_of_list_to_set.
  destruct (lastCreated h txs) as [t|] eqn:Hl.
  - apply lastCreated_Some in Hl as [Hin <-]. split; [|by eauto].
    intros _. apply list_elem_of_fmap. by exists t.
  - rewrite lookup_empty. apply lastCreated_None in Hl.
    split; [by intros [? ?] | done].
Qed.

Lemma fetchInputTransactions_steps b node block m coinbase nonCoinbase :
  Transactions block = coinbase :: nonCoinbase →
  ∃ txInFlight store m1,
    inFlightLoop block 0 (Transactions block) ∅ m = Returned txInFlight m ∧
    dom txInFlight = list_to_set (tx_Sha <$> Transactions block) ∧
    collectInputs node txInFlight nonCoinbase ([], ∅) m
      = Returned (neededOf block nonCoinbase, store) m1 ∧
    collected node txInFlight (neededOf block nonCoinbase, store) m1 ∧
    length (arrays m) ≤ length (arrays m1) ∧ calls m1 = calls m ∧
    dom store = list_to_set (originsOf nonCoinbase) ∧
    fetchInputTransactions b node block m =
      match fetchTxList b node (neededOf block nonCoinbase) m1 with
      | Returned (_, Some e) m2 => Returned (None, Some e) m2
      | Returned (vn, None) m2 =>
        Returned (Some (mergeStores (default ∅ vn) store), None) m2
      | Panicked m2 => Panicked m2
      end.
Proof.
  intros Htxs.
  set (txInFlight := foldl (λ a t0, <[tx_Sha t0 := t0]> a) (∅ : gmap N MsgTx)
                           (Transactions block)).
  assert (inFlightLoop block 0 (Transactions block) ∅ m = Returned txInFlight m) as Hfl
    by by apply inFlightLoop_Returned.
  assert (dom txInFlight = list_to_set (tx_Sha <$> Transactions block)) as Hdom
    by apply inFlight_dom.
  assert (collected node txInFlight ([], ∅) m) as Hc0.
  { split_and!; simpl.
    - apply wf_empty.
    - intros h0 H0. by apply elem_of_nil in H0.
    - intros h0 d0 H0. by rewrite lookup_empty in H0. }
  destruct (collectInputs_loop node txInFlight nonCoinbase _ m Hc0)
    as ([needed store] & m1 & Hcol & Hc1 & L1 & C1 & _ & _).
  destruct (collectInputs_needed _ _ _ _ _ _ _ Hcol) as [Hn Hd]. simpl in Hn, Hd.
  assert (needed = neededOf block nonCoinbase) as ->.
  { rewrite Hn. unfold neededOf. apply list_filter_iff. intros h.
    by rewrite Hdom, elem_of_list_to_set. }
  exists txInFlight, store, m1. split_and!; try done.
  { rewrite Hd. set_solver. }
  unfold fetchInputTransactions. unfold bind at 1. rewrite Hfl, Htxs.
  unfold bind at 1. rewrite Hcol. simpl. unfold bind.
  by destruct (fetchTxList b node (neededOf block nonCoinbase) m1) as [[vn [e|]] m2|].
Qed.

Lemma storageLookups_none es :
  (∀ e l, e ∈ es → e ≠ CallFetchTxByShaList l) → storageLookups es = [].
Proof.
  induction es as [|e rest IH]; intros H; [done |].
  unfold storageLookups in *. simpl.
  destruct e as [| l | | |]; try (apply IH; intros e' l' He'; apply H; by right).
  exfalso. by apply (H (CallFetchTxByShaList l) l); [left |].
Qed.

Lemma storageLookups_resolverLog b node txList k j :
  storageLookups (resolverLog b node txList k j) =
  match getPrevNodeFromNode b node with
  | inl _ => [txList]
  | inr _ => []
  end.
Proof.
  unfold resolverLog. destruct (getPrevNodeFromNode b node) as [prevNode|e]; [|done].
  change (storageLookups (CallGetPrevNodeFromNode node :: CallFetchTxByShaList txList :: ?es))
    with (txList :: storageLookups es).
  f_equal. destruct (extendsBestChain b prevNode); [done |].
  change (storageLookups (CallGetReorganizeNodes prevNode :: ?es))
    with (storageLookups es).
  apply storageLookups_none. intros e l He ->.
  apply elem_of_app in He as [He|He]; by apply list_elem_of_fmap in He as (n & Hn & _).
Qed.

(** X12: what [fetchInputTransactions] asks the database for.  On a block
    with at least one transaction the two loops return; the needed list is
    the list of the origins of the inputs of the transactions after the
    first that are not hashes of transactions of the block, in the order of
    the inputs and with their repetitions (the inputs of the first
    transaction, the coinbase, are not looked at).  A call that returns has
    made the calls of one [fetchTxList] for that list and no other: the
    database is asked once, for exactly that list, when the previous node is
    found, and not at all when it is not. *)
Theorem fetchInputTransactions_needed b node block m coinbase nonCoinbase :
  Transactions block = coinbase :: nonCoinbase →
  ∃ txInFlight store m1,
    inFlightLoop block 0 (Transactions block) ∅ m = Returned txInFlight m ∧
    collectInputs node txInFlight nonCoinbase ([], ∅) m
      = Returned (neededOf block nonCoinbase, store) m1 ∧
    calls m1 = calls m ∧
    whenReturned (fetchInputTransactions b node block m) (λ r m',
      (∃ k j, calls m' = calls m ++ resolverLog b node (neededOf block nonCoinbase) k j) ∧
      storageLookups (calls m') =
        storageLookups (calls m) ++
        match getPrevNodeFromNode b node with
        | inl _ => [neededOf block nonCoinbase]
        | inr _ => []
        end).
Proof.
  intros Htxs.
  destruct (fetchInputTransactions_steps b node block m coinbase nonCoinbase Htxs)
    as (txInFlight & store & m1 & Hfl & _ & Hcol & _ & _ & C1 & _ & Heq).
  exists txInFlight, store, m1. split_and!; [done..|].
  rewrite Heq.
  destruct (fetchTxList b node (neededOf block nonCoinbase) m1) as [r m2|] eqn:Hf.
  2:{ done. }
  destruct (fetchTxList_calls _ _ _ _ _ _ Hf) as (k & j & Hc & _).
  rewrite C1 in Hc.
  assert (∀ r' : option (gmap N txData) * option error,
            whenReturned (Returned r' m2) (λ _ m',
              (∃ k j, calls m' = calls m ++
                        resolverLog b node (neededOf block nonCoinbase) k j) ∧
              storageLookups (calls m') =
                storageLookups (calls m) ++
                match getPrevNodeFromNode b node with
                | inl _ => [neededOf block nonCoinbase]
                | inr _ => []
                end)) as Hgoal.
  { intros r'. simpl. split; [by exists k, j |].
    by rewrite Hc, storageLookups_app, storageLookups_resolverLog. }
  destruct r as [vn [e|]]; apply Hgoal.
Qed.

Lemma fetchInputTransactions_needed_witness :
  returns (fetchInputTransactions (exChain (Some exTip) ∅) exNext exBlockNeeds exMemUnspent) ∧
  ∃ txInFlight store m1,
    inFlightLoop exBlockNeeds 0 (Transactions exBlockNeeds) ∅ exMemUnspent
      = Returned txInFlight exMemUnspent ∧
    collectInputs exNext txInFlight [exT5] ([], ∅) exMemUnspent
      = Returned (neededOf exBlockNeeds [exT5], store) m1 ∧
    calls m1 = calls exMemUnspent ∧
    whenReturned
      (fetchInputTransactions (exChain (Some exTip) ∅) exNext exBlockNeeds exMemUnspent)
      (λ r m',
        (∃ k j, calls m' = calls exMemUnspent ++
                  resolverLog (exChain (Some exTip) ∅) exNext
                              (neededOf exBlockNeeds [exT5]) k j) ∧
        storageLookups (calls m') =
          storageLookups (calls exMemUnspent) ++
          match getPrevNodeFromNode (exChain (Some exTip) ∅) exNext with
          | inl _ => [neededOf exBlockNeeds [exT5]]
          | inr _ => []
          end).
Proof.
  split; [vm_compute; by eexists _, _ |].
  by apply (fetchInputTransactions_needed (exChain (Some exTip) ∅) exNext exBlockNeeds
              exMemUnspent exT1 [exT5]).
Defined.

Lemma collected_keyed node txInFlight st m h d :
  collected node txInFlight st m → st.2 !! h = Some d → hash d = h.
Proof.
  intros (_ & _ & He) Hd. specialize (He h d Hd).
  destruct (txInFlight !! h) as [t|].
  - by apply (f_equal s_hash) in He.
  - by destruct He as [-> _].
Qed.

Lemma fetchTxList_keyed b node txList m v m' :
  repliesAllocated m (FetchTxByShaList b txList) →
  fetchTxList b node txList m = Returned (Some v, None) m' →
  wf m' v ∧ extends m m' v ∧ ∀ h d, v !! h = Some d → hash d = h ∧ h ∈ txList.
Proof.
  intros Ha Hf. pose proof (fetchTxList_sim b node txList m Ha) as H.
  rewrite Hf in H. destruct H as (Hres & W & E).
  apply keyedView_resolveView in Hres. split_and!; [done | done |].
  intros h d Hd. apply (Hres h (observe m' d)). by rewrite view_lookup, Hd.
Qed.

(** X13: how [fetchInputTransactions] puts its result together.  With [store]
    the entries the loop over the inputs collected (one for every origin; for
    an origin that is not a transaction of the block the placeholder
    [btcdb.TxShaMissing]), the call ends as the call of [fetchTxList] for the
    needed list does: it panics when that panics, returns no view and the
    same error when that returns an error, and otherwise returns the entries
    of that view together with the entries of [store] for the hashes that
    view has no entry for.  So an origin [fetchTxList] dropped from its view
    is still a key of the result, marked missing. *)
Theorem fetchInputTransactions_merge b node block m coinbase nonCoinbase :
  repliesAllocated m (FetchTxByShaList b (neededOf block nonCoinbase)) →
  Transactions block = coinbase :: nonCoinbase →
  ∃ txInFlight store m1,
    collectInputs node txInFlight nonCoinbase ([], ∅) m
      = Returned (neededOf block nonCoinbase, store) m1 ∧
    dom store = list_to_set (originsOf nonCoinbase) ∧
    (∀ h d, store !! h = Some d → h ∉ tx_Sha <$> Transactions block →
            d = missingTxData h) ∧
    match fetchTxList b node (neededOf block nonCoinbase) m1 with
    | Returned (Some vn, None) m2 =>
      fetchInputTransactions b node block m = Returned (Some (vn ∪ store), None) m2
    | Returned (None, Some e) m2 =>
      fetchInputTransactions b node block m = Returned (None, Some e) m2
    | Returned _ _ => False
    | Panicked m2 => fetchInputTransactions b node block m = Panicked m2
    end.
Proof.
  intros Ha Htxs.
  destruct (fetchInputTransactions_steps b node block m coinbase nonCoinbase Htxs)
    as (txInFlight & store & m1 & _ & Hfl & Hcol & Hc & L1 & _ & Hd & Heq).
  exists txInFlight, store, m1. split_and!; [done | done | |].
  { intros h d Hh Hnot. destruct Hc as (_ & _ & He). specialize (He h d Hh).
    simpl in He. destruct (txInFlight !! h) as [t|] eqn:Ht; [|by destruct He].
    apply elem_of_dom_2 in Ht. rewrite Hfl, elem_of_list_to_set in Ht. done. }
  assert (repliesAllocated m1 (FetchTxByShaList b (neededOf block nonCoinbase))) as Ha1.
  { intros r l Hr Hl. specialize (Ha r l Hr Hl). lia. }
  pose proof (fetchTxList_sim b node (neededOf block nonCoinbase) m1 Ha1) as Hsim.
  pose proof (fetchTxList_keyed b node (neededOf block nonCoinbase) m1) as Hk.
  rewrite Heq.
  destruct (fetchTxList b node (neededOf block nonCoinbase) m1) as [[[vn|] [e|]] m2|];
    try done.
  simpl. rewrite mergeStores_union; [done |].
  intros h d Hh. by apply (Hk vn m2 Ha1 eq_refl).
Qed.

Lemma fetchInputTransactions_merge_witness :
  ∃ txInFlight store m1,
    collectInputs exNext txInFlight [exT5] ([], ∅) exMemUnspent
      = Returned (neededOf exBlockNeeds [exT5], store) m1 ∧
    dom store = list_to_set (originsOf [exT5]) ∧
    (∀ h d, store !! h = Some d → h ∉ tx_Sha <$> Transactions exBlockNeeds →
            d = missingTxData h) ∧
    match fetchTxList (exChain (Some exTip) ∅) exNext (neededOf exBlockNeeds [exT5]) m1 with
    | Returned (Some vn, None) m2 =>
      fetchInputTransactions (exChain (Some exTip) ∅) exNext exBlockNeeds exMemUnspent
        = Returned (Some (vn ∪ store), None) m2
    | Returned (None, Some e) m2 =>
      fetchInputTransactions (exChain (Some exTip) ∅) exNext exBlockNeeds exMemUnspent
        = Returned (None, Some e) m2
    | Returned _ _ => False
    | Panicked m2 =>
      fetchInputTransactions (exChain (Some exTip) ∅) exNext exBlockNeeds exMemUnspent
        = Panicked m2
    end.
Proof.
  apply (fetchInputTransactions_merge (exChain (Some exTip) ∅) exNext exBlockNeeds
           exMemUnspent exT1 [exT5]).
  - apply exReplies_allocated.
  - reflexivity.
Defined.

Lemma wf_union m1 m2 vn store :
  wf m1 store → wf m2 vn → extends m1 m2 vn → wf m2 (vn ∪ store).
Proof.
  intros Ws Wn (Hlen & _ & Hfresh).
  assert (∀ h d l, store !! h = Some d → spent d = Some l → l < length (arrays m1)) as Hold.
  { intros h d l Hh Hs. by apply (wf_lookup_lt m1 store h d l). }
  assert (∀ h d l, vn !! h = Some d → spent d = Some l → length (arrays m1) ≤ l) as Hnew.
  { intros h d l Hh Hs. apply Hfresh. by exists h, d. }
  intros h d l Hh Hs. apply lookup_union_Some_raw in Hh as [Hh|[Hn Hh]].
  - split; [by apply (wf_lookup_lt m2 vn h d l) |].
    intros h' d' Hh' Hs'. apply lookup_union_Some_raw in Hh' as [Hh'|[_ Hh']].
    + by apply (wf_inj m2 vn h h' d d' l).
    + specialize (Hold h' d' l Hh' Hs'). specialize (Hnew h d l Hh Hs). lia.
  - split; [specialize (Hold h d l Hh Hs); lia |].
    intros h' d' Hh' Hs'. apply lookup_union_Some_raw in Hh' as [Hh'|[_ Hh']].
    + specialize (Hold h d l Hh Hs). specialize (Hnew h' d' l Hh' Hs'). lia.
    + by apply (wf_inj m1 store h h' d d' l).
Qed.

(** X14: the view [fetchInputTransactions] returns.  Its keys are exactly the
    origins of the inputs of the transactions after the first, whatever
    [fetchTxList] kept of the needed ones (for a block with only a coinbase
    the view is empty); every entry carries the hash it is filed under; and
    the view owns its bitmaps: each is allocated and no two entries share
    one, so the bitmaps of the in-flight entries and of the entries that
    [fetchTxList] filled never alias. *)
Theorem fetchInputTransactions_view b node block m coinbase nonCoinbase :
  repliesAllocated m (FetchTxByShaList b (neededOf block nonCoinbase)) →
  Transactions block = coinbase :: nonCoinbase →
  whenReturned (fetchInputTransactions b node block m) (λ r m',
    ∀ v, r.1 = Some v →
      dom v = list_to_set (originsOf nonCoinbase) ∧
      (nonCoinbase = [] → v = ∅) ∧
      (∀ h d, v !! h = Some d → hash d = h) ∧
      wf m' v).
Proof.
  intros Ha Htxs.
  destruct (fetchInputTransactions_steps b node block m coinbase nonCoinbase Htxs)
    as (txInFlight & store & m1 & _ & Hfl & Hcol & Hc & L1 & _ & Hd & Heq).
  assert (repliesAllocated m1 (FetchTxByShaList b (neededOf block nonCoinbase))) as Ha1.
  { intros r l Hr Hl. specialize (Ha r l Hr Hl). lia. }
  pose proof (fetchTxList_sim b node (neededOf block nonCoinbase) m1 Ha1) as Hsim.
  pose proof (fetchTxList_keyed b node (neededOf block nonCoinbase) m1) as Hk.
  rewrite Heq.
  destruct (fetchTxList b node (neededOf block nonCoinbase) m1) as [[[vn|] [e|]] m2|];
    try done.
  simpl. intros v [= <-].
  destruct (Hk vn m2 Ha1 eq_refl) as (Wn & E & K).
  rewrite mergeStores_union by (intros h d Hh; by apply K).
  assert (dom (vn ∪ store) = list_to_set (originsOf nonCoinbase)) as Hdom.
  { rewrite dom_union_L, Hd. apply set_eq. intros h.
    rewrite elem_of_union, elem_of_list_to_set. split; [|by auto].
    intros [Hh|Hh]; [|done]. apply elem_of_dom in Hh as [d Hh].
    destruct (K h d Hh) as [_ Hin]. unfold neededOf in Hin.
    by apply list_elem_of_filter in Hin as [_ Hin]. }
  split_and!; [done | | |].
  - intros ->. apply dom_empty_iff_L. by rewrite Hdom.
  - intros h d Hh. apply lookup_union_Some_raw in Hh as [Hh|[_ Hh]].
    + by apply K.
    + by apply (collected_keyed node txInFlight _ m1 h d Hc).
  - destruct Hc as (Ws & _ & _). by apply (wf_union m1).
Qed.

Lemma fetchInputTransactions_view_witness :
  returns (fetchInputTransactions (exChain (Some exTip) ∅) exNext exBlockNeeds exMemUnspent) ∧
  whenReturned
    (fetchInputTransactions (exChain (Some exTip) ∅) exNext exBlockNeeds exMemUnspent)
    (λ r m',
      ∀ v, r.1 = Some v →
        dom v = list_to_set (originsOf [exT5]) ∧
        ([exT5] = [] → v = ∅) ∧
        (∀ h d, v !! h = Some d → hash d = h) ∧
        wf m' v).
Proof.
  split; [vm_compute; by eexists _, _ |].
  apply (fetchInputTransactions_view (exChain (Some exTip) ∅) exNext exBlockNeeds
           exMemUnspent exT1 [exT5]).
  - apply exReplies_allocated.
  - reflexivity.
Defined.

(** * What is written, and which errors are returned *)

(** X15: the mutators keep to the store they are given.  When the store owns
    its bitmaps, a mutator writes to no array that no entry of the store
    refers to, and the store it returns owns its bitmaps again, so the
    mutators can be chained as [fetchTxList] chains them. *)
Theorem mutators_frame m v block :
  wf m v →
  whenReturned (connectTransactions v block m) (λ r m',
    wf m' r.1 ∧
    ∀ l, l < length (arrays m) → ¬ owns v l → arrays m' !! l = arrays m !! l) ∧
  whenReturned (disconnectTransactions v block m) (λ r m',
    wf m' r.1 ∧
    ∀ l, l < length (arrays m) → ¬ owns v l → arrays m' !! l = arrays m !! l).
Proof.
  intros W. split.
  - destruct (connectTransactions v block m) as [[v' e] m'|] eqn:Hc; [|done]. simpl.
    destruct (connectTransactions_Returned _ _ _ _ _ _ W Hc) as (_ & _ & W' & [_ F _ _]).
    by split.
  - destruct (disconnectTransactions v block m) as [[v' e] m'|] eqn:Hc; [|done]. simpl.
    destruct (disconnectTransactions_Returned _ _ _ _ _ _ W Hc) as (_ & _ & W' & [_ F _ _]).
    by split.
Qed.

Lemma mutators_frame_witness :
  (returns (connectTransactions exStoreKnown exBlockSpend
              {| arrays := [[false; false]; [true]]; calls := [] |}) ∧
   returns (disconnectTransactions exStoreKnown exBlockSpend
              {| arrays := [[false; false]; [true]]; calls := [] |})) ∧
  whenReturned (connectTransactions exStoreKnown exBlockSpend
                  {| arrays := [[false; false]; [true]]; calls := [] |}) (λ r m',
    wf m' r.1 ∧
    ∀ l, l < length (arrays {| arrays := [[false; false]; [true]]; calls := [] |}) →
         ¬ owns exStoreKnown l →
         arrays m' !! l = arrays {| arrays := [[false; false]; [true]]; calls := [] |} !! l) ∧
  whenReturned (disconnectTransactions exStoreKnown exBlockSpend
                  {| arrays := [[false; false]; [true]]; calls := [] |}) (λ r m',
    wf m' r.1 ∧
    ∀ l, l < length (arrays {| arrays := [[false; false]; [true]]; calls := [] |}) →
         ¬ owns exStoreKnown l →
         arrays m' !! l = arrays {| arrays := [[false; false]; [true]]; calls := [] |} !! l).
Proof.
  split; [split; vm_compute; by eexists _, _ |].
  apply (mutators_frame {| arrays := [[false; false]; [true]]; calls := [] |}
           exStoreKnown exBlockSpend).
  apply wf_exStoreKnown. simpl. lia.
Defined.

(** The arrays of [m] are in [m'] as they were. *)
Lemma collectInput_fresh node txInFlight n0 st txIn m st' m' :
  collectInput node txInFlight st txIn m = Returned st' m' →
  n0 ≤ length (arrays m) → (∀ l, owns st.2 l → n0 ≤ l) →
  length (arrays m) ≤ length (arrays m') ∧
  (∀ l, l < length (arrays m) → arrays m' !! l = arrays m !! l) ∧
  (∀ l, owns st'.2 l → n0 ≤ l).
Proof.
  destruct st as [needed store]. unfold collectInput. intros H Hn Ho.
  destruct (txInFlight !! op_Hash (PreviousOutpoint txIn)) as [t|].
  - unbind H. injection H as <- <-. injection Hstep as <- <-. simpl in *.
    split_and!.
    + rewrite length_app. lia.
    + intros l Hl. by rewrite lookup_app_l.
    + intros l (h & d & Hh & Hs).
      destruct (decide (h = op_Hash (PreviousOutpoint txIn))) as [->|Hne].
      * rewrite lookup_insert_eq in Hh. injection Hh as <-. simpl in Hs.
        injection Hs as <-. done.
      * rewrite lookup_insert_ne in Hh by done. apply Ho. by exists h, d.
  - injection H as <- <-. simpl in *. split_and!; [done | done |].
    intros l (h & d & Hh & Hs).
    destruct (decide (h = op_Hash (PreviousOutpoint txIn))) as [->|Hne].
    + rewrite lookup_insert_eq in Hh. by injection Hh as <-.
    + rewrite lookup_insert_ne in Hh by done. apply Ho. by exists h, d.
Qed.

Lemma foldM_fresh {A} (body : list ShaHash * gmap ShaHash txData → A →
                              M (list ShaHash * gmap ShaHash txData)) n0 :
  (∀ st x m st' m',
     body st x m = Returned st' m' →
     n0 ≤ length (arrays m) → (∀ l, owns st.2 l → n0 ≤ l) →
     length (arrays m) ≤ length (arrays m') ∧
     (∀ l, l < length (arrays m) → arrays m' !! l = arrays m !! l) ∧
     (∀ l, owns st'.2 l → n0 ≤ l)) →
  ∀ xs st m st' m',
    foldM body xs st m = Returned st' m' →
    n0 ≤ length (arrays m) → (∀ l, owns st.2 l → n0 ≤ l) →
    length (arrays m) ≤ length (arrays m') ∧
    (∀ l, l < length (arrays m) → arrays m' !! l = arrays m !! l) ∧
    (∀ l, owns st'.2 l → n0 ≤ l).
Proof.
  intros Hbody. induction xs as [|x rest IH]; intros st m st' m' H Hn Ho; simpl in H.
  - by injection H as <- <-.
  - apply bind_Returned in H as (st1 & m1 & H1 & H).
    destruct (Hbody _ _ _ _ _ H1 Hn Ho) as (L1 & F1 & O1).
    destruct (IH _ _ _ _ H ltac:(lia) O1) as (L2 & F2 & O2).
    split_and!; [lia | | done].
    intros l Hl. rewrite F2 by lia. by apply F1.
Qed.

Lemma collectInputs_fresh node txInFlight txs st m st' m' :
  collectInputs node txInFlight txs st m = Returned st' m' →
  (∀ l, owns st.2 l → length (arrays m) ≤ l) →
  length (arrays m) ≤ length (arrays m') ∧
  (∀ l, l < length (arrays m) → arrays m' !! l = arrays m !! l) ∧
  (∀ l, owns st'.2 l → length (arrays m) ≤ l).
Proof.
  intros H Ho. unfold collectInputs in H.
  apply (foldM_fresh _ (length (arrays m))
           (λ st0 t m0 st1 m1 H0,
              foldM_fresh _ (length (arrays m))
                (collectInput_fresh node txInFlight (length (arrays m)))
                (tx_TxIn t) st0 m0 st1 m1 H0)
           txs st m st' m' H); [done | done].
Qed.

(** X16: [fetchInputTransactions] writes to no array that existed before the
    call, the bitmaps of the database's replies among them, and every bitmap
    of the view it returns is an array allocated during the call: nothing
    done through the view can reach an array of the caller or the database. *)
Theorem fetchInputTransactions_fresh b node block m coinbase nonCoinbase :
  repliesAllocated m (FetchTxByShaList b (neededOf block nonCoinbase)) →
  Transactions block = coinbase :: nonCoinbase →
  whenReturned (fetchInputTransactions b node block m) (λ r m',
    (∀ l, l < length (arrays m) → arrays m' !! l = arrays m !! l) ∧
    ∀ v, r.1 = Some v →
      ∀ h d l, v !! h = Some d → spent d = Some l → length (arrays m) ≤ l).
Proof.
  intros Ha Htxs.
  destruct (fetchInputTransactions_steps b node block m coinbase nonCoinbase Htxs)
    as (txInFlight & store & m1 & _ & _ & Hcol & _ & _ & _ & _ & Heq).
  destruct (collectInputs_fresh _ _ _ _ _ _ _ Hcol) as (L1 & F1 & O1).
  { intros l (h & d & Hh & _). cbn [snd] in Hh. by rewrite lookup_empty in Hh. }
  simpl in O1.
  assert (repliesAllocated m1 (FetchTxByShaList b (neededOf block nonCoinbase))) as Ha1.
  { intros r l Hr Hl. specialize (Ha r l Hr Hl). lia. }
  pose proof (fetchTxList_sim b node (neededOf block nonCoinbase) m1 Ha1) as Hsim.
  pose proof (fetchTxList_keyed b node (neededOf block nonCoinbase) m1) as Hk.
  rewrite Heq.
  destruct (fetchTxList b node (neededOf block nonCoinbase) m1) as [[[vn|] [e|]] m2|];
    try done; simpl.
  - destruct (Hk vn m2 Ha1 eq_refl) as (_ & (L2 & F2 & O2) & K).
    split.
    { intros l Hl. rewrite F2 by lia. by apply F1. }
    intros v [= <-] h d l Hh Hs.
    rewrite mergeStores_union in Hh by (intros h' d' Hh'; by apply K).
    apply lookup_union_Some_raw in Hh as [Hh|[_ Hh]].
    + assert (length (arrays m1) ≤ l) by (apply O2; by exists h, d). lia.
    + apply O1. by exists h, d.
  - destruct Hsim as (_ & v' & (L2 & F2 & _)). split; [|done].
    intros l Hl. rewrite F2 by lia. by apply F1.
Qed.

Lemma fetchInputTransactions_fresh_witness :
  returns (fetchInputTransactions (exChain (Some exTip) ∅) exNext exBlockNeeds exMemUnspent) ∧
  whenReturned
    (fetchInputTransactions (exChain (Some exTip) ∅) exNext exBlockNeeds exMemUnspent)
    (λ r m',
      (∀ l, l < length (arrays exMemUnspent) → arrays m' !! l = arrays exMemUnspent !! l) ∧
      ∀ v, r.1 = Some v →
        ∀ h d l, v !! h = Some d → spent d = Some l → length (arrays exMemUnspent) ≤ l).
Proof.
  split; [vm_compute; by eexists _, _ |].
  apply (fetchInputTransactions_fresh (exChain (Some exTip) ∅) exNext exBlockNeeds
           exMemUnspent exT1 [exT5]).
  - apply exReplies_allocated.
  - reflexivity.
Defined.

Lemma detachLoop_error b nodes : ∀ v m e m',
  detachLoop b nodes v m = Returned (inr e) m' →
  ∃ n, n ∈ nodes ∧ FetchBlockBySha b (node_hash n) = inr e.
Proof.
  induction nodes as [|n rest IH]; intros v m e m' H; [done |].
  simpl in H. apply bind_Returned in H as ([] & m1 & _ & H).
  destruct (FetchBlockBySha b (node_hash n)) as [block|e0] eqn:Hf.
  - apply bind_Returned in H as (r & m2 & _ & H).
    destruct (IH _ _ _ _ H) as (n' & Hn' & He). exists n'. split; [by right | done].
  - injection H as <- <-. exists n. split; [by left | done].
Qed.

Lemma attachLoop_error b nodes : ∀ v m e m',
  attachLoop b nodes v m = Returned (inr e) m' →
  ∃ n, n ∈ nodes ∧ blockCache b !! node_hash n = None ∧
       e = sideChainCacheMiss (node_hash n).
Proof.
  induction nodes as [|n rest IH]; intros v m e m' H; [done |].
  simpl in H. apply bind_Returned in H as ([] & m1 & _ & H).
  destruct (blockCache b !! node_hash n) as [block|] eqn:Hf.
  - apply bind_Returned in H as (r & m2 & _ & H).
    destruct (IH _ _ _ _ H) as (n' & Hn' & He). exists n'. split; [by right | done].
  - injection H as <- <-. exists n. split; [by left | done].
Qed.

(** X17: the results of [fetchTxList], whatever the memory.  A call that
    returns gives a view or an error, never both and never neither.  The
    error is one of three: the error of the lookup of the previous node; the
    error of the database for the block of a node of the detach list; or the
    formatted error for a node of the attach list that is not in the
    side-block cache.  The last two only occur when the node does not extend
    the best chain.  That a transaction was not found is never a returned
    error of the function itself: it is recorded in the entry. *)
Theorem fetchTxList_errors b node txList m :
  whenReturned (fetchTxList b node txList m) (λ r _,
    (is_Some r.1 ↔ r.2 = None) ∧
    ∀ e, r.2 = Some e →
      getPrevNodeFromNode b node = inr e ∨
      ∃ prevNode n,
        getPrevNodeFromNode b node = inl prevNode ∧
        extendsBestChain b prevNode = false ∧
        ((n ∈ (getReorganizeNodes b prevNode).1 ∧
          FetchBlockBySha b (node_hash n) = inr e) ∨
         (n ∈ (getReorganizeNodes b prevNode).2 ∧
          blockCache b !! node_hash n = None ∧
          e = sideChainCacheMiss (node_hash n)))).
Proof.
  destruct (fetchTxList b node txList m) as [r m'|] eqn:H; [|done]. simpl.
  unfold fetchTxList in H.
  apply bind_Returned in H as ([] & m1 & _ & H).
  destruct (getPrevNodeFromNode b node) as [prevNode|e0].
  2:{ injection H as <- _. simpl. split; [split; [by intros [? ?] | done] |].
      intros e [= <-]. by left. }
  apply bind_Returned in H as ([] & m2 & _ & H).
  apply bind_Returned in H as (v2 & m3 & _ & H).
  destruct (extendsBestChain b prevNode) eqn:Hext.
  { injection H as <- _. simpl. split; [by split; eauto | done]. }
  apply bind_Returned in H as ([] & m4 & _ & H).
  destruct (getReorganizeNodes b prevNode) as [det att] eqn:Hre.
  apply bind_Returned in H as ([v3|e3] & m5 & Hdet & H).
  2:{ injection H as <- _. simpl. split; [split; [by intros [? ?] | done] |].
      intros e [= <-]. right.
      destruct (detachLoop_error _ _ _ _ _ _ Hdet) as (n & Hn & Hf).
      exists prevNode, n. split_and!; [done | done |]. left. rewrite Hre. by split. }
  case_decide.
  { injection H as <- _. simpl. split; [by split; eauto | done]. }
  apply bind_Returned in H as ([v4|e4] & m6 & Hatt & H).
  { injection H as <- _. simpl. split; [by split; eauto | done]. }
  injection H as <- _. simpl. split; [split; [by intros [? ?] | done] |].
  intros e [= <-]. right.
  destruct (attachLoop_error _ _ _ _ _ _ Hatt) as (n & Hn & Hmiss & He).
  exists prevNode, n. split_and!; [done | done |]. right. rewrite Hre. by split_and!.
Qed.

(** * The copies of the resolver: the claim *)

Lemma applyReplyView_other m w txReply h :
  reply_Sha txReply ≠ h → applyReplyView m w txReply !! h = w !! h.
Proof.
  intros Hne. unfold applyReplyView.
  destruct (w !! reply_Sha txReply) as [d|]; [|done].
  destruct (reply_Err txReply); by rewrite lookup_insert_ne.
Qed.

Lemma applyReplyViews_other m txReplyList : ∀ w h,
  (∀ r, r ∈ txReplyList → reply_Sha r ≠ h) →
  foldl (applyReplyView m) w txReplyList !! h = w !! h.
Proof.
  induction txReplyList as [|r rest IH]; intros w h H; [done |]. simpl.
  rewrite IH by (intros r' Hr'; apply H; by right).
  apply applyReplyView_other, H. by left.
Qed.

Lemma applyReplyView_is_Some m w txReply h :
  is_Some (w !! h) → is_Some (applyReplyView m w txReply !! h).
Proof.
  intros Hs. destruct (decide (reply_Sha txReply = h)) as [<-|Hne].
  - unfold applyReplyView. destruct Hs as [d ->].
    destruct (reply_Err txReply); rewrite lookup_insert_eq; by eauto.
  - by rewrite applyReplyView_other.
Qed.

Lemma baselineView_is_Some m txReplyList txList h :
  h ∈ txList → is_Some (baselineView m txReplyList txList !! h).
Proof.
  intros Hin. unfold baselineView.
  assert (is_Some (missingView txList !! h)) as Hs.
  { rewrite missingView_lookup. rewrite decide_True by done. by eauto. }
  revert Hs. generalize (missingView txList).
  induction txReplyList as [|r rest IH]; intros w Hs; [done |]. simpl.
  by apply IH, applyReplyView_is_Some.
Qed.

(** The entry of the baseline for a hit that no later reply overrides. *)
Lemma baselineView_last_hit m txReplyList txList pre txReply post :
  txReplyList = pre ++ txReply :: post →
  (∀ r, r ∈ post → reply_Sha r ≠ reply_Sha txReply) →
  reply_Sha txReply ∈ txList → reply_Err txReply = None →
  baselineView m txReplyList txList !! reply_Sha txReply =
  Some {| s_tx := reply_Tx txReply; s_hash := reply_Sha txReply;
          s_blockHeight := reply_Height txReply;
          s_spent := contents m (reply_TxSpent txReply); s_err := None |}.
Proof.
  intros -> Hlast Hin Herr. unfold baselineView. rewrite foldl_app. simpl.
  rewrite applyReplyViews_other by done.
  fold (baselineView m pre txList).
  destruct (baselineView_is_Some m pre txList _ Hin) as [d Hd].
  destruct (keyedView_baseline m pre txList _ _ Hd) as [Hk _].
  unfold applyReplyView. rewrite Hd, Herr, lookup_insert_eq. by rewrite Hk.
Qed.

(** C8: the view [fetchTxList] builds from the replies of the database holds
    copies.  When the node extends the best chain (or none is selected) the
    call returns a view in which the entry of every hit (a reply without
    error for a requested hash, not overridden by a later reply for the same
    hash) has the body and the height of the reply, no error, and a bitmap
    with the contents the reply's bitmap had when [fetchTxList] was called,
    in an array that did not exist before the call: it is not the reply's
    array.  On every path the call either panics in a mutator, or returns an
    error and no view, or returns the view that the undo and redo of the
    blocks make of that baseline of copies; when it returns, every array that
    existed before the call, the arrays of the database's replies among them,
    is as it was, every bitmap of a returned view is a new array, and a store
    through a bitmap of the view leaves the arrays that existed before the
    call as they were. *)
Theorem fetchTxList_copies_spent b node txList m :
  repliesAllocated m (FetchTxByShaList b txList) →
  (∀ prevNode,
     getPrevNodeFromNode b node = inl prevNode → extendsBestChain b prevNode = true →
     ∃ v m', fetchTxList b node txList m = Returned (Some v, None) m' ∧
       dom v = list_to_set txList ∧
       ∀ pre txReply post,
         FetchTxByShaList b txList = pre ++ txReply :: post →
         (∀ r, r ∈ post → reply_Sha r ≠ reply_Sha txReply) →
         reply_Sha txReply ∈ txList → reply_Err txReply = None →
         ∃ txD, v !! reply_Sha txReply = Some txD ∧
           tx txD = reply_Tx txReply ∧ hash txD = reply_Sha txReply ∧
           blockHeight txD = reply_Height txReply ∧ err txD = None ∧
           contents m' (spent txD) = contents m (reply_TxSpent txReply) ∧
           ∀ l, spent txD = Some l →
                length (arrays m) ≤ l ∧ reply_TxSpent txReply ≠ Some l) ∧
  (∀ pre txReply post,
     FetchTxByShaList b txList = pre ++ txReply :: post →
     (∀ r, r ∈ post → reply_Sha r ≠ reply_Sha txReply) →
     reply_Sha txReply ∈ txList → reply_Err txReply = None →
     baselineView m (FetchTxByShaList b txList) txList !! reply_Sha txReply =
     Some {| s_tx := reply_Tx txReply; s_hash := reply_Sha txReply;
             s_blockHeight := reply_Height txReply;
             s_spent := contents m (reply_TxSpent txReply); s_err := None |}) ∧
  match fetchTxList b node txList m with
  | Returned (Some v, None) m' =>
    resolveView b m node txList = Some (Resolved (view m' v)) ∧
    (∀ l, l < length (arrays m) → arrays m' !! l = arrays m !! l) ∧
    (∀ h txD l, v !! h = Some txD → spent txD = Some l → length (arrays m) ≤ l) ∧
    (∀ h txD i bit, v !! h = Some txD →
       whenReturned (store (spent txD) i bit m') (λ _ m'',
         ∀ l, l < length (arrays m) → arrays m'' !! l = arrays m !! l))
  | Returned (None, Some e) m' =>
    resolveView b m node txList = Some (Failed e) ∧
    (∀ l, l < length (arrays m) → arrays m' !! l = arrays m !! l)
  | Returned _ _ => False
  | Panicked _ => resolveView b m node txList = None
  end.
Proof.
  intros Ha. split_and!.
  - intros prevNode Hprev Hext.
    set (m0 := {| arrays := arrays m;
                  calls := calls m ++ [CallGetPrevNodeFromNode node;
                                       CallFetchTxByShaList txList] |}).
    destruct (applyReplies_sim m (FetchTxByShaList b txList) m0 (missingStore txList))
      as (v & m' & H1 & Hv & _ & E & _).
    { apply wf_missingStore. }
    { split_and!; [done | done |]. intros l Ho. by apply missingStore_owns in Ho. }
    { done. }
    rewrite view_missingStore in Hv.
    fold (baselineView m (FetchTxByShaList b txList) txList) in Hv.
    exists v, m'. split; [by apply (fetchTxList_shortcut b node txList m prevNode) |].
    split; [by rewrite (applyReplies_dom _ _ _ _ _ H1), missingStore_dom |].
    intros pre txReply post Hrep Hlast Hin Herr.
    pose proof (baselineView_last_hit m _ txList pre txReply post Hrep Hlast Hin Herr) as Hb.
    rewrite <- Hv, view_lookup in Hb.
    destruct (v !! reply_Sha txReply) as [txD|] eqn:Hd; [|done].
    assert (observe m' txD =
            {| s_tx := reply_Tx txReply; s_hash := reply_Sha txReply;
               s_blockHeight := reply_Height txReply;
               s_spent := contents m (reply_TxSpent txReply); s_err := None |}) as Ho.
    { cbv [fmap option_fmap option_map] in Hb. congruence. }
    exists txD. split; [done |].
    pose proof (f_equal s_tx Ho) as Htx. pose proof (f_equal s_hash Ho) as Hhash.
    pose proof (f_equal s_blockHeight Ho) as Hheight.
    pose proof (f_equal s_spent Ho) as Hspent. pose proof (f_equal s_err Ho) as Herr'.
    simpl in Htx, Hhash, Hheight, Hspent, Herr'. split_and!; [done..|].
    intros l Hs.
    assert (length (arrays m) ≤ l) as Hfresh.
    { destruct E as (_ & _ & O). apply O. by exists (reply_Sha txReply), txD. }
    split; [done |]. intros Hr.
    assert (l < length (arrays m)); [|lia].
    apply (Ha txReply l); [|done]. rewrite Hrep. apply elem_of_app. right. by left.
  - intros pre txReply post Hrep Hlast Hin Herr. by apply (baselineView_last_hit m _ _ pre _ post).
  - pose proof (fetchTxList_sim b node txList m Ha) as H.
    destruct (fetchTxList b node txList m) as [[[v|] [e|]] m'|]; try done.
    2:{ destruct H as (Hres & v' & (_ & F & _)). by split. }
    destruct H as (Hres & W & (L & F & O)).
    assert (∀ h txD l, v !! h = Some txD → spent txD = Some l → length (arrays m) ≤ l)
      as Hfresh.
    { intros h txD l Hh Hs. apply O. by exists h, txD. }
    split_and!; [done | done | done |].
    intros h txD i bit Hh. unfold store.
    destruct (spent txD) as [l|] eqn:Hs; [|done].
    destruct (arrays m' !! l) as [a|]; [|done]. case_decide; [|done]. simpl.
    intros l0 Hl0. rewrite list_lookup_insert_ne; [by apply F |].
    specialize (Hfresh h txD l Hh Hs). lia.
Qed.

Lemma fetchTxList_copies_spent_witness :
  (∃ v m', fetchTxList (exChain (Some exTip) ∅) exNext [11%N; 20%N] exMemUnspent
             = Returned (Some v, None) m' ∧
     dom v = list_to_set [11%N; 20%N] ∧
     ∃ txD, v !! 11%N = Some txD ∧
       tx txD = Some exT1 ∧ hash txD = 11%N ∧ blockHeight txD = 2%Z ∧ err txD = None ∧
       contents m' (spent txD) = [false; false] ∧
       ∀ l, spent txD = Some l → length (arrays exMemUnspent) ≤ l ∧ Some 0 ≠ Some l) ∧
  match fetchTxList (exChain (Some exTip) ∅) exNext [11%N; 20%N] exMemUnspent with
  | Returned (Some v, None) m' =>
    resolveView (exChain (Some exTip) ∅) exMemUnspent exNext [11%N; 20%N]
      = Some (Resolved (view m' v)) ∧
    (∀ l, l < length (arrays exMemUnspent) → arrays m' !! l = arrays exMemUnspent !! l) ∧
    (∀ h txD l, v !! h = Some txD → spent txD = Some l →
                length (arrays exMemUnspent) ≤ l) ∧
    (∀ h txD i bit, v !! h = Some txD →
       whenReturned (store (spent txD) i bit m') (λ _ m'',
         ∀ l, l < length (arrays exMemUnspent) →
              arrays m'' !! l = arrays exMemUnspent !! l))
  | Returned (None, Some e) m' =>
    resolveView (exChain (Some exTip) ∅) exMemUnspent exNext [11%N; 20%N]
      = Some (Failed e) ∧
    (∀ l, l < length (arrays exMemUnspent) → arrays m' !! l = arrays exMemUnspent !! l)
  | Returned _ _ => False
  | Panicked _ =>
    resolveView (exChain (Some exTip) ∅) exMemUnspent exNext [11%N; 20%N] = None
  end.
Proof.
  destruct (fetchTxList_copies_spent (exChain (Some exTip) ∅) exNext [11%N; 20%N]
              exMemUnspent (exReplies_allocated _ _ _)) as (Hs & _ & Hg).
  split; [|exact Hg].
  destruct (Hs (Some exTip) eq_refl eq_refl) as (v & m' & Hf & Hdom & Hhit).
  exists v, m'. split; [done |]. split; [done |].
  apply (Hhit [] (exReply 11%N) [exReply 20%N]).
  - reflexivity.
  - intros r Hr. apply list_elem_of_singleton in Hr as ->. done.
  - by left.
  - reflexivity.
Defined.

(** * The in-flight entries of the input resolver: the claim *)

(** C6: an input of a non-coinbase transaction of the block whose origin
    hash [h] is the hash of a transaction of the block is in flight.  The
    in-flight map holds for [h] the (last) transaction [t] of the block with
    that hash; the loop over the inputs returns; the needed list it builds
    (the origins that are not transactions of the block) does not contain
    [h], and the entry of [h] in its store is filled from [t]: body [t], the
    height of the node, a bitmap of the length of [t]'s outputs, all false,
    no error.  [fetchInputTransactions] then ends as its one call of
    [fetchTxList] for the needed list ends: when that returns a view, it
    returns a view, without error, that holds that entry for [h]; when that
    returns an error, it returns the error and no view; when that panics, it
    panics.  In a call that returns, the database is asked for the needed
    list, once, when the previous node is found, and for nothing otherwise:
    no lookup is issued for [h]. *)
Theorem fetchInputTransactions_in_flight b node block m coinbase nonCoinbase tx_ txIn :
  repliesAllocated m (FetchTxByShaList b (neededOf block nonCoinbase)) →
  Transactions block = coinbase :: nonCoinbase →
  tx_ ∈ nonCoinbase → txIn ∈ tx_TxIn tx_ →
  op_Hash (PreviousOutpoint txIn) ∈ tx_Sha <$> Transactions block →
  ∃ t txInFlight txStore m1,
    lastCreated (op_Hash (PreviousOutpoint txIn)) (Transactions block) = Some t ∧
    inFlightLoop block 0 (Transactions block) ∅ m = Returned txInFlight m ∧
    txInFlight !! op_Hash (PreviousOutpoint txIn) = Some t ∧
    collectInputs node txInFlight nonCoinbase ([], ∅) m
      = Returned (neededOf block nonCoinbase, txStore) m1 ∧
    (op_Hash (PreviousOutpoint txIn) ∉ neededOf block nonCoinbase) ∧
    view m1 txStore !! op_Hash (PreviousOutpoint txIn)
      = Some (inFlightState node (op_Hash (PreviousOutpoint txIn)) t) ∧
    match fetchTxList b node (neededOf block nonCoinbase) m1 with
    | Returned (Some _, None) m' =>
      ∃ v, fetchInputTransactions b node block m = Returned (Some v, None) m' ∧
           view m' v !! op_Hash (PreviousOutpoint txIn)
           = Some (inFlightState node (op_Hash (PreviousOutpoint txIn)) t)
    | Returned (None, Some e) m' =>
      fetchInputTransactions b node block m = Returned (None, Some e) m'
    | Returned _ _ => False
    | Panicked m' => fetchInputTransactions b node block m = Panicked m'
    end ∧
    whenReturned (fetchInputTransactions b node block m) (λ _ m',
      storageLookups (calls m') =
        storageLookups (calls m) ++
        match getPrevNodeFromNode b node with
        | inl _ => [neededOf block nonCoinbase]
        | inr _ => []
        end).
Proof.
  intros Ha Htxs Htx Hin Hown. set (h := op_Hash (PreviousOutpoint txIn)) in *.
  destruct (lastCreated h (Transactions block)) as [t|] eqn:Hlast.
  2:{ by apply lastCreated_None in Hlast. }
  destruct (fetchInputTransactions_steps b node block m coinbase nonCoinbase Htxs)
    as (txInFlight & store & m1 & Hfl & _ & Hcol & Hc & L1 & C1 & Hd & Heq).
  assert (txInFlight !! h = Some t) as Ht.
  { rewrite (inFlightLoop_Returned block (Transactions block) 0 ∅ m eq_refl) in Hfl.
    injection Hfl as <-. by rewrite inFlight_lookup, Hlast. }
  assert (h ∉ neededOf block nonCoinbase) as Hnot.
  { unfold neededOf. intros Hh. by apply list_elem_of_filter in Hh as [Hh _]. }
  assert (is_Some (store !! h)) as [d Hsd].
  { apply elem_of_dom. rewrite Hd, elem_of_list_to_set. apply originsOf_elem.
    by exists tx_, txIn. }
  assert (observe m1 d = inFlightState node h t) as Hobs.
  { destruct Hc as (_ & _ & He). specialize (He h d Hsd). simpl in He.
    by rewrite Ht in He. }
  exists t, txInFlight, store, m1. split_and!; try done.
  { by rewrite view_lookup, Hsd, <- Hobs. }
  - assert (repliesAllocated m1 (FetchTxByShaList b (neededOf block nonCoinbase))) as Ha1.
    { intros r l Hr Hl. specialize (Ha r l Hr Hl). lia. }
    pose proof (fetchTxList_sim b node (neededOf block nonCoinbase) m1 Ha1) as Hsim.
    pose proof (fetchTxList_keyed b node (neededOf block nonCoinbase) m1) as Hk.
    rewrite Heq.
    destruct (fetchTxList b node (neededOf block nonCoinbase) m1) as [[[vn|] [e|]] m2|];
      try done.
    destruct (Hk vn m2 Ha1 eq_refl) as (_ & (_ & F2 & _) & K).
    simpl. eexists. split; [done |].
    rewrite mergeStores_union by (intros k dk Hkd; by apply K).
    rewrite view_lookup.
    assert (vn !! h = None) as Hvn.
    { destruct (vn !! h) as [dk|] eqn:Hkd; [|done]. by destruct (K h dk Hkd). }
    rewrite lookup_union_r by done. rewrite Hsd. simpl. f_equal.
    rewrite <- Hobs. unfold observe. f_equal.
    apply contents_frame. intros l Hl. apply F2.
    destruct Hc as (W1 & _ & _). by apply (wf_lookup_lt m1 store h d l).
  - rewrite Heq.
    destruct (fetchTxList b node (neededOf block nonCoinbase) m1) as [r m2|] eqn:Hf;
      [|done].
    destruct (fetchTxList_calls _ _ _ _ _ _ Hf) as (k & j & Hcalls & _).
    assert (storageLookups (calls m2) =
            storageLookups (calls m) ++
            match getPrevNodeFromNode b node with
            | inl _ => [neededOf block nonCoinbase]
            | inr _ => []
            end) as Hl.
    { by rewrite Hcalls, C1, storageLookups_app, storageLookups_resolverLog. }
    by destruct r as [vn [e|]].
Qed.

Lemma fetchInputTransactions_in_flight_witness :
  (∃ v m',
     fetchInputTransactions (exChain (Some exTip) ∅) exNext exBlockNeeds exMemUnspent
       = Returned (Some v, None) m' ∧
     view m' v !! 11%N = Some (inFlightState exNext 11%N exT1) ∧
     storageLookups (calls m') = [[20%N]]) ∧
  ∃ t txInFlight txStore m1,
    lastCreated 11%N (Transactions exBlockNeeds) = Some t ∧
    inFlightLoop exBlockNeeds 0 (Transactions exBlockNeeds) ∅ exMemUnspent
      = Returned txInFlight exMemUnspent ∧
    txInFlight !! 11%N = Some t ∧
    collectInputs exNext txInFlight [exT5] ([], ∅) exMemUnspent
      = Returned (neededOf exBlockNeeds [exT5], txStore) m1 ∧
    (11%N ∉ neededOf exBlockNeeds [exT5]) ∧
    view m1 txStore !! 11%N = Some (inFlightState exNext 11%N t) ∧
    match fetchTxList (exChain (Some exTip) ∅) exNext (neededOf exBlockNeeds [exT5]) m1 with
    | Returned (Some _, None) m' =>
      ∃ v, fetchInputTransactions (exChain (Some exTip) ∅) exNext exBlockNeeds exMemUnspent
             = Returned (Some v, None) m' ∧
           view m' v !! 11%N = Some (inFlightState exNext 11%N t)
    | Returned (None, Some e) m' =>
      fetchInputTransactions (exChain (Some exTip) ∅) exNext exBlockNeeds exMemUnspent
        = Returned (None, Some e) m'
    | Returned _ _ => False
    | Panicked m' =>
      fetchInputTransactions (exChain (Some exTip) ∅) exNext exBlockNeeds exMemUnspent
        = Panicked m'
    end ∧
    whenReturned
      (fetchInputTransactions (exChain (Some exTip) ∅) exNext exBlockNeeds exMemUnspent)
      (λ _ m',
        storageLookups (calls m') =
          storageLookups (calls exMemUnspent) ++
          match getPrevNodeFromNode (exChain (Some exTip) ∅) exNext with
          | inl _ => [neededOf exBlockNeeds [exT5]]
          | inr _ => []
          end).
Proof.
  split.
  { eexists _, _. split_and!; vm_compute; reflexivity. }
  apply (fetchInputTransactions_in_flight (exChain (Some exTip) ∅) exNext exBlockNeeds
           exMemUnspent exT1 [exT5] exT5 (outpoint 11%N 1%N)).
  - apply exReplies_allocated.
  - reflexivity.
  - by left.
  - right. by left.
  - by left.
Defined.
